(** * Annotation Canvas Engine of the batch labeled editor

    A shallow embedding of [v.0.7/BatchLabeledEditor.py]: the viewport
    transform, the effect compositor, the label layout engine, the
    interaction state machine and the region (de)serialisation, followed
    by the properties of the specification that concern them.

    Conventions of the embedding.
    - Python [int] is [Z]; Python [str] is [string]; a Python [float] is a
      rational [Q], and every floating-point operation rounds its exact
      result through a function [fl] that the development keeps abstract
      (binary64 rounding to nearest is one instance, the identity another).
    - A function that can raise returns [res A]; a caught exception is
      written out where the source has the [try].
    - Calls into OpenCV and NumPy are parameters; a JSON file is the value
      that [json.load] reads from it. *)

From Stdlib Require Import ZArith QArith Qround Lia Lqa String Ascii List DecimalString.
From stdpp Require Import base list strings gmap.

Local Open Scope Z_scope.

(** * Part I: the embedding *)

(** ** Python preliminaries *)

Inductive pyexn :=
| TypeError | ValueError | KeyError | AttributeError
| IndexError | ZeroDivisionError | UnboundLocalError | cv2_error.

Inductive res (A : Type) :=
| Ok (a : A)
| Raise (e : pyexn).
Arguments Ok {A} a.
Arguments Raise {A} e.

#[global] Instance res_ret : MRet res := fun A a => Ok a.
#[global] Instance res_bind : MBind res := fun A B k r =>
  match r with
  | Ok a => k a
  | Raise e => Raise e
  end.

(** [int(q)] on a float: truncation toward zero. *)
Definition py_int (q : Q) : Z := Z.quot (Qnum q) (Zpos (Qden q)).

Definition Qltb (a b : Q) : bool := negb (Qle_bool b a).

(** The builtins [max(a, b)] and [min(a, b)]: the first argument wins
    unless the second is strictly larger (smaller). *)
Definition py_max (a b : Q) : Q := if Qltb a b then b else a.
Definition py_min (a b : Q) : Q := if Qltb b a then b else a.

(** ** The effect modes *)

Inductive EditMode :=
| HIGHLIGHT | BLUR | PIXELATE | DARKEN | GRAYSCALE | INVERT | OUTLINE.

Definition value (m : EditMode) : string :=
  match m with
  | HIGHLIGHT => "highlight"
  | BLUR => "blur"
  | PIXELATE => "pixelate"
  | DARKEN => "darken"
  | GRAYSCALE => "grayscale"
  | INVERT => "invert"
  | OUTLINE => "outline"
  end.

(** [list(EditMode)]: the members in definition order. *)
Definition EditMode_members : list EditMode :=
  [HIGHLIGHT; BLUR; PIXELATE; DARKEN; GRAYSCALE; INVERT; OUTLINE].

Definition color : Type := Z * Z * Z.

Definition mode_colors (m : EditMode) : color :=
  match m with
  | HIGHLIGHT => (0, 255, 0)
  | BLUR => (255, 0, 0)
  | PIXELATE => (0, 0, 255)
  | DARKEN => (128, 128, 128)
  | GRAYSCALE => (200, 200, 200)
  | INVERT => (255, 255, 0)
  | OUTLINE => (0, 255, 255)
  end.

(** ** Regions and the editor state *)

(** A committed region: the dict with keys ['center'], ['radius'],
    ['mode'] and ['label'] that the gesture path appends to
    [self.circles]. *)
Record circle := Circle {
  center : Z * Z;
  radius : Z;
  mode : EditMode;
  label : string
}.

(** The attributes of [BatchLabeledEditor] that the interaction code reads
    and writes.  The image buffers live in the compositor below. *)
Record editor := Editor {
  circles : list circle;
  drawing : bool;
  self_center : option (Z * Z);
  current_radius : Z;
  current_label : string;
  label_input_mode : bool;
  zoom_level : Q;
  min_zoom : Q;
  max_zoom : Q;
  pan_x : Z;
  pan_y : Z;
  is_panning : bool;
  pan_start_x : Z;
  pan_start_y : Z;
  last_zoom_time : Q;
  current_mode : EditMode;
  _blur_kernel : Z;
  _pixelate_size : Z;
  highlight_alpha : Q;
  show_labels : bool
}.

Definition MAX_RECOMMENDED_CIRCLES : Z := 30.
Definition ZOOM_DEBOUNCE_MS : Q := 50 # 1.

(** The state [__init__] builds before the first image is loaded. *)
Definition init_editor : editor :=
  {| circles := []; drawing := false; self_center := None;
     current_radius := 0; current_label := ""; label_input_mode := false;
     zoom_level := 1 # 1; min_zoom := 1 # 2; max_zoom := 10 # 1;
     pan_x := 0; pan_y := 0; is_panning := false;
     pan_start_x := 0; pan_start_y := 0; last_zoom_time := 0 # 1;
     current_mode := HIGHLIGHT;
     _blur_kernel := 25; _pixelate_size := 10; highlight_alpha := 4 # 10;
     show_labels := true |}.

(** Attribute assignments, one function per group of attributes that the
    source assigns together. *)
Definition set_circles (st : editor) (cs : list circle) : editor :=
  Editor cs (drawing st) (self_center st) (current_radius st)
    (current_label st) (label_input_mode st) (zoom_level st) (min_zoom st)
    (max_zoom st) (pan_x st) (pan_y st) (is_panning st) (pan_start_x st)
    (pan_start_y st) (last_zoom_time st) (current_mode st) (_blur_kernel st)
    (_pixelate_size st) (highlight_alpha st) (show_labels st).

Definition set_drawing (st : editor) (b : bool) : editor :=
  Editor (circles st) b (self_center st) (current_radius st)
    (current_label st) (label_input_mode st) (zoom_level st) (min_zoom st)
    (max_zoom st) (pan_x st) (pan_y st) (is_panning st) (pan_start_x st)
    (pan_start_y st) (last_zoom_time st) (current_mode st) (_blur_kernel st)
    (_pixelate_size st) (highlight_alpha st) (show_labels st).

Definition set_center (st : editor) (c : option (Z * Z)) : editor :=
  Editor (circles st) (drawing st) c (current_radius st)
    (current_label st) (label_input_mode st) (zoom_level st) (min_zoom st)
    (max_zoom st) (pan_x st) (pan_y st) (is_panning st) (pan_start_x st)
    (pan_start_y st) (last_zoom_time st) (current_mode st) (_blur_kernel st)
    (_pixelate_size st) (highlight_alpha st) (show_labels st).

Definition set_current_radius (st : editor) (r : Z) : editor :=
  Editor (circles st) (drawing st) (self_center st) r
    (current_label st) (label_input_mode st) (zoom_level st) (min_zoom st)
    (max_zoom st) (pan_x st) (pan_y st) (is_panning st) (pan_start_x st)
    (pan_start_y st) (last_zoom_time st) (current_mode st) (_blur_kernel st)
    (_pixelate_size st) (highlight_alpha st) (show_labels st).

Definition set_current_label (st : editor) (s : string) : editor :=
  Editor (circles st) (drawing st) (self_center st) (current_radius st)
    s (label_input_mode st) (zoom_level st) (min_zoom st)
    (max_zoom st) (pan_x st) (pan_y st) (is_panning st) (pan_start_x st)
    (pan_start_y st) (last_zoom_time st) (current_mode st) (_blur_kernel st)
    (_pixelate_size st) (highlight_alpha st) (show_labels st).

Definition set_label_input_mode (st : editor) (b : bool) : editor :=
  Editor (circles st) (drawing st) (self_center st) (current_radius st)
    (current_label st) b (zoom_level st) (min_zoom st)
    (max_zoom st) (pan_x st) (pan_y st) (is_panning st) (pan_start_x st)
    (pan_start_y st) (last_zoom_time st) (current_mode st) (_blur_kernel st)
    (_pixelate_size st) (highlight_alpha st) (show_labels st).

Definition set_zoom_level (st : editor) (z : Q) : editor :=
  Editor (circles st) (drawing st) (self_center st) (current_radius st)
    (current_label st) (label_input_mode st) z (min_zoom st)
    (max_zoom st) (pan_x st) (pan_y st) (is_panning st) (pan_start_x st)
    (pan_start_y st) (last_zoom_time st) (current_mode st) (_blur_kernel st)
    (_pixelate_size st) (highlight_alpha st) (show_labels st).

Definition set_pan (st : editor) (px py : Z) : editor :=
  Editor (circles st) (drawing st) (self_center st) (current_radius st)
    (current_label st) (label_input_mode st) (zoom_level st) (min_zoom st)
    (max_zoom st) px py (is_panning st) (pan_start_x st)
    (pan_start_y st) (last_zoom_time st) (current_mode st) (_blur_kernel st)
    (_pixelate_size st) (highlight_alpha st) (show_labels st).

Definition set_is_panning (st : editor) (b : bool) : editor :=
  Editor (circles st) (drawing st) (self_center st) (current_radius st)
    (current_label st) (label_input_mode st) (zoom_level st) (min_zoom st)
    (max_zoom st) (pan_x st) (pan_y st) b (pan_start_x st)
    (pan_start_y st) (last_zoom_time st) (current_mode st) (_blur_kernel st)
    (_pixelate_size st) (highlight_alpha st) (show_labels st).

Definition set_pan_start (st : editor) (sx sy : Z) : editor :=
  Editor (circles st) (drawing st) (self_center st) (current_radius st)
    (current_label st) (label_input_mode st) (zoom_level st) (min_zoom st)
    (max_zoom st) (pan_x st) (pan_y st) (is_panning st) sx
    sy (last_zoom_time st) (current_mode st) (_blur_kernel st)
    (_pixelate_size st) (highlight_alpha st) (show_labels st).

Definition set_last_zoom_time (st : editor) (t : Q) : editor :=
  Editor (circles st) (drawing st) (self_center st) (current_radius st)
    (current_label st) (label_input_mode st) (zoom_level st) (min_zoom st)
    (max_zoom st) (pan_x st) (pan_y st) (is_panning st) (pan_start_x st)
    (pan_start_y st) t (current_mode st) (_blur_kernel st)
    (_pixelate_size st) (highlight_alpha st) (show_labels st).

Definition set_current_mode (st : editor) (m : EditMode) : editor :=
  Editor (circles st) (drawing st) (self_center st) (current_radius st)
    (current_label st) (label_input_mode st) (zoom_level st) (min_zoom st)
    (max_zoom st) (pan_x st) (pan_y st) (is_panning st) (pan_start_x st)
    (pan_start_y st) (last_zoom_time st) m (_blur_kernel st)
    (_pixelate_size st) (highlight_alpha st) (show_labels st).

Definition set_blur_kernel (st : editor) (k : Z) : editor :=
  Editor (circles st) (drawing st) (self_center st) (current_radius st)
    (current_label st) (label_input_mode st) (zoom_level st) (min_zoom st)
    (max_zoom st) (pan_x st) (pan_y st) (is_panning st) (pan_start_x st)
    (pan_start_y st) (last_zoom_time st) (current_mode st) k
    (_pixelate_size st) (highlight_alpha st) (show_labels st).

Definition set_pixelate_size (st : editor) (k : Z) : editor :=
  Editor (circles st) (drawing st) (self_center st) (current_radius st)
    (current_label st) (label_input_mode st) (zoom_level st) (min_zoom st)
    (max_zoom st) (pan_x st) (pan_y st) (is_panning st) (pan_start_x st)
    (pan_start_y st) (last_zoom_time st) (current_mode st) (_blur_kernel st)
    k (highlight_alpha st) (show_labels st).

Definition set_show_labels (st : editor) (b : bool) : editor :=
  Editor (circles st) (drawing st) (self_center st) (current_radius st)
    (current_label st) (label_input_mode st) (zoom_level st) (min_zoom st)
    (max_zoom st) (pan_x st) (pan_y st) (is_panning st) (pan_start_x st)
    (pan_start_y st) (last_zoom_time st) (current_mode st) (_blur_kernel st)
    (_pixelate_size st) (highlight_alpha st) b.

(** What the interaction code asks of the console and of the renderer.
    The texts of the messages are not modelled, only which message it is. *)
Inductive message :=
| MsgManyCircles (n : nat)
| MsgCircleDrawn (m : EditMode)
| MsgAdded (l : string) (m : EditMode)
| MsgAddedUnlabeled (m : EditMode)
| MsgCancelled
| MsgCleared
| MsgRemoved (l : string)
| MsgNothingToUndo
| MsgNothingToEdit
| MsgCurrentLabel (l : string)
| MsgEditCancelled
| MsgLabelUpdated
| MsgMode (m : EditMode).

Inductive ui_action :=
| PrintMsg (m : message)
| ApplyAllEffects
| ResetOutputImage
| UpdateDisplay
| UpdateDisplayWithInput.

(** ** Viewport and pointer events *)

(** The events of [cv2.setMouseCallback] that the callback tells apart. *)
Inductive mouse_event :=
| EVENT_MOUSEMOVE | EVENT_LBUTTONDOWN | EVENT_RBUTTONDOWN | EVENT_LBUTTONUP
| EVENT_RBUTTONUP | EVENT_MOUSEWHEEL | EVENT_OTHER.

(** [float(n)] for an [int] [n] that is not negative, with [bits]
    significant bits: [n] itself when it has no more bits than that, else
    the nearest multiple of the power of two that leaves [bits] bits, a tie
    going to the even one. *)
Definition round_to_bits (bits n : Z) : Z :=
  let e := Z.log2 n + 1 - bits in
  if e <=? 0 then n
  else
    let q := Z.shiftr n e in
    let r := n - Z.shiftl q e in
    let half := Z.shiftl 1 (e - 1) in
    let q := if (half <? r) || ((r =? half) && Z.odd q) then q + 1 else q in
    Z.shiftl q e.

(** [int(np.sqrt(n))] for an [int] [n].  NumPy takes an [int] below 2^64
    as a 64-bit integer and computes in binary64: [n] is rounded to 53
    bits, the root is rounded to 53 bits (to the nearest, and a root that
    is not exact is never a tie), and [int] truncates.  The root has [f]
    bits after the point, and [r] counts it in units of 2^-f.  An [int]
    of 2^64 or more becomes an array of objects, on which [np.sqrt]
    raises [TypeError]; the root of a negative number is [nan], which
    [int] rejects. *)
Definition int_sqrt (n : Z) : res Z :=
  if n <? 0 then Raise ValueError
  else if 2 ^ 64 <=? n then Raise TypeError
  else
    let m := round_to_bits 53 n in
    let f := 53 - (Z.log2 (Z.sqrt m) + 1) in
    let r := Z.sqrt (m * 4 ^ f) in
    let r := if (2 * r + 1) ^ 2 <? 4 * m * 4 ^ f then r + 1 else r in
    Ok (Z.shiftr r f).

#[global] Arguments int_sqrt : simpl never.

Section Viewport.

(** Rounding of the exact result of a float operation. *)
Variable fl : Q -> Q.

Definition float_of_int (z : Z) : Q := fl (inject_Z z).
Definition fadd (a b : Q) : Q := fl (a + b).
Definition fsub (a b : Q) : Q := fl (a - b).
Definition fmul (a b : Q) : Q := fl (a * b).
Definition fdiv (a b : Q) : res Q :=
  if Qeq_bool b 0 then Raise ZeroDivisionError else Ok (fl (a / b)).

Definition _screen_to_image_coords (st : editor) (screen_x screen_y : Z)
  : res (Z * Z) :=
  qx ← fdiv (float_of_int (screen_x - pan_x st)) (zoom_level st);
  qy ← fdiv (float_of_int (screen_y - pan_y st)) (zoom_level st);
  Ok (py_int qx, py_int qy).

Definition _image_to_screen_coords (st : editor) (img_x img_y : Z) : Z * Z :=
  (py_int (fadd (fmul (float_of_int img_x) (zoom_level st))
                (float_of_int (pan_x st))),
   py_int (fadd (fmul (float_of_int img_y) (zoom_level st))
                (float_of_int (pan_y st)))).

Definition _enter_label_input_mode (st : editor) : editor * list ui_action :=
  let st := set_label_input_mode st true in
  let st := set_current_label st "" in
  (st, [PrintMsg (MsgCircleDrawn (current_mode st)); UpdateDisplayWithInput]).

(** [_mouse_callback(event, x, y, flags, param)]; [now] is the value of
    [time.time() * 1000] read when a wheel event arrives. *)
Definition _mouse_callback (st : editor) (now : Q) (event : mouse_event)
    (x y flags : Z) : res (editor * list ui_action) :=
  match event with
  | EVENT_MOUSEWHEEL =>
      let current_time := now in
      if Qltb (fsub current_time (last_zoom_time st)) ZOOM_DEBOUNCE_MS
      then Ok (st, [])
      else
        let st := set_last_zoom_time st current_time in
        let zoom_factor := if 0 <? flags then fl (11 # 10) else fl (9 # 10) in
        let new_zoom := fmul (zoom_level st) zoom_factor in
        let new_zoom := py_max (min_zoom st) (py_min (max_zoom st) new_zoom) in
        '(img_x, img_y) ← _screen_to_image_coords st x y;
        let st := set_zoom_level st new_zoom in
        let st :=
          set_pan st
            (py_int (fsub (float_of_int x)
                          (fmul (float_of_int img_x) (zoom_level st))))
            (py_int (fsub (float_of_int y)
                          (fmul (float_of_int img_y) (zoom_level st)))) in
        Ok (st, [UpdateDisplay])
  | _ =>
  match event with
  | EVENT_RBUTTONDOWN =>
      let st := set_is_panning st true in
      Ok (set_pan_start st (x - pan_x st) (y - pan_y st), [])
  | EVENT_RBUTTONUP => Ok (set_is_panning st false, [])
  | _ =>
  if match event with EVENT_MOUSEMOVE => is_panning st | _ => false end
  then Ok (set_pan st (x - pan_start_x st) (y - pan_start_y st),
           [UpdateDisplay])
  else if label_input_mode st || is_panning st then Ok (st, [])
  else
    match event with
    | EVENT_LBUTTONDOWN =>
        c ← _screen_to_image_coords st x y;
        let st := set_drawing st true in
        let st := set_center st (Some c) in
        Ok (set_current_radius st 0, [])
    | EVENT_MOUSEMOVE =>
        if drawing st then
          '(img_x, img_y) ← _screen_to_image_coords st x y;
          match self_center st with
          | None => Raise TypeError
          | Some (cx, cy) =>
              r ← int_sqrt ((img_x - cx) ^ 2 + (img_y - cy) ^ 2);
              Ok (set_current_radius st r, [UpdateDisplay])
          end
        else Ok (st, [])
    | EVENT_LBUTTONUP =>
        if drawing st then
          let st := set_drawing st false in
          if 5 <? current_radius st then
            let warn :=
              if MAX_RECOMMENDED_CIRCLES <=? Z.of_nat (length (circles st))
              then [PrintMsg (MsgManyCircles (length (circles st)))] else [] in
            let '(st, acts) := _enter_label_input_mode st in
            Ok (st, warn ++ acts)
          else Ok (st, [])
        else Ok (st, [])
    | _ => Ok (st, [])
    end
  end
  end.

End Viewport.

(** ** Effect parameters *)

(** The argument of a property setter: an [int], or a value for which
    [isinstance(value, int)] is false. *)
Inductive pyarg :=
| IntArg (z : Z)
| NonIntArg.

Definition blur_kernel (st : editor) : Z := _blur_kernel st.
Definition pixelate_size (st : editor) : Z := _pixelate_size st.

(** The setters return the editor after the call and the exception that
    left the setter, if one did. *)
Definition blur_kernel_setter (st : editor) (v : pyarg)
  : editor * option pyexn :=
  match v with
  | NonIntArg => (st, Some TypeError)
  | IntArg value =>
      if value <=? 0 then (st, Some ValueError)
      else if value mod 2 =? 0 then (st, Some ValueError)
      else (set_blur_kernel st value, None)
  end.

Definition pixelate_size_setter (st : editor) (v : pyarg)
  : editor * option pyexn :=
  match v with
  | NonIntArg => (st, Some TypeError)
  | IntArg value =>
      if value <=? 0 then (st, Some ValueError)
      else (set_pixelate_size st value, None)
  end.

(** ** Label buffer *)

(** [str.isspace] on one character; strings hold code points below 256,
    which is all that [chr(key)] yields for a key masked with [0xFF]. *)
Definition isspace (c : ascii) : bool :=
  let n := Z.of_N (N_of_ascii c) in
  ((9 <=? n) && (n <=? 13)) || ((28 <=? n) && (n <=? 32))
  || (n =? 133) || (n =? 160).

Fixpoint lstrip (s : string) : string :=
  match s with
  | EmptyString => EmptyString
  | String c s' => if isspace c then lstrip s' else s
  end.

Fixpoint rstrip (s : string) : string :=
  match s with
  | EmptyString => EmptyString
  | String c s' =>
      match rstrip s' with
      | EmptyString => if isspace c then EmptyString else String c EmptyString
      | t => String c t
      end
  end.

(** [s.strip()] *)
Definition strip (s : string) : string := rstrip (lstrip s).

(** [s[:-1]] *)
Fixpoint drop_last (s : string) : string :=
  match s with
  | EmptyString => EmptyString
  | String c EmptyString => EmptyString
  | String c s' => String c (drop_last s')
  end.

(** Strings of whitespace only, and the two ends of a string. *)
Fixpoint all_space (s : string) : bool :=
  match s with
  | EmptyString => true
  | String c s' => isspace c && all_space s'
  end.

Definition first_char (s : string) : option ascii :=
  match s with
  | EmptyString => None
  | String c _ => Some c
  end.

Fixpoint last_char (s : string) : option ascii :=
  match s with
  | EmptyString => None
  | String c EmptyString => Some c
  | String _ s' => last_char s'
  end.

Definition ord (c : ascii) : Z := Z.of_N (N_of_ascii c).
Definition chr (k : Z) : ascii := ascii_of_N (Z.to_N k).

(** [bool(s)] for a string *)
Definition nonempty (s : string) : bool :=
  match s with EmptyString => false | _ => true end.

(** [_exit_label_input_mode(save)].  With [self.center] still [None] the
    source appends a region whose centre is [None], which a [circle] here
    cannot hold; the recomposition that follows the append then fails on
    the mask of that region ([cv2.circle] rejects the centre) and the
    handler of [_apply_effect] raises [UnboundLocalError] in its turn, so
    the call ends in that exception.  No state of a session has label
    input without a centre. *)
Definition _exit_label_input_mode (st : editor) (save : bool)
  : res (editor * list ui_action) :=
  let st := set_label_input_mode st false in
  '(st, acts) ←
    (if save then
       let label := strip (current_label st) in
       match self_center st with
       | None => Raise UnboundLocalError
       | Some c =>
           let st :=
             set_circles st
               (circles st ++
                [{| center := c; radius := current_radius st;
                    mode := current_mode st; label := label |}]) in
           Ok (st,
               [PrintMsg (if nonempty label
                       then MsgAdded label (current_mode st)
                       else MsgAddedUnlabeled (current_mode st));
                ApplyAllEffects])
       end
     else Ok (st, [PrintMsg MsgCancelled]));
  Ok (set_current_label st "", acts ++ [UpdateDisplay]).

(** ** The key loop *)

(** Which branch of the loop body of [run] a key selects. *)
Inductive command :=
| CmdLabelEsc | CmdLabelEnter | CmdLabelBackspace | CmdLabelChar (c : ascii)
| CmdLabelIgnore
| CmdPrevious | CmdNext | CmdResetZoom | CmdSave | CmdSaveNext
| CmdClear | CmdUndo | CmdList | CmdEditLast | CmdToggleLabels | CmdMemory
| CmdHelp | CmdMode (index : Z) | CmdQuit | CmdNone.

Definition is_key (key : Z) (lower upper : ascii) : bool :=
  (key =? ord lower) || (key =? ord upper).

Definition key_command (st : editor) (key : Z) : command :=
  if label_input_mode st then
    if key =? 27 then CmdLabelEsc
    else if key =? 13 then CmdLabelEnter
    else if key =? 8 then CmdLabelBackspace
    else if (32 <=? key) && (key <=? 126) then CmdLabelChar (chr key)
    else CmdLabelIgnore
  else if is_key key "a" "A" then CmdPrevious
  else if is_key key "d" "D" then CmdNext
  else if is_key key "r" "R" then CmdResetZoom
  else if key =? ord "s" then CmdSave
  else if key =? ord "S" then CmdSaveNext
  else if is_key key "c" "C" then CmdClear
  else if is_key key "u" "U" then CmdUndo
  else if is_key key "l" "L" then CmdList
  else if is_key key "e" "E" then CmdEditLast
  else if is_key key "t" "T" then CmdToggleLabels
  else if is_key key "m" "M" then CmdMemory
  else if is_key key "h" "H" || (key =? 0) then CmdHelp
  else if (ord "1" <=? key) && (key <=? ord "7") then CmdMode (key - ord "1")
  else if is_key key "q" "Q" then CmdQuit
  else CmdNone.


(** What one pass through the loop body comes to. *)
Inductive iteration :=
| Handled (st : editor) (acts : list ui_action)
| Blocked
| Delegated (c : command)
| Raised (e : pyexn).

Definition of_res (r : res (editor * list ui_action)) : iteration :=
  match r with
  | Ok (st, acts) => Handled st acts
  | Raise e => Raised e
  end.

(** [last_circle['label'] = l] for [last_circle = self.circles[-1]] *)
Definition set_last_label (cs : list circle) (l : string) : list circle :=
  match reverse cs with
  | [] => []
  | c :: rest =>
      reverse rest ++
      [{| center := center c; radius := radius c; mode := mode c;
          label := l |}]
  end.

(** The [while self.label_input_mode] loop of [_edit_last_label]; [keys]
    are the values that its [cv2.waitKey(0) & 0xFF] returns, in order.
    [None]: the keys ran out and the loop still waits. *)
Fixpoint edit_loop (st : editor) (acts : list ui_action) (keys : list Z)
  : option (editor * list ui_action) :=
  match keys with
  | [] => None
  | key :: keys =>
      if key =? 27 then
        let st := set_label_input_mode st false in
        let st := set_current_label st "" in
        Some (st, acts ++ [PrintMsg MsgEditCancelled; UpdateDisplay])
      else if key =? 13 then
        let st :=
          set_circles st
            (set_last_label (circles st) (strip (current_label st))) in
        let st := set_label_input_mode st false in
        let st := set_current_label st "" in
        Some (st, acts ++ [PrintMsg MsgLabelUpdated; ApplyAllEffects;
                           UpdateDisplay])
      else if key =? 8 then
        edit_loop (set_current_label st (drop_last (current_label st)))
          (acts ++ [UpdateDisplayWithInput]) keys
      else if (32 <=? key) && (key <=? 126) then
        edit_loop
          (set_current_label st (current_label st +:+ String (chr key) ""))
          (acts ++ [UpdateDisplayWithInput]) keys
      else edit_loop st acts keys
  end.

(** [_edit_last_label()] when no pointer event arrives while its loop
    waits; [keys] are the keys that the loop reads.  Before the first key
    is read [_update_display_with_input()] draws the pending circle and
    the typing label at [self.center]; with no centre on record (no drag
    since the editor was built) it raises [TypeError], with the buffer and
    the flag already set.  [None]: the keys ran out. *)
Definition _edit_last_label (st : editor) (keys : list Z)
  : option (res (editor * list ui_action)) :=
  match last (circles st) with
  | None => Some (Ok (st, [PrintMsg MsgNothingToEdit]))
  | Some last_circle =>
      let current := label last_circle in
      let st := set_current_label st current in
      let st := set_label_input_mode st true in
      match self_center st with
      | None => Some (Raise TypeError)
      | Some _ =>
          Ok <$>
            edit_loop st
              [PrintMsg (MsgCurrentLabel current); UpdateDisplayWithInput] keys
      end
  end.

(** One pass through the body of [while True] in [run], for the key that
    [cv2.waitKey(1) & 0xFF] returned; [sub] are the keys read by a nested
    label-edit loop, if the key opens one.  Navigation, saving, listing,
    help and quitting belong to collaborators and are only named. *)
Definition run_key (st : editor) (key : Z) (sub : list Z) : iteration :=
  match key_command st key with
  | CmdLabelEsc => of_res (_exit_label_input_mode st false)
  | CmdLabelEnter => of_res (_exit_label_input_mode st true)
  | CmdLabelBackspace =>
      Handled (set_current_label st (drop_last (current_label st)))
        [UpdateDisplayWithInput]
  | CmdLabelChar c =>
      Handled (set_current_label st (current_label st +:+ String c ""))
        [UpdateDisplayWithInput]
  | CmdLabelIgnore => Handled st []
  | CmdResetZoom =>
      Handled (set_pan (set_zoom_level st (1 # 1)) 0 0) [UpdateDisplay]
  | CmdClear =>
      Handled (set_circles st [])
        [ResetOutputImage; UpdateDisplay; PrintMsg MsgCleared]
  | CmdUndo =>
      match reverse (circles st) with
      | removed :: rest =>
          Handled (set_circles st (reverse rest))
            [PrintMsg (MsgRemoved (label removed)); ApplyAllEffects;
             UpdateDisplay]
      | [] => Handled st [PrintMsg MsgNothingToUndo]
      end
  | CmdEditLast =>
      match _edit_last_label st sub with
      | Some r => of_res r
      | None => Blocked
      end
  | CmdToggleLabels =>
      Handled (set_show_labels st (negb (show_labels st))) [UpdateDisplay]
  | CmdMode index =>
      match EditMode_members !! Z.to_nat index with
      | Some m =>
          Handled (set_current_mode st m) [PrintMsg (MsgMode m); UpdateDisplay]
      | None => Raised IndexError
      end
  | CmdNone => Handled st []
  | c => Delegated c
  end.

(** The loop over the keys that arrive one after the other, none of them
    opening a nested loop; it stops at the first pass that is not
    [Handled]. *)
Fixpoint run_keys (st : editor) (keys : list Z) : iteration :=
  match keys with
  | [] => Handled st []
  | key :: keys =>
      match run_key st key [] with
      | Handled st acts =>
          match run_keys st keys with
          | Handled st acts' => Handled st (acts ++ acts')
          | other => other
          end
      | other => other
      end
  end.

(** ** The loop of the label edit, event by event *)

(** What the loop of [_edit_last_label] receives while it waits in
    [cv2.waitKey(0)]: the key that the call returns, or a pointer event,
    whose callback runs inside the call. *)
Inductive edit_input :=
| EditKey (key : Z)
| EditPointer (now : Q) (ev : mouse_event) (x y flags : Z).

(** What one pass through the loop comes to. *)
Inductive edit_outcome :=
| EditGoesOn (st : editor) (acts : list ui_action)
| EditReturns (st : editor) (acts : list ui_action)
| EditRaises (e : pyexn).

(** The body of the loop for one key, with what follows the loop when the
    key ends it. *)
Definition edit_key (st : editor) (key : Z) : edit_outcome :=
  if key =? 27 then
    let st := set_label_input_mode st false in
    let st := set_current_label st "" in
    EditReturns st [PrintMsg MsgEditCancelled; UpdateDisplay]
  else if key =? 13 then
    let st :=
      set_circles st
        (set_last_label (circles st) (strip (current_label st))) in
    let st := set_label_input_mode st false in
    let st := set_current_label st "" in
    EditReturns st [PrintMsg MsgLabelUpdated; ApplyAllEffects; UpdateDisplay]
  else if key =? 8 then
    EditGoesOn (set_current_label st (drop_last (current_label st)))
      [UpdateDisplayWithInput]
  else if (32 <=? key) && (key <=? 126) then
    EditGoesOn
      (set_current_label st (current_label st +:+ String (chr key) ""))
      [UpdateDisplayWithInput]
  else EditGoesOn st [].

Section EditLoop.

Variable fl : Q -> Q.

Definition edit_step (st : editor) (i : edit_input) : edit_outcome :=
  match i with
  | EditKey key => edit_key st key
  | EditPointer now ev x y flags =>
      match _mouse_callback fl st now ev x y flags with
      | Ok (st, acts) => EditGoesOn st acts
      | Raise e => EditRaises e
      end
  end.

(** The loop on the keys and pointer events that arrive, in order.
    [None]: they ran out and the loop still waits. *)
Fixpoint edit_loop_with (st : editor) (acts : list ui_action)
    (inputs : list edit_input) : option (res (editor * list ui_action)) :=
  match inputs with
  | [] => None
  | i :: inputs =>
      match edit_step st i with
      | EditGoesOn st acts' => edit_loop_with st (acts ++ acts') inputs
      | EditReturns st acts' => Some (Ok (st, acts ++ acts'))
      | EditRaises e => Some (Raise e)
      end
  end.

(** [_edit_last_label()] on the keys and pointer events that arrive while
    it runs. *)
Definition _edit_last_label_with (st : editor) (inputs : list edit_input)
  : option (res (editor * list ui_action)) :=
  match last (circles st) with
  | None => Some (Ok (st, [PrintMsg MsgNothingToEdit]))
  | Some last_circle =>
      let current := label last_circle in
      let st := set_current_label st current in
      let st := set_label_input_mode st true in
      match self_center st with
      | None => Some (Raise TypeError)
      | Some _ =>
          edit_loop_with st
            [PrintMsg (MsgCurrentLabel current); UpdateDisplayWithInput]
            inputs
      end
  end.

End EditLoop.

(** The keys among the inputs of the loop. *)
Fixpoint keys_of (inputs : list edit_input) : list Z :=
  match inputs with
  | [] => []
  | EditKey key :: inputs => key :: keys_of inputs
  | EditPointer _ _ _ _ _ :: inputs => keys_of inputs
  end.

Definition is_edit_key (i : edit_input) : bool :=
  match i with
  | EditKey _ => true
  | EditPointer _ _ _ _ _ => false
  end.

(** ** The interaction state machine *)

Inductive istate := Idle | Drawing | LabelInput | Panning.

(** The state of the specification that the three flags encode; the order
    of the tests is the order in which the callbacks test the flags. *)
Definition interaction_state (st : editor) : istate :=
  if label_input_mode st then LabelInput
  else if is_panning st then Panning
  else if drawing st then Drawing
  else Idle.

Section Reachable.

Variable fl : Q -> Q.

(** States in which the loop of [run] waits for a key: those that pointer
    events and handled keys lead to from the initial state.  A label edit
    is one key here, with the keys that its loop reads; the states inside
    that loop, and the pointer events that arrive there, are those of
    [session_at] below. *)
Inductive reachable : editor -> Prop :=
| reach_init : reachable init_editor
| reach_mouse st now ev x y flags st' acts :
    reachable st ->
    _mouse_callback fl st now ev x y flags = Ok (st', acts) ->
    reachable st'
| reach_key st key sub st' acts :
    reachable st ->
    run_key st key sub = Handled st' acts ->
    reachable st'.

(** What arrives from the window system: a pointer event with the clock
    value read for it, or a key with the keys a nested loop reads. *)
Inductive event :=
| MouseEvent (now : Q) (ev : mouse_event) (x y flags : Z)
| KeyEvent (key : Z) (sub : list Z).

(** The editor after a series of events, as long as every one of them is
    handled. *)
Fixpoint play (st : editor) (events : list event) : option editor :=
  match events with
  | [] => Some st
  | MouseEvent now ev x y flags :: events =>
      match _mouse_callback fl st now ev x y flags with
      | Ok (st, _) => play st events
      | Raise _ => None
      end
  | KeyEvent key sub :: events =>
      match run_key st key sub with
      | Handled st _ => play st events
      | _ => None
      end
  end.

End Reachable.

(** ** Effect compositor *)

Inductive interpolation := INTER_NEAREST | INTER_LINEAR | INTER_AREA.
Inductive color_conversion := COLOR_BGR2GRAY | COLOR_GRAY2BGR.

(** The calls into OpenCV and NumPy that the compositor makes.  Each call
    that can raise returns [res]; [px] and [mask_at] read one element of an
    array and serve to state what the arrays hold. *)
Class Cv := {
  image : Type;
  mask : Type;
  pixel : Type;
  px : image -> Z -> Z -> pixel;
  mask_at : mask -> Z -> Z -> bool;
  (** [image.shape[:2]], as [(h, w)] *)
  shape : image -> Z * Z;
  (** [image.copy()] *)
  copy : image -> image;
  (** [np.zeros(image.shape[:2], dtype=np.uint8)] followed by
      [cv2.circle(mask, center, radius, 255, -1)] *)
  filled_circle_mask : image -> Z * Z -> Z -> res mask;
  (** [cv2.circle(image, center, radius, color, thickness)] *)
  cv2_circle : image -> Z * Z -> Z -> color -> Z -> res image;
  cv2_addWeighted : image -> Q -> image -> Q -> Q -> res image;
  np_full_like : image -> Z -> image;
  np_zeros_like : image -> image;
  cv2_GaussianBlur : image -> Z * Z -> Q -> res image;
  cv2_resize : image -> Z * Z -> interpolation -> res image;
  cv2_cvtColor : image -> color_conversion -> res image;
  cv2_bitwise_not : image -> res image;
  (** [np.where(mask[:, :, np.newaxis] == 255, a, b)] *)
  np_where : mask -> image -> image -> res image
}.

(** What NumPy documents of [np.where] on arrays of one shape. *)
Class CvLaws (cv : Cv) := {
  np_where_px : forall m a b r y x,
    np_where m a b = Ok r ->
    px r y x = if mask_at m y x then px a y x else px b y x
}.

(** The line that the handler of [_apply_effect] prints. *)
Inductive diagnostic :=
| EffectError (m : EditMode) (e : pyexn).

(** A computation that prints diagnostics and returns or raises. *)
Record comp (A : Type) := Comp {
  outcome : res A;
  printed : list diagnostic
}.
Arguments Comp {A} outcome printed.
Arguments outcome {A} c.
Arguments printed {A} c.

#[global] Instance comp_ret : MRet comp := fun A a => Comp (Ok a) [].
#[global] Instance comp_bind : MBind comp := fun A B k c =>
  match outcome c with
  | Ok a => Comp (outcome (k a)) (printed c ++ printed (k a))
  | Raise e => Comp (Raise e) (printed c)
  end.

Definition lift {A} (r : res A) : comp A := Comp r [].

(** [a // b] on integers *)
Definition floordiv (a b : Z) : res Z :=
  if b =? 0 then Raise ZeroDivisionError else Ok (a / b).

Section Compositor.

Variable fl : Q -> Q.
Context {cv : Cv}.

(** The fully transformed image of a mode, computed from the whole of
    [img]; [None] for the mode without a pixel transform. *)
Definition effect_transform (st : editor) (m : EditMode) (img : image)
  : res (option image) :=
  match m with
  | HIGHLIGHT =>
      highlighted ←
        cv2_addWeighted img (fsub fl (1 # 1) (highlight_alpha st))
          (np_full_like img 255) (highlight_alpha st) (0 # 1);
      Ok (Some highlighted)
  | BLUR =>
      blurred ←
        cv2_GaussianBlur img (blur_kernel st, blur_kernel st) (0 # 1);
      Ok (Some blurred)
  | PIXELATE =>
      let '(h, w) := shape img in
      qh ← floordiv h (pixelate_size st);
      let temp_h := Z.max 1 qh in
      qw ← floordiv w (pixelate_size st);
      let temp_w := Z.max 1 qw in
      temp ← cv2_resize img (temp_w, temp_h) INTER_NEAREST;
      pixelated ← cv2_resize temp (w, h) INTER_NEAREST;
      Ok (Some pixelated)
  | DARKEN =>
      darkened ←
        cv2_addWeighted img (1 # 2) (np_zeros_like img) (1 # 2) (0 # 1);
      Ok (Some darkened)
  | GRAYSCALE =>
      gray ← cv2_cvtColor img COLOR_BGR2GRAY;
      gray_bgr ← cv2_cvtColor gray COLOR_GRAY2BGR;
      Ok (Some gray_bgr)
  | INVERT =>
      inverted ← cv2_bitwise_not img;
      Ok (Some inverted)
  | OUTLINE => Ok None
  end.

(** The calls by which the branch of mode [m] in [_apply_effect] obtains
    the transformed image [t] from the image [img] that it is given; the
    mode [OUTLINE] has no branch. *)
Definition mode_transform (st : editor) (m : EditMode) (img t : image)
  : Prop :=
  match m with
  | HIGHLIGHT =>
      cv2_addWeighted img (fsub fl (1 # 1) (highlight_alpha st))
        (np_full_like img 255) (highlight_alpha st) (0 # 1) = Ok t
  | BLUR =>
      cv2_GaussianBlur img (blur_kernel st, blur_kernel st) (0 # 1) = Ok t
  | PIXELATE =>
      pixelate_size st <> 0 /\
      exists temp : image,
        cv2_resize img
          (Z.max 1 (snd (shape img) / pixelate_size st),
           Z.max 1 (fst (shape img) / pixelate_size st)) INTER_NEAREST
        = Ok temp /\
        cv2_resize temp (snd (shape img), fst (shape img)) INTER_NEAREST = Ok t
  | DARKEN =>
      cv2_addWeighted img (1 # 2) (np_zeros_like img) (1 # 2) (0 # 1) = Ok t
  | GRAYSCALE =>
      exists gray : image,
        cv2_cvtColor img COLOR_BGR2GRAY = Ok gray /\
        cv2_cvtColor gray COLOR_GRAY2BGR = Ok t
  | INVERT => cv2_bitwise_not img = Ok t
  | OUTLINE => False
  end.

(** The body of the [try] of [_apply_effect] after the mask is built. *)
Definition masked_effect (st : editor) (img : image) (mk : mask)
    (m : EditMode) : res image :=
  t ← effect_transform st m img;
  match t with
  | Some transformed => np_where mk transformed img
  | None => Ok img
  end.

(** [_apply_effect(image, circle)].  The handler prints [mode.value]; when
    the mask construction raised, [mode] is not yet bound and the handler
    itself raises. *)
Definition _apply_effect (st : editor) (img : image) (c : circle)
  : comp image :=
  match filled_circle_mask img (center c) (radius c) with
  | Raise _ => Comp (Raise UnboundLocalError) []
  | Ok mk =>
      let m := mode c in
      match masked_effect st img mk m with
      | Ok img' => Comp (Ok img') []
      | Raise e => Comp (Ok img) [EffectError m e]
      end
  end.

(** One turn of the loop of [_apply_all_effects]. *)
Definition composite_step (st : editor) (acc : image) (c : circle)
  : comp image :=
  img ← _apply_effect st acc c;
  lift (cv2_circle img (center c) (radius c) (mode_colors (mode c)) 2).

Fixpoint composite (st : editor) (acc : image) (cs : list circle)
  : comp image :=
  match cs with
  | [] => mret acc
  | c :: cs => acc' ← composite_step st acc c; composite st acc' cs
  end.

(** [_apply_all_effects()]: the new [self.output_image]. *)
Definition _apply_all_effects (st : editor) (scaled_image : image)
  : comp image :=
  composite st (copy scaled_image) (circles st).

End Compositor.

(** ** Label layout *)

(** A label rectangle [(x1, y1, x2, y2)]. *)
Definition rect : Type := Z * Z * Z * Z.

Fixpoint _check_label_collision (new_rect : rect) (existing_rects : list rect)
  : bool :=
  let '(x1, y1, x2, y2) := new_rect in
  match existing_rects with
  | [] => false
  | (ex1, ey1, ex2, ey2) :: existing_rects =>
      let buffer := 5 in
      if negb ((x2 + buffer <? ex1) || (x1 - buffer >? ex2)
               || (y2 + buffer <? ey1) || (y1 - buffer >? ey2))
      then true
      else _check_label_collision new_rect existing_rects
  end.

Section FindPosition.

Variables (center : Z * Z) (radius text_w text_h baseline padding : Z).
Variable image_size : Z * Z.
Variable existing_rects : list rect.

Definition total_width : Z := text_w + 2 * padding.
Definition total_height : Z := text_h + baseline + 2 * padding.

Definition attempts : list (Z * Z) :=
  let '(cx, cy) := center in
  [ (cx - radius, cy - radius - total_height - 10);
    (cx - radius, cy + radius + 20);
    (cx - radius - total_width - 10, cy - total_height / 2);
    (cx + radius + 10, cy - total_height / 2);
    (cx + radius + 10, cy - radius - total_height - 10);
    (cx - radius - total_width - 10, cy - radius - total_height - 10);
    (cx + radius + 10, cy + radius + 20);
    (cx - radius - total_width - 10, cy + radius + 20) ].

(** The positions [(pos_x, pos_y)] in the order in which the four nested
    loops visit them. *)
Definition candidate_positions : list (Z * Z) :=
  offset ← [0; 30; 60; 90; 120];
  '(base_x, base_y) ← attempts;
  dx ← [0; offset; - offset];
  dy ← [0; offset; - offset];
  [(base_x + dx, base_y + dy)].

Definition label_rect_at (pos_x label_y : Z) : rect :=
  (pos_x - padding, label_y - text_h - padding,
   pos_x + text_w + padding, label_y + baseline + padding).

(** The two tests of the innermost loop body. *)
Definition within_image (r : rect) : bool :=
  let '(img_h, img_w) := image_size in
  let '(x1, y1, x2, y2) := r in
  (padding <=? x1) && (padding <=? y1)
  && (x2 <=? img_w - padding) && (y2 <=? img_h - padding).

Definition candidate_fits (pos : Z * Z) : bool :=
  let '(pos_x, pos_y) := pos in
  let label_y := pos_y + text_h in
  let label_rect := label_rect_at pos_x label_y in
  within_image label_rect
  && negb (_check_label_collision label_rect existing_rects).

(** The loops: the first candidate that passes both tests, if any. *)
Definition search_position : option (Z * Z * rect) :=
  match List.find candidate_fits candidate_positions with
  | Some (pos_x, pos_y) =>
      let label_y := pos_y + text_h in
      Some (pos_x, label_y, label_rect_at pos_x label_y)
  | None => None
  end.

(** The code after the loops ("last resort"). *)
Definition last_resort : Z * Z * rect :=
  let '(img_h, img_w) := image_size in
  let pos_x := Z.max padding (Z.min (fst center) (img_w - total_width - padding)) in
  let pos_y := padding + text_h in
  let label_y := pos_y in
  (pos_x, label_y, label_rect_at pos_x label_y).

Definition _find_non_overlapping_position : Z * Z * rect :=
  match search_position with
  | Some found => found
  | None => last_resort
  end.

End FindPosition.

(** [s.upper()] and [s[:3]] *)
Definition upper_char (c : ascii) : ascii :=
  let n := N_of_ascii c in
  if ((97 <=? n) && (n <=? 122))%N then ascii_of_N (n - 32) else c.

Fixpoint upper (s : string) : string :=
  match s with
  | EmptyString => EmptyString
  | String c s' => String (upper_char c) (upper s')
  end.

Definition first3 (s : string) : string := substring 0 3 s.

(** [str(n)] for a position in the store *)
Definition str_of_nat (n : nat) : string :=
  NilZero.string_of_uint (Nat.to_uint n).

(** What [_draw_all_labels_smart] draws for one region: the background and
    border rectangle, the text at its origin, and the connector line. *)
Record label_drawing := LabelDrawing {
  ld_index : nat;
  ld_text : string;
  ld_origin : Z * Z;
  ld_rect : rect;
  ld_line : (Z * Z) * (Z * Z);
  ld_color : color
}.

Section LabelLayout.

Variable fl : Q -> Q.

(** [cv2.getTextSize(text, font, scale, thickness)], as
    [((text_w, text_h), baseline)] *)
Variable getTextSize : string -> Q -> Z -> (Z * Z) * Z.

Definition _get_dynamic_label_params (image_size : Z * Z) : Q * Z :=
  let '(h, w) := image_size in
  let min_dimension := Z.min h w in
  if min_dimension <? 200 then (fl (3 # 10), 1)
  else if min_dimension <? 400 then (fl (4 # 10), 1)
  else if min_dimension <? 800 then (1 # 2, 2)
  else (fl (6 # 10), 2).

Definition full_label_of (idx : nat) (c : circle) : string :=
  let mode_short := upper (first3 (value (mode c))) in
  "#" +:+ str_of_nat idx +:+ " [" +:+ mode_short +:+ "] " +:+ label c.

(** [padding = max(2, int(4 * label_scale / 0.5))] *)
Definition label_padding (label_scale : Q) : Z :=
  Z.max 2 (py_int (fl (fmul fl (float_of_int fl 4) label_scale / (1 # 2)))).

(** The body of the loop over [enumerate(self.circles, 1)]; the result is
    the drawings made, in order.  [existing_rects] grows by the rectangle
    of each label drawn. *)
Fixpoint draw_labels_from (idx : nat) (cs : list circle)
    (image_size : Z * Z) (label_scale : Q) (label_thickness : Z)
    (existing_rects : list rect) : list label_drawing :=
  match cs with
  | [] => []
  | c :: cs =>
      if negb (nonempty (label c))
      then draw_labels_from (S idx) cs image_size label_scale
             label_thickness existing_rects
      else
        let full_label := full_label_of idx c in
        let '((text_w, text_h), baseline) :=
          getTextSize full_label label_scale label_thickness in
        let padding := label_padding label_scale in
        let '(label_x, label_y, label_rect) :=
          _find_non_overlapping_position (center c) (radius c) text_w text_h
            baseline padding image_size existing_rects in
        let line_start := (label_x + text_w / 2, label_y + baseline + padding) in
        LabelDrawing idx full_label (label_x, label_y) label_rect
          (line_start, center c) (mode_colors (mode c))
        :: draw_labels_from (S idx) cs image_size label_scale
             label_thickness (existing_rects ++ [label_rect])
  end.

(** For each label drawn by [draw_labels_from], in the same order: whether
    the loops of [_find_non_overlapping_position] found its position
    ([true]) or the code after the loops chose it ([false]). *)
Fixpoint found_by_search_from (idx : nat) (cs : list circle)
    (image_size : Z * Z) (label_scale : Q) (label_thickness : Z)
    (existing_rects : list rect) : list bool :=
  match cs with
  | [] => []
  | c :: cs =>
      if negb (nonempty (label c))
      then found_by_search_from (S idx) cs image_size label_scale
             label_thickness existing_rects
      else
        let full_label := full_label_of idx c in
        let '((text_w, text_h), baseline) :=
          getTextSize full_label label_scale label_thickness in
        let padding := label_padding label_scale in
        let '(_, _, label_rect) :=
          _find_non_overlapping_position (center c) (radius c) text_w text_h
            baseline padding image_size existing_rects in
        bool_decide
          (is_Some (search_position (center c) (radius c) text_w text_h
                      baseline padding image_size existing_rects))
        :: found_by_search_from (S idx) cs image_size label_scale
             label_thickness (existing_rects ++ [label_rect])
  end.

(** [_draw_all_labels_smart(image)] for an image of shape [image_size]:
    the label drawings made on it, in order. *)
Definition _draw_all_labels_smart (st : editor) (image_size : Z * Z)
  : list label_drawing :=
  if negb (show_labels st) then []
  else
    let '(label_scale, label_thickness) :=
      _get_dynamic_label_params image_size in
    draw_labels_from 1 (circles st) image_size label_scale label_thickness [].

Definition found_by_search (st : editor) (image_size : Z * Z) : list bool :=
  if negb (show_labels st) then []
  else
    let '(label_scale, label_thickness) :=
      _get_dynamic_label_params image_size in
    found_by_search_from 1 (circles st) image_size label_scale
      label_thickness [].

End LabelLayout.

(** Two rectangles that the collision test tells apart: on some axis one
    ends more than the buffer of 5 before the other begins. *)
Definition rects_apart (a b : rect) : Prop :=
  let '(x1, y1, x2, y2) := a in
  let '(ex1, ey1, ex2, ey2) := b in
  x2 + 5 < ex1 \/ ex2 < x1 - 5 \/ y2 + 5 < ey1 \/ ey2 < y1 - 5.

(** Two rectangles that share a point. *)
Definition rects_overlap (a b : rect) : Prop :=
  let '(x1, y1, x2, y2) := a in
  let '(ex1, ey1, ex2, ey2) := b in
  x1 <= ex2 /\ ex1 <= x2 /\ y1 <= ey2 /\ ey1 <= y2.

Definition rect_area (a : rect) : Z :=
  let '(x1, y1, x2, y2) := a in (x2 - x1) * (y2 - y1).

(** ** Region export and import *)

(** The values that [json.load] returns.  The text of the file is not
    modelled: what [json.dump] writes is what [json.load] reads back. *)
#[warnings="-register-all"]
Inductive json :=
| JNull
| JBool (b : bool)
| JInt (z : Z)
| JFloat (q : Q)
| JStr (s : string)
| JList (l : list json)
| JDict (d : gmap string json).

(** The record that [save_current] appends to ['objects'] for the region
    at position [idx]: its keys and values, and the dict. *)
Definition export_fields (idx : nat) (c : circle) : gmap string json :=
  <["id" := JInt (Z.of_nat idx)]>
    (<["label" := JStr (label c)]>
    (<["mode" := JStr (value (mode c))]>
    (<["center" := JList [JInt (fst (center c)); JInt (snd (center c))]]>
    (<["radius" := JInt (radius c)]> ∅)))).

Definition export_record (idx : nat) (c : circle) : json :=
  JDict (export_fields idx c).

Fixpoint export_records_from (idx : nat) (cs : list circle) : list json :=
  match cs with
  | [] => []
  | c :: cs => export_record idx c :: export_records_from (S idx) cs
  end.

(** [labels_data] of [save_current] *)
Definition labels_data (source_image timestamp : string) (cs : list circle)
  : json :=
  JDict (<["source_image" := JStr source_image]>
         (<["timestamp" := JStr timestamp]>
         (<["objects" := JList (export_records_from 1 cs)]> ∅))).

(** [EditMode(v)]: the member whose value is [v], or [ValueError]. *)
Definition EditMode_of_value (v : json) : res EditMode :=
  match v with
  | JStr s =>
      match List.find (fun m => String.eqb (value m) s) EditMode_members with
      | Some m => Ok m
      | None => Raise ValueError
      end
  | _ => Raise ValueError
  end.

(** [d.get(key, default)] *)
Definition py_get (v : json) (key : string) (dflt : json) : res json :=
  match v with
  | JDict d => Ok (default dflt (d !! key))
  | _ => Raise AttributeError
  end.

(** [d[key]] for a string key: a dict without the key raises [KeyError],
    a list or a string rejects the string index, the other values are not
    subscriptable. *)
Definition py_getitem (v : json) (key : string) : res json :=
  match v with
  | JDict d =>
      match d !! key with
      | Some x => Ok x
      | None => Raise KeyError
      end
  | _ => Raise TypeError
  end.

Fixpoint chars (s : string) : list json :=
  match s with
  | EmptyString => []
  | String c s' => JStr (String c EmptyString) :: chars s'
  end.

(** The items that iterating over a value yields, as [for] and [tuple]
    see them.  A dict yields its keys; their order is that of the map, not
    the order of insertion. *)
Definition py_iter (v : json) : res (list json) :=
  match v with
  | JList l => Ok l
  | JStr s => Ok (chars s)
  | JDict d => Ok (JStr <$> (map_to_list d).*1)
  | _ => Raise TypeError
  end.

(** A region as the loader stores it: the mode is an [EditMode], the other
    three values are whatever the file held. *)
Record loaded_circle := LoadedCircle {
  l_center : list json;
  l_radius : json;
  l_mode : EditMode;
  l_label : json
}.

(** A committed region seen as a loaded one, and back when the values have
    the types of a committed region. *)
Definition loaded_of_circle (c : circle) : loaded_circle :=
  {| l_center := [JInt (fst (center c)); JInt (snd (center c))];
     l_radius := JInt (radius c);
     l_mode := mode c;
     l_label := JStr (label c) |}.

Definition circle_of_loaded (l : loaded_circle) : option circle :=
  match l_center l, l_radius l, l_label l with
  | [JInt x; JInt y], JInt r, JStr s =>
      Some {| center := (x, y); radius := r; mode := l_mode l; label := s |}
  | _, _, _ => None
  end.

(** The body of the loop over [data.get('objects', [])] in
    [_load_current_image]. *)
Definition load_object (obj : json) : res loaded_circle :=
  mode_value ← py_get obj "mode" (JStr "highlight");
  let m :=
    match EditMode_of_value mode_value with
    | Ok m => m
    | Raise _ => HIGHLIGHT
    end in
  c ← py_getitem obj "center";
  c ← py_iter c;
  r ← py_getitem obj "radius";
  l ← py_get obj "label" (JStr "");
  Ok {| l_center := c; l_radius := r; l_mode := m; l_label := l |}.

Fixpoint load_objects (objs : list json) : res (list loaded_circle) :=
  match objs with
  | [] => Ok []
  | obj :: objs =>
      c ← load_object obj;
      cs ← load_objects objs;
      Ok (c :: cs)
  end.

Inductive load_message :=
| MsgRestored (n : nat)
| MsgJsonError (e : pyexn).

(** The [try] that restores the regions from the parsed file [data]: the
    new [self.circles] and the line printed.  Any exception empties the
    store. *)
Definition restore_circles (data : json) : list loaded_circle * load_message :=
  match (objects ← py_get data "objects" (JList []);
         objs ← py_iter objects;
         load_objects objs) with
  | Ok cs => (cs, MsgRestored (length cs))
  | Raise e => ([], MsgJsonError e)
  end.

(** ** A raster instance of the imaging interface

    Images are grids of BGR pixels, masks grids of booleans.  The
    pointwise operations follow OpenCV on 8-bit channels, in exact
    arithmetic; the disc, the ring and the mean filter are plain
    rasterisations that stand for the OpenCV ones, and the resize samples
    the nearest pixel whatever interpolation is asked for, so that with
    [INTER_LINEAR] or [INTER_AREA] it has the shape of OpenCV's result
    and not its pixel values.  The instance serves to run the compositor
    on concrete inputs. *)

Definition grid : Type := list (list color).
Definition bitmap : Type := list (list bool).

Definition black : color := (0, 0, 0).

Definition grid_px (g : grid) (y x : Z) : color :=
  if (y <? 0) || (x <? 0) then black
  else default black (row ← g !! Z.to_nat y; row !! Z.to_nat x).

Definition bitmap_at (m : bitmap) (y x : Z) : bool :=
  if (y <? 0) || (x <? 0) then false
  else default false (row ← m !! Z.to_nat y; row !! Z.to_nat x).

Definition grid_shape (g : grid) : Z * Z :=
  (Z.of_nat (length g), Z.of_nat (length (default [] (head g)))).

(** A grid of the shape of [g] whose element at [(y, x)] is [f y x p] for
    the pixel [p] of [g] there. *)
Definition grid_imap {A} (f : Z -> Z -> color -> A) (g : grid)
  : list (list A) :=
  imap (fun y row => imap (fun x p => f (Z.of_nat y) (Z.of_nat x) p) row) g.

Definition on_channels (f : Z -> Z) (p : color) : color :=
  let '(b, g, r) := p in (f b, f g, f r).

Definition saturate (v : Z) : Z := Z.max 0 (Z.min 255 v).

(** Rounding to the nearest integer with a tie going up, and with a tie
    going to the even neighbour, as [cv2.addWeighted] stores a sum. *)
Definition round_half_up (q : Q) : Z := Qfloor (q + (1 # 2)).

Definition round_half_even (q : Q) : Z :=
  let f := Qfloor q in
  match (q - inject_Z f ?= 1 # 2)%Q with
  | Lt => f
  | Gt => f + 1
  | Eq => if Z.even f then f else f + 1
  end.

Definition dist2 (c : Z * Z) (y x : Z) : Z :=
  (x - fst c) ^ 2 + (y - snd c) ^ 2.

Definition grid_filled_circle_mask (g : grid) (c : Z * Z) (r : Z)
  : res bitmap :=
  if r <? 0 then Raise cv2_error
  else Ok (grid_imap (fun y x _ => dist2 c y x <=? r ^ 2) g).

Definition grid_circle (g : grid) (c : Z * Z) (r : Z) (col : color)
    (thickness : Z) : res grid :=
  if (r <? 0) || (thickness <=? 0) then Raise cv2_error
  else
    let inner := Z.max 0 (r - thickness / 2) in
    let outer := r + thickness / 2 in
    Ok (grid_imap
          (fun y x p =>
             if (inner ^ 2 <=? dist2 c y x) && (dist2 c y x <=? outer ^ 2)
             then col else p) g).

Definition same_shape {A B} (a : list (list A)) (b : list (list B)) : bool :=
  (length a =? length b)%nat
  && forallb (fun rows => (length rows.1 =? length rows.2)%nat) (zip a b).

Definition grid_addWeighted (a : grid) (alpha : Q) (b : grid) (beta gamma : Q)
  : res grid :=
  if same_shape a b then
    Ok (zip_with
          (zip_with
             (fun '(b1, g1, r1) '(b2, g2, r2) =>
                let mix u v :=
                  saturate
                    (round_half_even
                       (inject_Z u * alpha + inject_Z v * beta + gamma)) in
                (mix b1 b2, mix g1 g2, mix r1 r2)))
          a b)
  else Raise cv2_error.

Definition grid_full_like (g : grid) (v : Z) : grid :=
  grid_imap (fun _ _ _ => (v, v, v)) g.

Definition sum_channels (ps : list color) : color :=
  foldr (fun '(b, g, r) '(sb, sg, sr) => (sb + b, sg + g, sr + r)) black ps.

(** The mean over the [k] by [k] window around each pixel, clipped to the
    image; an even or non-positive [k] is rejected as OpenCV rejects it. *)
Definition grid_blur (g : grid) (ksize : Z * Z) (sigma : Q) : res grid :=
  let '(kw, kh) := ksize in
  if (kw <=? 0) || (kh <=? 0) || (kw mod 2 =? 0) || (kh mod 2 =? 0)
  then Raise cv2_error
  else
    let '(h, w) := grid_shape g in
    Ok (grid_imap
          (fun y x _ =>
             let ys := filter (fun v => 0 <= v < h) (seqZ (y - kh / 2) kh) in
             let xs := filter (fun v => 0 <= v < w) (seqZ (x - kw / 2) kw) in
             let window := v ← ys; u ← xs; [grid_px g v u] in
             let n := Z.of_nat (length window) in
             on_channels (fun s => s / n) (sum_channels window)) g).

(** The pixel of the source at the scaled position, for every
    interpolation. *)
Definition grid_resize (g : grid) (dsize : Z * Z) (i : interpolation)
  : res grid :=
  let '(new_w, new_h) := dsize in
  let '(h, w) := grid_shape g in
  if (new_w <=? 0) || (new_h <=? 0) || (h <=? 0) || (w <=? 0)
  then Raise cv2_error
  else
    Ok ((fun y => (fun x => grid_px g (y * h / new_h) (x * w / new_w))
                    <$> seqZ 0 new_w)
          <$> seqZ 0 new_h).

Definition grid_cvtColor (g : grid) (code : color_conversion) : res grid :=
  match code with
  | COLOR_BGR2GRAY =>
      Ok (grid_imap
            (fun _ _ '(b, g, r) =>
               let y :=
                 round_half_up
                   (inject_Z b * (114 # 1000) + inject_Z g * (587 # 1000)
                    + inject_Z r * (299 # 1000)) in
               (y, y, y)) g)
  | COLOR_GRAY2BGR => Ok g
  end.

Definition grid_bitwise_not (g : grid) : res grid :=
  Ok (grid_imap (fun _ _ p => on_channels (fun v => 255 - v) p) g).

(** Elementwise choice between two grids of one shape. *)
Definition select {A} (m : list (list bool)) (a b : list (list A))
  : list (list A) :=
  zip_with
    (fun mrow ab =>
       zip_with (fun (t : bool) (pq : A * A) => if t then pq.1 else pq.2)
         mrow (zip ab.1 ab.2))
    m (zip a b).

Definition grid_where (m : bitmap) (a b : grid) : res grid :=
  if same_shape m a && same_shape m b then Ok (select m a b)
  else Raise ValueError.

#[global] Instance grid_cv : Cv := {|
  image := grid;
  mask := bitmap;
  pixel := color;
  px := grid_px;
  mask_at := bitmap_at;
  shape := grid_shape;
  copy := fun g => g;
  filled_circle_mask := grid_filled_circle_mask;
  cv2_circle := grid_circle;
  cv2_addWeighted := grid_addWeighted;
  np_full_like := grid_full_like;
  np_zeros_like := fun g => grid_full_like g 0;
  cv2_GaussianBlur := grid_blur;
  cv2_resize := grid_resize;
  cv2_cvtColor := grid_cvtColor;
  cv2_bitwise_not := grid_bitwise_not;
  np_where := grid_where
|}.


(** A record that holds ['center'], with a value that [tuple] accepts, and
    ['radius']. *)
Definition has_geometry (d : gmap string json) : Prop :=
  exists (c r : json) (items : list json),
    d !! "center" = Some c /\ py_iter c = Ok items /\ d !! "radius" = Some r.


(** ** Concrete inputs

    The values on which the examples below run the embedding. *)

(** Float arithmetic without rounding. *)
Definition fl_exact (q : Q) : Q := q.

(** Text metrics of a fixed-pitch font: ten pixels a character, twelve
    high, baseline five. *)
Definition fixed_pitch (text : string) (scale : Q) (thickness : Z)
  : (Z * Z) * Z :=
  ((10 * Z.of_nat (String.length text), 12), 5).

(** A uniform image of 15 rows and 17 columns. *)
Definition sample_image : grid := replicate 15 (replicate 17 (10, 20, 30)).

Definition left_invert : circle :=
  {| center := (5, 7); radius := 5; mode := INVERT; label := "left" |}.
Definition right_invert : circle :=
  {| center := (11, 7); radius := 5; mode := INVERT; label := "right" |}.
Definition pixelate_region : circle :=
  {| center := (4, 4); radius := 3; mode := PIXELATE; label := "plate" |}.

Definition overlap_editor : editor :=
  set_circles init_editor [left_invert; right_invert].

(** An editor whose block factor was set to zero past the setter. *)
Definition zero_block_editor : editor :=
  set_circles (set_pixelate_size init_editor 0) [pixelate_region; right_invert].

(** The mask of [pixelate_region] on the sample image, and the sample
    image with the outline of that region. *)
Definition disc_mask : bitmap :=
  match filled_circle_mask sample_image (4, 4) 3 with
  | Ok m => m
  | Raise _ => []
  end.

Definition outlined_sample : grid :=
  match cv2_circle sample_image (4, 4) 3 (mode_colors PIXELATE) 2 with
  | Ok g => g
  | Raise _ => []
  end.

(** The value of a call that returned. *)
Definition returned {A} (dflt : A) (r : res A) : A :=
  match r with
  | Ok a => a
  | Raise _ => dflt
  end.

(** The stages of the redraw of [overlap_editor] on the sample image,
    call by call: the image after the left region (inverted inside its
    disc, then outlined), the mask of the right region, the inversion of
    the image after the left region, the blend of the two behind that
    mask, and the blend with the outline of the right region. *)
Definition after_left : grid :=
  let mk := returned [] (grid_filled_circle_mask sample_image (5, 7) 5) in
  let inverted := returned [] (grid_bitwise_not sample_image) in
  let blended := returned [] (grid_where mk inverted sample_image) in
  returned [] (grid_circle blended (5, 7) 5 (mode_colors INVERT) 2).

Definition right_mask : bitmap :=
  returned [] (grid_filled_circle_mask after_left (11, 7) 5).

Definition after_left_inverted : grid :=
  returned [] (grid_bitwise_not after_left).

Definition right_blended : grid :=
  returned [] (grid_where right_mask after_left_inverted after_left).

Definition after_right : grid :=
  returned [] (grid_circle right_blended (11, 7) 5 (mode_colors INVERT) 2).

(** A region with a radius of -1, the record of a file of regions that
    holds it, and a store that begins with it. *)
Definition negative_radius_region : circle :=
  {| center := (4, 4); radius := -1; mode := BLUR; label := "" |}.

Definition record_with_negative_radius : gmap string json :=
  <["label" := JStr ""]>
    (<["mode" := JStr "blur"]>
    (<["center" := JList [JInt 4; JInt 4]]>
    (<["radius" := JInt (-1)]> ∅))).

Definition file_with_negative_radius : json :=
  JDict (<["objects" :=
            JList [JDict record_with_negative_radius;
                   export_record 2 left_invert]]> ∅).

Definition negative_radius_editor : editor :=
  set_circles init_editor [negative_radius_region; left_invert].

(** The editor after a press of the primary button at [(10, 10)]. *)
Definition drawing_editor : editor :=
  set_current_radius
    (set_center (set_drawing init_editor true) (Some (10, 10))) 0.

(** The events of a session: Blur mode, a drag from [(100, 100)] to
    [(150, 100)], the label "face" and Enter, then a second press of the
    primary button at [(10, 10)]. *)
Definition face_then_press : list event :=
  [ KeyEvent (ord "2") [];
    MouseEvent (0 # 1) EVENT_LBUTTONDOWN 100 100 0;
    MouseEvent (0 # 1) EVENT_MOUSEMOVE 150 100 0;
    MouseEvent (0 # 1) EVENT_LBUTTONUP 150 100 0;
    KeyEvent (ord "f") []; KeyEvent (ord "a") []; KeyEvent (ord "c") [];
    KeyEvent (ord "e") []; KeyEvent 13 [];
    MouseEvent (0 # 1) EVENT_LBUTTONDOWN 10 10 0 ].

(** The editor in label input after a drag from [(100, 100)] to
    [(150, 100)] in Blur mode, with a buffer typed so far. *)
Definition typing_editor (buffer : string) : editor :=
  set_current_label
    (set_label_input_mode
       (set_current_radius
          (set_center (set_current_mode init_editor BLUR) (Some (100, 100)))
          50)
       true)
    buffer.

Definition face_region : circle :=
  {| center := (100, 100); radius := 50; mode := BLUR; label := "face" |}.

(** The editor at the end of [face_then_press]: one region in the store
    and a drag under way. *)
Definition busy_editor : editor :=
  set_circles (set_current_mode drawing_editor BLUR) [face_region].

Definition labelled_editor : editor :=
  set_circles init_editor
    [ {| center := (300, 300); radius := 50; mode := BLUR; label := "face" |};
      {| center := (320, 300); radius := 50; mode := HIGHLIGHT; label := "" |};
      {| center := (310, 305); radius := 60; mode := INVERT; label := "cat" |} ].

(** [labelled_editor] as the drag of its last region leaves it, with the
    centre and the radius of that drag on record. *)
Definition relabel_editor : editor :=
  set_current_radius (set_center labelled_editor (Some (310, 305))) 60.

(** What arrives during a label edit: two backspaces, a wheel step up at
    [(200, 200)], the keys of "ow " and Enter. *)
Definition relabel_inputs : list edit_input :=
  [ EditKey 8; EditKey 8; EditPointer (100 # 1) EVENT_MOUSEWHEEL 200 200 1;
    EditKey (ord "o"); EditKey (ord "w"); EditKey (ord " "); EditKey 13 ].

(** What the layout draws for the third region of [labelled_editor] with
    the fixed-pitch metrics. *)
Definition cat_drawing : label_drawing :=
  {| ld_index := 3; ld_text := "#3 [INV] cat"; ld_origin := (250, 397);
     ld_rect := (246, 381, 374, 406); ld_line := ((310, 406), (310, 305));
     ld_color := (255, 255, 0) |}.

(** Two regions drawn at half zoom around the centre of a 1400 by 900
    image, each reaching far past its borders. *)
Definition oversized_editor : editor :=
  set_circles init_editor
    [ {| center := (700, 450); radius := 1500; mode := BLUR; label := "a" |};
      {| center := (700, 450); radius := 1500; mode := HIGHLIGHT;
         label := "b" |} ].

Definition working_size : Z * Z := (900, 1400).

(** A file with a well-formed record followed by one without ['radius']. *)
Definition record_without_radius : gmap string json :=
  <["label" := JStr "x"]>
    (<["mode" := JStr "blur"]>
    (<["center" := JList [JInt 5; JInt 6]]> ∅)).

Definition record_with_odd_mode : gmap string json :=
  <["mode" := JStr "sepia"]>
    (<["center" := JList [JInt 5; JInt 6]]>
    (<["radius" := JInt 7]> ∅)).

Definition file_with_odd_mode : gmap string json :=
  <["objects" :=
      JList (JDict <$> [export_fields 1 face_region; record_with_odd_mode])]> ∅.

Definition file_without_radius : gmap string json :=
  <["objects" :=
      JList (JDict <$> [export_fields 1 face_region; record_without_radius])]> ∅.

(** ** Notions for the interaction properties *)

(** The characters that the key loop appends to a label: codes 32 to
    126. *)
Definition printable_char (c : ascii) : bool :=
  let n := ord c in (32 <=? n) && (n <=? 126).

Fixpoint printable (s : string) : bool :=
  match s with
  | EmptyString => true
  | String c s' => printable_char c && printable s'
  end.

(** The text that a series of printable keys spells. *)
Fixpoint text_of_keys (keys : list Z) : string :=
  match keys with
  | [] => EmptyString
  | key :: keys => String (chr key) (text_of_keys keys)
  end.

Definition printable_key (key : Z) : bool := (32 <=? key) && (key <=? 126).

(** A label as [strip] leaves it: no whitespace at either end. *)
Definition stripped (s : string) : Prop :=
  (forall c, first_char s = Some c -> isspace c = false) /\
  (forall c, last_char s = Some c -> isspace c = false).

(** Where a region lies and what it does, its label apart. *)
Definition geometry (c : circle) : (Z * Z) * Z * EditMode :=
  (center c, radius c, mode c).

(** What a successful [_load_current_image] does to the interaction
    state: the zoom and the pan are reset, the store becomes the regions
    [regions] found for the file, and the input state is reset.  The centre
    and the radius of the last drag stay. *)
Definition load_editor (st : editor) (regions : list circle) : editor :=
  let st := set_zoom_level st (1 # 1) in
  let st := set_pan st 0 0 in
  let st := set_circles st regions in
  let st := set_drawing st false in
  let st := set_label_input_mode st false in
  set_current_label st "".

Section Session.

Variable fl : Q -> Q.

(** The states of a session in which the loop of [run] waits for a key:
    pointer events, handled keys, and loads of images whose files hold
    regions of the types that the editor writes.  As in [reachable], a
    label edit is one key. *)
Inductive session : editor -> Prop :=
| session_init : session init_editor
| session_mouse st now ev x y flags st' acts :
    session st ->
    _mouse_callback fl st now ev x y flags = Ok (st', acts) ->
    session st'
| session_key st key sub st' acts :
    session st ->
    run_key st key sub = Handled st' acts ->
    session st'
| session_load st regions :
    session st ->
    session (load_editor st regions).

(** The loop in which the editor waits for a key: that of [run], or that
    of [_edit_last_label]. *)
Inductive wait := InRun | InEdit.

(** The states of a session event by event, each with the loop that waits
    in it.  A pointer event is served in either loop.  In the loop of
    [run] a key is handled, or it is [e] on a store that is not empty with
    a centre on record, which opens the loop of [_edit_last_label]; there
    a key goes on with the loop or returns to [run].  Images are loaded
    from the loop of [run]. *)
Inductive session_at : wait -> editor -> Prop :=
| at_init : session_at InRun init_editor
| at_load st regions :
    session_at InRun st ->
    session_at InRun (load_editor st regions)
| at_pointer w st now ev x y flags st' acts :
    session_at w st ->
    _mouse_callback fl st now ev x y flags = Ok (st', acts) ->
    session_at w st'
| at_key st key st' acts :
    session_at InRun st ->
    run_key st key [] = Handled st' acts ->
    session_at InRun st'
| at_edit_opens st key last_circle :
    session_at InRun st ->
    key_command st key = CmdEditLast ->
    last (circles st) = Some last_circle ->
    self_center st <> None ->
    session_at InEdit
      (set_label_input_mode (set_current_label st (label last_circle)) true)
| at_edit_goes_on st key st' acts :
    session_at InEdit st ->
    edit_key st key = EditGoesOn st' acts ->
    session_at InEdit st'
| at_edit_returns st key st' acts :
    session_at InEdit st ->
    edit_key st key = EditReturns st' acts ->
    session_at InRun st'.

End Session.

(** The squared distance whose root a move of the pointer takes during a
    drag: from the centre of the drag to the image point under the
    pointer. *)
Definition drag_distance2 (fl : Q -> Q) (st : editor) (x y : Z) : option Z :=
  match _screen_to_image_coords fl st x y, self_center st with
  | Ok (img_x, img_y), Some (cx, cy) =>
      Some ((img_x - cx) ^ 2 + (img_y - cy) ^ 2)
  | _, _ => None
  end.

(** Two editors that differ in the view at most: the zoom, the pan, the
    pan gesture and the time of the last zoom. *)
Definition same_but_view (st st' : editor) : Prop :=
  circles st' = circles st /\ drawing st' = drawing st /\
  self_center st' = self_center st /\
  current_radius st' = current_radius st /\
  current_label st' = current_label st /\
  label_input_mode st' = label_input_mode st /\
  min_zoom st' = min_zoom st /\ max_zoom st' = max_zoom st /\
  current_mode st' = current_mode st /\
  _blur_kernel st' = _blur_kernel st /\
  _pixelate_size st' = _pixelate_size st /\
  highlight_alpha st' = highlight_alpha st /\
  show_labels st' = show_labels st.

(** What holds of the flags and the viewport between any two events of a
    session. *)
Record flags_invariant (st : editor) : Prop := {
  inv_min_zoom : min_zoom st = 1 # 2;
  inv_max_zoom : max_zoom st = 10 # 1;
  inv_zoom : ((1 # 2) <= zoom_level st)%Q /\ (zoom_level st <= 10 # 1)%Q;
  inv_drawing : drawing st = true -> self_center st <> None;
  inv_label_input :
    label_input_mode st = true ->
    drawing st = false /\ 5 < current_radius st /\ self_center st <> None
}.

(** A region as a gesture and the label keys make it. *)
Definition well_formed (c : circle) : Prop :=
  5 < radius c /\ printable (label c) = true /\ stripped (label c).

(** What holds of the buffer and the store as long as no image is
    loaded. *)
Record store_invariant (st : editor) : Prop := {
  inv_buffer : printable (current_label st) = true;
  inv_regions : Forall well_formed (circles st);
  inv_centre : circles st <> [] -> self_center st <> None
}.

(** What holds of the flags and the viewport inside the loop of
    [_edit_last_label]. *)
Record edit_invariant (st : editor) : Prop := {
  edit_min_zoom : min_zoom st = 1 # 2;
  edit_max_zoom : max_zoom st = 10 # 1;
  edit_zoom : ((1 # 2) <= zoom_level st)%Q /\ (zoom_level st <= 10 # 1)%Q;
  edit_label_input : label_input_mode st = true;
  edit_centre : self_center st <> None;
  edit_store : circles st <> []
}.

(** ** The cache of region stores

    [image_states] maps a file name to the regions that [save_current]
    recorded for it; [state_access_order] lists the names from the least to
    the most recently used. *)

Definition MAX_CACHED_STATES : nat := 5.
Definition MEMORY_EFFICIENT_MODE : bool := true.

Record state_cache := StateCache {
  image_states : gmap string (list circle);
  state_access_order : list string
}.

(** The cache that [__init__] builds. *)
Definition empty_cache : state_cache := StateCache ∅ [].

(** [l.remove(x)] for an [x] that is in [l]: the first occurrence goes. *)
Fixpoint list_remove (x : string) (l : list string) : list string :=
  match l with
  | [] => []
  | y :: l => if bool_decide (y = x) then l else y :: list_remove x l
  end.

Definition _update_state_access (c : state_cache) (filename : string)
  : state_cache :=
  let order := state_access_order c in
  let order :=
    if bool_decide (filename ∈ order) then list_remove filename order
    else order in
  StateCache (image_states c) (order ++ [filename]).

(** The loop [for filename in states_to_remove]. *)
Fixpoint delete_states (states : gmap string (list circle))
    (states_to_remove : list string) : gmap string (list circle) :=
  match states_to_remove with
  | [] => states
  | filename :: rest =>
      delete_states
        (if bool_decide (is_Some (states !! filename))
         then delete filename states else states)
        rest
  end.

Definition _cleanup_old_states (c : state_cache) : state_cache :=
  if negb MEMORY_EFFICIENT_MODE then c
  else
    let order := state_access_order c in
    if (MAX_CACHED_STATES <? length order)%nat then
      (* [order[:-5]] and [order[-5:]] of a list longer than five *)
      let states_to_remove := take (length order - MAX_CACHED_STATES) order in
      StateCache (delete_states (image_states c) states_to_remove)
        (drop (length order - MAX_CACHED_STATES) order)
    else c.

(** What [save_current] does to the cache for a non-empty store
    [regions] of the file [name]: it records the store, marks the file as
    used and, when the [try] block got as far as its last statement
    ([written]), evicts the old states. *)
Definition save_current_cache (c : state_cache) (name : string)
    (regions : list circle) (written : bool) : state_cache :=
  let c := StateCache (<[name := regions]> (image_states c))
             (state_access_order c) in
  let c := _update_state_access c name in
  if written then _cleanup_old_states c else c.

(** What reaches the cache in a session: a save of a non-empty store,
    which got to the end of its [try] block or not, and a load that found
    the regions of the file on disk or in the cache. *)
Inductive cache_event :=
| CacheSave (name : string) (regions : list circle) (written : bool)
| CacheLoad (name : string).

Definition cache_step (c : state_cache) (e : cache_event) : state_cache :=
  match e with
  | CacheSave name regions written => save_current_cache c name regions written
  | CacheLoad name => _update_state_access c name
  end.

Definition cache_run (events : list cache_event) : state_cache :=
  foldl cache_step empty_cache events.

(** The invariant of the cache: no name is listed twice, and every state
    held belongs to a listed name. *)
Definition cache_invariant (c : state_cache) : Prop :=
  NoDup (state_access_order c) /\
  forall f, is_Some (image_states c !! f) -> f ∈ state_access_order c.

(** ** Display geometry *)

Section DisplayGeometry.

Variable fl : Q -> Q.

(** [_get_dynamic_ui_height(image_height)] *)
Definition _get_dynamic_ui_height (image_height : Z) : Z :=
  let max_ui_ratio := fl (15 # 100) in
  let default_ui_height := 100 in
  let min_ui_height := 30 in
  let scaled_height :=
    py_int (fmul fl (float_of_int fl image_height) max_ui_ratio) in
  let ui_height :=
    if Qle_bool (inject_Z min_ui_height)
         (fmul fl (float_of_int fl image_height) max_ui_ratio)
    then Z.max min_ui_height (Z.min default_ui_height scaled_height)
    else scaled_height in
  Z.max 1 ui_height.

(** The name that [_draw_ui] shows for the current file on a display
    [w] pixels wide. *)
Definition max_chars (w : Z) : Z :=
  Z.max 20 (py_int (fl (inject_Z w / (20 # 1)))).

Definition shown_filename (w : Z) (filename : string) : string :=
  if max_chars w <? Z.of_nat (String.length filename)
  then substring 0 (Z.to_nat (max_chars w - 3)) filename +:+ "..."
  else filename.

Context {cv : Cv}.

(** [_scale_image()]: the new [self.scale_factor] and [self.scaled_image].
    The quotient of two ints is rounded once. *)
Definition _scale_image (original_image : image) : res (Q * image) :=
  let max_height := 900 in
  let max_width := 1400 in
  let '(height, width) := shape original_image in
  if (max_height <? height) || (max_width <? width) then
    scale_h ← fdiv fl (inject_Z max_height) (inject_Z height);
    scale_w ← fdiv fl (inject_Z max_width) (inject_Z width);
    let scale_factor := py_min scale_h scale_w in
    let new_width := py_int (fmul fl (float_of_int fl width) scale_factor) in
    let new_height := py_int (fmul fl (float_of_int fl height) scale_factor) in
    scaled ← cv2_resize original_image (new_width, new_height) INTER_AREA;
    Ok (scale_factor, scaled)
  else Ok (1 # 1, copy original_image).

End DisplayGeometry.

(** ** The zoomed view *)

(** The slice assignment of [_get_zoomed_view]: the block of [copy_h] rows
    and [copy_w] columns that starts at [(start_y, start_x)] in the zoomed
    image goes to [(target_y, target_x)] in the canvas. *)
Record paste := Paste {
  target_y : Z; target_x : Z;
  start_y : Z; start_x : Z;
  copy_h : Z; copy_w : Z
}.

(** The arithmetic of [_get_zoomed_view] on a view of [h] by [w] and a
    zoomed image of [new_h] by [new_w]: the paste that it makes, if any. *)
Definition view_paste (h w new_h new_w pan_x pan_y : Z) : option paste :=
  let start_x := Z.max 0 (- pan_x) in
  let start_y := Z.max 0 (- pan_y) in
  let end_x := Z.min new_w (w - pan_x) in
  let end_y := Z.min new_h (h - pan_y) in
  let target_x := Z.max 0 pan_x in
  let target_y := Z.max 0 pan_y in
  let target_end_x := target_x + (end_x - start_x) in
  let target_end_y := target_y + (end_y - start_y) in
  if (start_x <? end_x) && (start_y <? end_y) && (target_x <? w)
     && (target_y <? h)
  then
    let target_end_x := Z.min target_end_x w in
    let target_end_y := Z.min target_end_y h in
    let end_x := Z.min end_x new_w in
    let end_y := Z.min end_y new_h in
    let copy_w := Z.min (end_x - start_x) (target_end_x - target_x) in
    let copy_h := Z.min (end_y - start_y) (target_end_y - target_y) in
    if (0 <? copy_w) && (0 <? copy_h)
    then Some (Paste target_y target_x start_y start_x copy_h copy_w)
    else None
  else None.

(** The array operations of the view beyond those of the compositor. *)
Class ViewOps (cv : Cv) := {
  (** the pixel of [np.zeros] *)
  zero_pixel : pixel;
  (** [np.zeros((h, w, 3), dtype=np.uint8)] *)
  np_zeros : Z -> Z -> image;
  (** [canvas[ty:ty+ch, tx:tx+cw] = zoomed[sy:sy+ch, sx:sx+cw]] *)
  assign_slice : image -> image -> paste -> res image
}.

(** Whether both slices of a paste lie within their arrays, where they
    have the shape [(copy_h, copy_w)]. *)
Definition paste_in_range (p : paste) (canvas_shape zoomed_shape : Z * Z)
  : Prop :=
  0 < copy_h p /\ 0 < copy_w p /\
  0 <= target_y p /\ target_y p + copy_h p <= fst canvas_shape /\
  0 <= target_x p /\ target_x p + copy_w p <= snd canvas_shape /\
  0 <= start_y p /\ start_y p + copy_h p <= fst zoomed_shape /\
  0 <= start_x p /\ start_x p + copy_w p <= snd zoomed_shape.

(** What NumPy and OpenCV document of these operations: the shape of a
    copy and of a resized image, the pixels of a fresh canvas, and the
    pixels of a fresh canvas after a slice assignment whose two slices lie
    within their arrays. *)
Class ViewLaws (cv : Cv) (ops : ViewOps cv) := {
  copy_shape : forall img, shape (copy img) = shape img;
  cv2_resize_shape : forall img new_w new_h i r,
    cv2_resize img (new_w, new_h) i = Ok r -> shape r = (new_h, new_w);
  np_zeros_px : forall h w y x, px (np_zeros h w) y x = zero_pixel;
  assign_slice_px : forall h w zoomed p,
    0 < h -> 0 < w ->
    paste_in_range p (h, w) (shape zoomed) ->
    exists r,
      assign_slice (np_zeros h w) zoomed p = Ok r /\
      forall y x,
        px r y x
        = if (target_y p <=? y) && (y <? target_y p + copy_h p)
             && (target_x p <=? x) && (x <? target_x p + copy_w p)
          then px zoomed (start_y p + (y - target_y p))
                 (start_x p + (x - target_x p))
          else zero_pixel
}.

Section ZoomedView.

Variable fl : Q -> Q.
Context {cv : Cv} {ops : ViewOps cv}.

(** The image that [_get_zoomed_view] pastes from. *)
Definition zoomed_image (st : editor) (img : image) : res image :=
  let '(h, w) := shape img in
  let new_w := py_int (fmul fl (float_of_int fl w) (zoom_level st)) in
  let new_h := py_int (fmul fl (float_of_int fl h) (zoom_level st)) in
  if negb (Qeq_bool (zoom_level st) (1 # 1))
  then cv2_resize img (new_w, new_h) INTER_LINEAR
  else Ok (copy img).

(** [_get_zoomed_view(image)] *)
Definition _get_zoomed_view (st : editor) (img : image) : res image :=
  let '(h, w) := shape img in
  let new_w := py_int (fmul fl (float_of_int fl w) (zoom_level st)) in
  let new_h := py_int (fmul fl (float_of_int fl h) (zoom_level st)) in
  zoomed ← zoomed_image st img;
  let canvas := np_zeros h w in
  match view_paste h w new_h new_w (pan_x st) (pan_y st) with
  | Some p => assign_slice canvas zoomed p
  | None => Ok canvas
  end.

End ZoomedView.

(** ** The label under the pointer while it is typed *)

(** What [_draw_typing_label] draws: the rectangle, filled and then
    outlined, the text at its origin, and the connector line. *)
Record typing_drawing := TypingDrawing {
  td_text : string;
  td_origin : Z * Z;
  td_rect : rect;
  td_line : (Z * Z) * (Z * Z);
  td_color : color
}.

Section TypingLabel.

Variable fl : Q -> Q.
Variable getTextSize : string -> Q -> Z -> (Z * Z) * Z.

(** [padding = max(4, int(6 * label_scale / 0.5))] *)
Definition typing_padding (label_scale : Q) : Z :=
  Z.max 4 (py_int (fl (fmul fl (float_of_int fl 6) label_scale / (1 # 2)))).

Definition _draw_typing_label (image_size : Z * Z) (center : Z * Z)
    (radius : Z) (label : string) (mode : EditMode) : typing_drawing :=
  let '(img_h, img_w) := image_size in
  let '(label_scale, label_thickness) :=
    _get_dynamic_label_params fl (img_h, img_w) in
  let mode_short := upper (first3 (value mode)) in
  let display_label := "[" +:+ mode_short +:+ "] " +:+ label +:+ "_" in
  let '((text_w, text_h), baseline) :=
    getTextSize display_label (fadd fl label_scale (fl (1 # 10)))
      (label_thickness + 1) in
  let padding := typing_padding label_scale in
  let total_width := text_w + 2 * padding in
  let total_height := text_h + baseline + 2 * padding in
  let positions :=
    [ (fst center - radius, snd center - radius - total_height - 10);
      (fst center - radius, snd center + radius + 20) ] in
  let fits (pos : Z * Z) : bool :=
    (padding <=? fst pos) && (text_h + padding <=? snd pos)
    && (fst pos + total_width <=? img_w - padding)
    && (snd pos + baseline + padding <=? img_h - padding) in
  let '(label_x, label_y) :=
    match List.find fits positions with
    | Some (pos_x, pos_y) => (pos_x, pos_y + text_h)
    | None =>
        (Z.max padding (Z.min (fst center - radius)
                          (img_w - total_width - padding)),
         Z.max (text_h + padding) (snd center - radius - 10))
    end in
  let label_x :=
    Z.max padding (Z.min label_x (img_w - total_width - padding)) in
  let label_y :=
    Z.max (text_h + padding) (Z.min label_y (img_h - baseline - padding)) in
  {| td_text := display_label;
     td_origin := (label_x, label_y);
     td_rect := (label_x - padding, label_y - text_h - padding,
                 label_x + text_w + padding, label_y + baseline + padding);
     td_line := ((label_x + text_w / 2, label_y + baseline + padding), center);
     td_color := mode_colors mode |}.

End TypingLabel.

(** ** Navigation between images *)

Section Navigation.

(** The files of the batch, and whether the [try] block of
    [_load_current_image] runs to its end for a file (the image can be
    read, is large enough, can be scaled and composited). *)
Context {file : Type}.
Variable loads : file -> bool.

(** [_load_current_image()] on the files from [self.current_index] on:
    whether it returns [True], and the new [self.current_index].  A file
    that fails is skipped forward as long as it is not the last one. *)
Fixpoint load_first (files : list file) (current_index : nat) : bool * nat :=
  match files with
  | [] => (false, current_index)
  | current_file :: rest =>
      if loads current_file then (true, current_index)
      else
        match rest with
        | [] => (false, current_index)
        | _ => load_first rest (S current_index)
        end
  end.

Definition _load_current_image (image_files : list file) (current_index : nat)
  : bool * nat :=
  load_first (drop current_index image_files) current_index.

(** The new [self.current_index] after [_next_image()] and
    [_previous_image()]; the save of the store on the way is left to
    [save_current]. *)
Definition _next_image (st : editor) (image_files : list file)
    (current_index : nat) : nat :=
  if drawing st || label_input_mode st then current_index
  else if (current_index <? length image_files - 1)%nat
  then snd (_load_current_image image_files (current_index + 1))
  else current_index.

Definition _previous_image (st : editor) (image_files : list file)
    (current_index : nat) : nat :=
  if drawing st || label_input_mode st then current_index
  else if (0 <? current_index)%nat
  then snd (_load_current_image image_files (current_index - 1))
  else current_index.

End Navigation.

(** ** The raster instance of the view operations *)

Definition grid_zeros (h w : Z) : grid :=
  replicate (Z.to_nat h) (replicate (Z.to_nat w) black).

Definition in_target (p : paste) (y x : Z) : bool :=
  (target_y p <=? y) && (y <? target_y p + copy_h p)
  && (target_x p <=? x) && (x <? target_x p + copy_w p).

Definition paste_in_range_dec (p : paste) (canvas_shape zoomed_shape : Z * Z)
  : bool :=
  (0 <? copy_h p) && (0 <? copy_w p)
  && (0 <=? target_y p) && (target_y p + copy_h p <=? fst canvas_shape)
  && (0 <=? target_x p) && (target_x p + copy_w p <=? snd canvas_shape)
  && (0 <=? start_y p) && (start_y p + copy_h p <=? fst zoomed_shape)
  && (0 <=? start_x p) && (start_x p + copy_w p <=? snd zoomed_shape).

(** The assignment of a block to a block of the same shape; slices that
    leave their arrays are rejected. *)
Definition grid_assign_slice (canvas zoomed : grid) (p : paste) : res grid :=
  if paste_in_range_dec p (grid_shape canvas) (grid_shape zoomed) then
    Ok (grid_imap
          (fun y x c =>
             if in_target p y x
             then grid_px zoomed (start_y p + (y - target_y p))
                    (start_x p + (x - target_x p))
             else c)
          canvas)
  else Raise ValueError.

#[global] Instance grid_view : ViewOps grid_cv := {|
  zero_pixel := black;
  np_zeros := grid_zeros;
  assign_slice := grid_assign_slice
|}.

(** ** Further concrete inputs *)

(** A 4 by 6 image whose pixel at [(y, x)] is [(y, x, 0)]. *)
Definition chart : grid :=
  (fun y => (fun x => (y, x, 0)) <$> seqZ 0 6) <$> seqZ 0 4.

(** An image of 1800 rows and 10 columns. *)
Definition tall_image : grid := replicate 1800 (replicate 10 (10, 20, 30)).

(** The editor with the view moved two to the right and one up. *)
Definition panned_editor : editor := set_pan init_editor 2 (-1).

(** A session that saves six files in turn, the third one without
    reaching the end of the [try] block, and then returns to the second. *)
Definition six_saves : list cache_event :=
  [ CacheSave "a.png" [face_region] true;
    CacheSave "b.png" [face_region] true;
    CacheSave "c.png" [left_invert] false;
    CacheSave "d.png" [face_region] true;
    CacheSave "e.png" [face_region] true;
    CacheSave "f.png" [right_invert] true;
    CacheLoad "b.png" ].

(** A batch of four files of which the second cannot be loaded. *)
Definition batch : list string := ["a.png"; "b.png"; "c.png"; "d.png"].
Definition all_but_b (f : string) : bool := negb (String.eqb f "b.png").

(** * Part II: properties *)

(** Integer bounds read as rational ones, for [lra]. *)
Ltac inject_bounds :=
  unfold Z.sub in *; rewrite ?inject_Z_plus in *;
  change (inject_Z (- (1))) with (- (1))%Q in *;
  change (inject_Z 1) with 1%Q in *.

(** ** Truncation toward zero *)

Lemma py_int_floor_ceiling (q : Q) : Qfloor q <= py_int q <= Qceiling q.
Proof.
  destruct q as [n d]. unfold py_int, Qceiling, Qfloor. cbn [Qnum Qden Qopp].
  pose proof (Z.mod_pos_bound (- n) (Z.pos d) ltac:(lia)) as Hm1.
  pose proof (Z.div_mod (- n) (Z.pos d) ltac:(lia)) as Hd1.
  pose proof (Z.mod_pos_bound n (Z.pos d) ltac:(lia)) as Hm2.
  pose proof (Z.div_mod n (Z.pos d) ltac:(lia)) as Hd2.
  destruct (Z_le_gt_dec 0 n) as [Hn | Hn].
  - rewrite Z.quot_div_nonneg by lia. nia.
  - assert (Hq : Z.quot n (Z.pos d) = - ((- n) / Z.pos d)).
    { rewrite <- (Z.quot_div_nonneg (- n)) by lia.
      rewrite Z.quot_opp_l by lia. lia. }
    rewrite Hq. nia.
Qed.

Lemma py_int_lower (q : Q) : (q - 1 < inject_Z (py_int q))%Q.
Proof.
  pose proof (Qlt_floor q) as H. pose proof (py_int_floor_ceiling q) as [Hf _].
  rewrite inject_Z_plus in H. change (inject_Z 1) with 1%Q in H.
  rewrite Zle_Qle in Hf. lra.
Qed.

Lemma py_int_upper (q : Q) : (inject_Z (py_int q) < q + 1)%Q.
Proof.
  pose proof (Qceiling_lt q) as H. pose proof (py_int_floor_ceiling q) as [_ Hc].
  unfold Z.sub in H. rewrite inject_Z_plus in H.
  change (inject_Z (- (1))) with (- (1))%Q in H.
  rewrite Zle_Qle in Hc. lra.
Qed.

Lemma py_int_between (q : Q) (lo hi : Z) :
  (inject_Z lo <= q)%Q -> (q <= inject_Z hi)%Q -> lo <= py_int q <= hi.
Proof.
  intros Hlo Hhi. pose proof (py_int_floor_ceiling q) as [Hf Hc].
  apply Qfloor_resp_le in Hlo. rewrite Qfloor_Z in Hlo.
  apply Qceiling_resp_le in Hhi. rewrite Qceiling_Z in Hhi. lia.
Qed.

Example py_int_truncates :
  py_int (7 # 2) = 3 /\ py_int (- 7 # 2) = -3 /\ py_int (24 # 10) = 2.
Proof. repeat split. Qed.

(** ** Viewport: the zoom anchor *)

Section ZoomAnchor.

Variable fl : Q -> Q.

(** Integers up to [B] in magnitude convert to floats exactly (2^53 for
    binary64), and rounding is monotone. *)
Variable B : Z.
Hypothesis fl_mono : forall a b : Q, (a <= b)%Q -> (fl a <= fl b)%Q.
Hypothesis fl_int :
  forall z : Z, Z.abs z <= B -> (fl (inject_Z z) == inject_Z z)%Q.

Lemma fl_proper (a b : Q) : (a == b)%Q -> (fl a == fl b)%Q.
Proof.
  intros E. apply Qle_antisym; apply fl_mono; rewrite E; apply Qle_refl.
Qed.

Lemma fl_le_int (q : Q) (k : Z) :
  Z.abs k <= B -> (q <= inject_Z k)%Q -> (fl q <= inject_Z k)%Q.
Proof. intros Hk H. rewrite <- (fl_int k Hk). now apply fl_mono. Qed.

Lemma fl_ge_int (q : Q) (k : Z) :
  Z.abs k <= B -> (inject_Z k <= q)%Q -> (inject_Z k <= fl q)%Q.
Proof. intros Hk H. rewrite <- (fl_int k Hk). now apply fl_mono. Qed.

(** One axis of the anchor computation: [a] is the float product
    [img * zoom'], [p] the recomputed pan, and the image point is mapped
    back with the same product. *)
Lemma anchor_axis (a : Q) (x : Z) :
  Z.abs x < B ->
  let p := py_int (fsub fl (float_of_int fl x) a) in
  Z.abs p < B ->
  Z.abs (py_int (fadd fl a (float_of_int fl p)) - x) <= 1.
Proof.
  intros Hx p Hp. unfold fsub, fadd, float_of_int in *.
  set (d := fl (fl (inject_Z x) - a)) in *.
  assert (Ed : (d == fl (inject_Z x - a))%Q).
  { apply fl_proper. rewrite fl_int by lia. reflexivity. }
  pose proof (py_int_lower d) as Hlo. pose proof (py_int_upper d) as Hup.
  fold p in Hlo, Hup.
  (* the exact difference lies within one of the truncated pan *)
  assert (H1 : (inject_Z (p - 1) <= inject_Z x - a)%Q).
  { apply Qnot_lt_le. intros Hc.
    assert (d <= inject_Z (p - 1))%Q.
    { rewrite Ed. apply fl_le_int; [lia | now apply Qlt_le_weak]. }
    inject_bounds. lra. }
  assert (H2 : (inject_Z x - a <= inject_Z (p + 1))%Q).
  { apply Qnot_lt_le. intros Hc.
    assert (inject_Z (p + 1) <= d)%Q.
    { rewrite Ed. apply fl_ge_int; [lia | now apply Qlt_le_weak]. }
    inject_bounds. lra. }
  assert (Es : (fl (a + fl (inject_Z p)) == fl (a + inject_Z p))%Q).
  { apply fl_proper. rewrite (fl_int p) by lia. reflexivity. }
  assert (Hb : x - 1 <= py_int (fl (a + fl (inject_Z p))) <= x + 1).
  { apply py_int_between; rewrite Es.
    - apply fl_ge_int; [lia |]. inject_bounds. lra.
    - apply fl_le_int; [lia |]. inject_bounds. lra. }
  lia.
Qed.

(** C1.  A wheel event at screen point [(x, y)] that the debounce lets
    through: the handler takes the image point under the pointer with the
    old zoom, clamps the new zoom, and sets the pan to
    [int(x - img_x * zoom')], [int(y - img_y * zoom')]; the image point then
    maps back to within one pixel of [(x, y)] on each axis.  [x], [y] and
    the new pan are in the range where integers convert to floats
    exactly. *)
Theorem zoom_anchor_invariance (st : editor) (now : Q) (x y flags : Z) :
  (0 < min_zoom st)%Q ->
  (min_zoom st <= zoom_level st)%Q /\ (zoom_level st <= max_zoom st)%Q ->
  Qltb (fsub fl now (last_zoom_time st)) ZOOM_DEBOUNCE_MS = false ->
  Z.abs x < B -> Z.abs y < B ->
  exists img_x img_y st',
    _screen_to_image_coords fl st x y = Ok (img_x, img_y) /\
    _mouse_callback fl st now EVENT_MOUSEWHEEL x y flags
      = Ok (st', [UpdateDisplay]) /\
    zoom_level st'
      = py_max (min_zoom st)
          (py_min (max_zoom st)
             (fmul fl (zoom_level st)
                (if 0 <? flags then fl (11 # 10) else fl (9 # 10)))) /\
    pan_x st'
      = py_int (fsub fl (float_of_int fl x)
                  (fmul fl (float_of_int fl img_x) (zoom_level st'))) /\
    pan_y st'
      = py_int (fsub fl (float_of_int fl y)
                  (fmul fl (float_of_int fl img_y) (zoom_level st'))) /\
    (Z.abs (pan_x st') < B ->
     Z.abs (fst (_image_to_screen_coords fl st' img_x img_y) - x) <= 1) /\
    (Z.abs (pan_y st') < B ->
     Z.abs (snd (_image_to_screen_coords fl st' img_x img_y) - y) <= 1).
Proof.
  intros Hmin [Hlo _] Hdeb Hx Hy.
  assert (Hz : Qeq_bool (zoom_level st) 0 = false).
  { apply not_true_is_false. intros E. apply Qeq_bool_iff in E.
    rewrite E in Hlo. lra. }
  unfold _mouse_callback. rewrite Hdeb.
  unfold _screen_to_image_coords, fdiv.
  cbn -[py_int Qeq_bool fsub fmul fadd float_of_int py_max py_min].
  rewrite Hz. cbn -[py_int fsub fmul fadd float_of_int py_max py_min].
  do 3 eexists. split; [reflexivity |]. split; [reflexivity |].
  cbn -[py_int fsub fmul fadd float_of_int py_max py_min].
  split; [reflexivity |]. split; [reflexivity |].
  split; [reflexivity |].
  split; intros Hp; now apply anchor_axis.
Qed.

(** A wheel event inside the debounce window changes nothing. *)
Lemma debounced_wheel_is_dropped (st : editor) (now : Q) (x y flags : Z) :
  Qltb (fsub fl now (last_zoom_time st)) ZOOM_DEBOUNCE_MS = true ->
  _mouse_callback fl st now EVENT_MOUSEWHEEL x y flags = Ok (st, []).
Proof. intros H. unfold _mouse_callback. now rewrite H. Qed.

End ZoomAnchor.

Lemma fl_exact_mono (a b : Q) : (a <= b)%Q -> (fl_exact a <= fl_exact b)%Q.
Proof. trivial. Qed.

Lemma fl_exact_int (z : Z) :
  Z.abs z <= 2 ^ 53 -> (fl_exact (inject_Z z) == inject_Z z)%Q.
Proof. reflexivity. Qed.

Lemma zoom_anchor_invariance_witness :
  exists img_x img_y st',
    _screen_to_image_coords fl_exact init_editor 100 80 = Ok (img_x, img_y) /\
    _mouse_callback fl_exact init_editor (1000 # 1) EVENT_MOUSEWHEEL 100 80 1
      = Ok (st', [UpdateDisplay]) /\
    zoom_level st'
      = py_max (min_zoom init_editor)
          (py_min (max_zoom init_editor)
             (fmul fl_exact (zoom_level init_editor)
                (if 0 <? 1 then fl_exact (11 # 10) else fl_exact (9 # 10)))) /\
    pan_x st'
      = py_int (fsub fl_exact (float_of_int fl_exact 100)
                  (fmul fl_exact (float_of_int fl_exact img_x)
                     (zoom_level st'))) /\
    pan_y st'
      = py_int (fsub fl_exact (float_of_int fl_exact 80)
                  (fmul fl_exact (float_of_int fl_exact img_y)
                     (zoom_level st'))) /\
    (Z.abs (pan_x st') < 2 ^ 53 ->
     Z.abs (fst (_image_to_screen_coords fl_exact st' img_x img_y) - 100)
     <= 1) /\
    (Z.abs (pan_y st') < 2 ^ 53 ->
     Z.abs (snd (_image_to_screen_coords fl_exact st' img_x img_y) - 80)
     <= 1).
Proof.
  apply (zoom_anchor_invariance fl_exact (2 ^ 53) fl_exact_mono fl_exact_int
           init_editor (1000 # 1) 100 80 1).
  - reflexivity.
  - split; discriminate.
  - reflexivity.
  - reflexivity.
  - reflexivity.
Defined.

(** The wheel event of the witness, run: zoom 1.0 to 1.1 at [(100, 80)]
    moves the pan to [(-10, -8)], and the image point [(100, 80)] is drawn
    at [(100, 80)] again. *)
Example zoom_in_at_100_80 :
  match
    _mouse_callback fl_exact init_editor (1000 # 1) EVENT_MOUSEWHEEL 100 80 1
  with
  | Ok (st', acts) =>
      acts = [UpdateDisplay] /\ (pan_x st', pan_y st') = (-10, -8) /\
      _image_to_screen_coords fl_exact st' 100 80 = (100, 80)
  | Raise _ => False
  end.
Proof. vm_compute. repeat split. Qed.

(** Without a zoom change the round trip through the truncated image point
    can be off by more than a pixel: at zoom 10 the screen point 5 comes
    back as 0. *)
Example round_trip_without_zoom_change :
  _screen_to_image_coords fl_exact (set_zoom_level init_editor (10 # 1)) 5 5
    = Ok (0, 0) /\
  _image_to_screen_coords fl_exact (set_zoom_level init_editor (10 # 1)) 0 0
    = (0, 0).
Proof. split; reflexivity. Qed.

(** ** Effect parameters *)

(** C8.  The blur kernel setter rejects an even or non-positive integer,
    the block factor setter a non-positive one; each raises [ValueError]
    before assigning, so the editor is as it was.  Setting the kernel to 24
    on a fresh editor is rejected and the kernel stays 25. *)
Theorem invalid_effect_parameter_rejected :
  (forall (st : editor) (v : Z),
     v <= 0 \/ Z.even v = true ->
     blur_kernel_setter st (IntArg v) = (st, Some ValueError)) /\
  (forall (st : editor) (v : Z),
     v <= 0 ->
     pixelate_size_setter st (IntArg v) = (st, Some ValueError)) /\
  blur_kernel init_editor = 25 /\
  blur_kernel_setter init_editor (IntArg 24) = (init_editor, Some ValueError) /\
  blur_kernel (fst (blur_kernel_setter init_editor (IntArg 24))) = 25.
Proof.
  split; [| split; [| repeat split]].
  - intros st v H. unfold blur_kernel_setter.
    destruct (Z.leb_spec v 0) as [Hle | Hgt]; [reflexivity |].
    destruct H as [H | H]; [lia |].
    rewrite Zeven_mod in H. now rewrite H.
  - intros st v H. unfold pixelate_size_setter.
    destruct (Z.leb_spec v 0); [reflexivity | lia].
Qed.

Lemma invalid_effect_parameter_rejected_witness :
  blur_kernel_setter init_editor (IntArg (-3)) = (init_editor, Some ValueError)
  /\ blur_kernel_setter init_editor (IntArg 24)
     = (init_editor, Some ValueError)
  /\ pixelate_size_setter init_editor (IntArg 0)
     = (init_editor, Some ValueError).
Proof.
  destruct invalid_effect_parameter_rejected as (Hblur & Hpix & _).
  split; [| split].
  - apply Hblur. left. lia.
  - apply Hblur. right. reflexivity.
  - apply Hpix. lia.
Defined.

(** The setters accept what they should: an odd positive kernel, a
    positive block factor. *)
Example valid_effect_parameters_accepted :
  blur_kernel (fst (blur_kernel_setter init_editor (IntArg 31))) = 31 /\
  pixelate_size (fst (pixelate_size_setter init_editor (IntArg 4))) = 4 /\
  snd (blur_kernel_setter init_editor NonIntArg) = Some TypeError.
Proof. repeat split. Qed.

(** ** Label buffer *)

Lemma lstrip_spec (s : string) :
  exists l : string,
    s = l +:+ lstrip s /\ all_space l = true /\
    forall c, first_char (lstrip s) = Some c -> isspace c = false.
Proof.
  induction s as [| c s (l & E & Hl & Hf)]; cbn [lstrip].
  - exists "". repeat split. discriminate.
  - destruct (isspace c) eqn:Ec.
    + exists (String c l). split; [| split].
      * exact (f_equal (String c) E).
      * cbn [all_space]. now rewrite Ec, Hl.
      * exact Hf.
    + exists "". split; [reflexivity | split; [reflexivity |]].
      cbn. now intros ? [= <-].
Qed.

Lemma rstrip_spec (s : string) :
  exists r : string,
    s = rstrip s +:+ r /\ all_space r = true /\
    (forall c, last_char (rstrip s) = Some c -> isspace c = false) /\
    first_char (rstrip s) = (if all_space s then None else first_char s).
Proof.
  induction s as [| c s (r & E & Hr & Hlast & Hfirst)]; cbn [rstrip].
  - exists "". repeat split. discriminate.
  - destruct (rstrip s) as [| c' t] eqn:Et.
    + change (s = r) in E. subst r.
      destruct (isspace c) eqn:Ec.
      * exists (String c s). cbn [all_space]. rewrite Ec, Hr.
        repeat split. discriminate.
      * exists s. cbn [all_space]. rewrite Ec. cbn [andb first_char].
        repeat split; try assumption. cbn. now intros ? [= <-].
    + exists r. split; [| split; [| split]].
      * exact (f_equal (String c) E).
      * assumption.
      * exact Hlast.
      * cbn [first_char all_space]. cbn [first_char] in Hfirst.
        destruct (all_space s); [discriminate |]. now rewrite andb_false_r.
Qed.

Lemma all_space_app (a b : string) :
  all_space (a +:+ b) = all_space a && all_space b.
Proof.
  induction a as [| c a IH]; [reflexivity |].
  change (all_space (String c a +:+ b))
    with (isspace c && all_space (a +:+ b)).
  cbn [all_space]. now rewrite IH, andb_assoc.
Qed.

Lemma lstrip_all_space (s : string) : all_space s = true -> lstrip s = "".
Proof.
  induction s as [| c s IH]; cbn; [reflexivity |].
  intros H. apply andb_true_iff in H as [-> H]. auto.
Qed.

Lemma rstrip_empty (s : string) : rstrip s = "" <-> all_space s = true.
Proof.
  induction s as [| c s IH]; cbn [rstrip all_space]; [tauto |].
  destruct (rstrip s) eqn:E.
  - destruct (isspace c); cbn [andb].
    + split; [intros _; now apply IH | reflexivity].
    + split; discriminate.
  - split; [discriminate |]. intros H. apply andb_true_iff in H as [_ H].
    apply IH in H. discriminate.
Qed.

(** [strip] cuts a run of whitespace off each end and nothing else. *)
Lemma strip_spec (s : string) :
  exists l r : string,
    s = l +:+ strip s +:+ r /\
    all_space l = true /\ all_space r = true /\
    (forall c, first_char (strip s) = Some c -> isspace c = false) /\
    (forall c, last_char (strip s) = Some c -> isspace c = false) /\
    (all_space s = true -> strip s = "").
Proof.
  unfold strip.
  destruct (lstrip_spec s) as (l & El & Hl & Hfirst).
  destruct (rstrip_spec (lstrip s)) as (r & Er & Hr & Hlast & Hf).
  exists l, r. split; [| split; [| split; [| split; [| split]]]];
    try assumption.
  - now rewrite <- Er.
  - intros c Hc. rewrite Hf in Hc.
    destruct (all_space (lstrip s)); [discriminate | now apply Hfirst].
  - intros Hs. now rewrite (lstrip_all_space s Hs).
Qed.

Example strip_examples :
  strip "  cat " = "cat" /\ strip "   " = "" /\ strip "a b" = "a b".
Proof. repeat split. Qed.

(** C9.  Enter in label input appends one region whose label is the buffer
    stripped: the buffer is the label between two runs of whitespace, the
    label neither begins nor ends with whitespace, and a buffer of
    whitespace only gives the empty label. *)
Theorem committed_label_is_stripped (st : editor) (c : Z * Z) (sub : list Z) :
  label_input_mode st = true ->
  self_center st = Some c ->
  let buffer := current_label st in
  exists (st' : editor) (acts : list ui_action),
    run_key st 13 sub = Handled st' acts /\
    circles st'
    = circles st ++
      [{| center := c; radius := current_radius st; mode := current_mode st;
          label := strip buffer |}] /\
    (exists l r : string,
       buffer = l +:+ strip buffer +:+ r /\
       all_space l = true /\ all_space r = true) /\
    (forall ch, first_char (strip buffer) = Some ch -> isspace ch = false) /\
    (forall ch, last_char (strip buffer) = Some ch -> isspace ch = false) /\
    (all_space buffer = true -> strip buffer = "").
Proof.
  intros Hmode Hc buffer.
  destruct (strip_spec buffer) as (l & r & E & Hl & Hr & Hf & Hla & He).
  unfold run_key, key_command. rewrite Hmode. cbn [Z.eqb Pos.eqb].
  unfold _exit_label_input_mode. cbn. rewrite Hc. cbn.
  do 2 eexists. split; [reflexivity |]. split; [reflexivity |].
  split; [now exists l, r |]. auto.
Qed.

Lemma committed_label_is_stripped_witness :
  exists (st' : editor) (acts : list ui_action),
    run_key (typing_editor "  face ") 13 [] = Handled st' acts /\
    circles st' = [face_region].
Proof.
  destruct (committed_label_is_stripped (typing_editor "  face ") (100, 100) [])
    as (st' & acts & Hrun & Hcs & _); [reflexivity | reflexivity |].
  exists st', acts. split; [exact Hrun | exact Hcs].
Defined.

(** A buffer of blanks commits an unlabelled region. *)
Example blank_buffer_commits_unlabelled :
  match run_key (typing_editor "   ") 13 [] with
  | Handled st' acts =>
      label <$> circles st' = [""] /\
      acts = [PrintMsg (MsgAddedUnlabeled BLUR); ApplyAllEffects; UpdateDisplay]
  | _ => False
  end.
Proof. vm_compute. split; reflexivity. Qed.

(** ** The key loop and the interaction states *)


(** The nested loop comes to an end as soon as Escape or Enter arrives. *)
Lemma edit_loop_returns (keys : list Z) :
  (27 ∈ keys \/ 13 ∈ keys) ->
  forall (st : editor) (acts : list ui_action),
    is_Some (edit_loop st acts keys).
Proof.
  induction keys as [| key keys IH]; intros H st acts; cbn [edit_loop].
  - destruct H as [H | H]; inversion H.
  - destruct (key =? 27) eqn:E1; [eexists; reflexivity |].
    destruct (key =? 13) eqn:E2; [eexists; reflexivity |].
    assert (H' : 27 ∈ keys \/ 13 ∈ keys).
    { destruct H as [H | H]; apply elem_of_cons in H as [E | H]; auto;
        subst key; discriminate. }
    destruct (key =? 8); [now apply IH |].
    destruct ((32 <=? key) && (key <=? 126)); now apply IH.
Qed.

(** A label edit that returns: the store was empty and nothing happened,
    or a centre was on record and the loop ran on the last label. *)
Lemma edit_last_label_returned (st st' : editor) (keys : list Z)
    (acts : list ui_action) :
  _edit_last_label st keys = Some (Ok (st', acts)) ->
  (last (circles st) = None /\ st' = st /\ acts = [PrintMsg MsgNothingToEdit])
  \/
  exists (c : circle) (ctr : Z * Z),
    last (circles st) = Some c /\ self_center st = Some ctr /\
    edit_loop (set_label_input_mode (set_current_label st (label c)) true)
      [PrintMsg (MsgCurrentLabel (label c)); UpdateDisplayWithInput] keys
    = Some (st', acts).
Proof.
  unfold _edit_last_label. destruct (last (circles st)) as [c |].
  - cbn [self_center set_label_input_mode set_current_label].
    destruct (self_center st) as [ctr |] eqn:Ec; [| discriminate].
    destruct (edit_loop _ _ keys) as [[st1 acts1] |] eqn:El; [| discriminate].
    cbn. intros [= <- <-]. right. now exists c, ctr.
  - intros [= <- <-]. now left.
Qed.




Lemma play_reachable (fl : Q -> Q) (events : list event) :
  forall st st' : editor,
    reachable fl st -> play fl st events = Some st' -> reachable fl st'.
Proof.
  induction events as [| [now ev x y flags | key sub] events IH];
    intros st st' Hst; cbn [play].
  - now intros [= <-].
  - destruct (_mouse_callback fl st now ev x y flags) as [[st1 acts] |] eqn:E;
      [| discriminate].
    apply IH. now apply (reach_mouse fl st now ev x y flags st1 acts).
  - destruct (run_key st key sub) as [st1 acts | | |] eqn:E; try discriminate.
    apply IH. now apply (reach_key fl st key sub st1 acts).
Qed.


(** The same while Panning, and with a region in the store, which the undo
    key then removes in the middle of the pan. *)
Example undo_while_panning :
  let st := set_is_panning (set_circles init_editor [face_region]) true in
  interaction_state st = Panning /\
  run_key st (ord "u") []
  = Handled (set_circles st [])
      [PrintMsg (MsgRemoved "face"); ApplyAllEffects; UpdateDisplay].
Proof. split; reflexivity. Qed.

(** In label input the same keys are characters of the label. *)
Example command_keys_are_text_in_label_input :
  key_command (typing_editor "") (ord "u") = CmdLabelChar "u" /\
  key_command (typing_editor "") (ord "c") = CmdLabelChar "c" /\
  key_command (typing_editor "") (ord "1") = CmdLabelChar "1".
Proof. repeat split. Qed.

(** The scenario of the specification: a drag from (100, 100) to
    (150, 100) in Blur mode, the label "face", Enter. *)
Example drag_and_label_scenario :
  ('(s1, _) ← _mouse_callback fl_exact (set_current_mode init_editor BLUR)
                (0 # 1) EVENT_LBUTTONDOWN 100 100 0;
   '(s2, _) ← _mouse_callback fl_exact s1 (0 # 1) EVENT_MOUSEMOVE 150 100 0;
   '(s3, _) ← _mouse_callback fl_exact s2 (0 # 1) EVENT_LBUTTONUP 150 100 0;
   Ok s3) = Ok (typing_editor "") /\
  interaction_state (typing_editor "") = LabelInput /\
  match run_keys (typing_editor "") [ord "f"; ord "a"; ord "c"; ord "e"; 13]
  with
  | Handled st _ =>
      circles st = [face_region] /\ interaction_state st = Idle /\
      export_records_from 1 (circles st) = [export_record 1 face_region]
  | _ => False
  end.
Proof. split; [| split]; vm_compute; auto. Qed.

(** A drag that ends within five pixels commits nothing. *)
Example short_drag_is_discarded :
  let st := set_current_radius drawing_editor 5 in
  _mouse_callback fl_exact st (0 # 1) EVENT_LBUTTONUP 15 10 0
  = Ok (set_drawing st false, []).
Proof. reflexivity. Qed.

(** ** Effect compositor *)

Lemma same_shape_lookup {A B} (a : list (list A)) (b : list (list B)) i :
  same_shape a b = true ->
  match a !! i, b !! i with
  | Some ra, Some rb => length ra = length rb
  | None, None => True
  | _, _ => False
  end.
Proof.
  unfold same_shape. intros H. apply andb_true_iff in H as [Hl Hr].
  apply Nat.eqb_eq in Hl.
  destruct (a !! i) as [ra|] eqn:Ea, (b !! i) as [rb|] eqn:Eb.
  - rewrite forallb_forall in Hr.
    specialize (Hr (ra, rb)). apply Nat.eqb_eq. apply Hr.
    apply list_elem_of_In. apply list_elem_of_lookup. exists i.
    rewrite lookup_zip_with, Ea, Eb. reflexivity.
  - apply lookup_lt_Some in Ea. apply lookup_ge_None in Eb. lia.
  - apply lookup_lt_Some in Eb. apply lookup_ge_None in Ea. lia.
  - exact I.
Qed.

Lemma row_lookup_same_length {A B} (ra : list A) (rb : list B) j :
  length ra = length rb ->
  match ra !! j, rb !! j with
  | Some _, Some _ | None, None => True
  | _, _ => False
  end.
Proof.
  intros H. destruct (ra !! j) eqn:Ea, (rb !! j) eqn:Eb; try exact I.
  - apply lookup_lt_Some in Ea. apply lookup_ge_None in Eb. lia.
  - apply lookup_lt_Some in Eb. apply lookup_ge_None in Ea. lia.
Qed.

Lemma select_lookup {A} (d : A) (m : list (list bool)) (a b : list (list A))
    (i j : nat) :
  same_shape m a = true -> same_shape m b = true ->
  default d (select m a b !! i ≫= (.!! j))
  = if default false (m !! i ≫= (.!! j))
    then default d (a !! i ≫= (.!! j))
    else default d (b !! i ≫= (.!! j)).
Proof.
  intros Sa Sb. unfold select. rewrite !lookup_zip_with.
  pose proof (same_shape_lookup m a i Sa) as Ha.
  pose proof (same_shape_lookup m b i Sb) as Hb.
  destruct (m !! i) as [mr|], (a !! i) as [ar|], (b !! i) as [br|];
    try contradiction; [| reflexivity].
  cbn. rewrite !lookup_zip_with.
  pose proof (row_lookup_same_length mr ar j Ha) as Hx.
  pose proof (row_lookup_same_length mr br j Hb) as Hx'.
  destruct (mr !! j) as [t|], (ar !! j) as [p|], (br !! j) as [q|];
    try contradiction; [| reflexivity].
  cbn. destruct t; reflexivity.
Qed.

Lemma grid_where_px (m : bitmap) (a b r : grid) (y x : Z) :
  grid_where m a b = Ok r ->
  grid_px r y x = if bitmap_at m y x then grid_px a y x else grid_px b y x.
Proof.
  unfold grid_where. destruct (same_shape m a) eqn:Sa; [| discriminate].
  destruct (same_shape m b) eqn:Sb; [| discriminate]. cbn [andb].
  intros [= <-]. unfold grid_px, bitmap_at.
  destruct ((y <? 0) || (x <? 0)); [reflexivity |].
  apply (select_lookup black m a b _ _ Sa Sb).
Qed.

Lemma grid_laws : CvLaws grid_cv.
Proof. constructor. intros. now apply grid_where_px. Qed.

#[global] Existing Instance grid_laws.

Section CompositorFacts.

Variable fl : Q -> Q.
Context {cv : Cv}.

Lemma comp_eq {A} (c : comp A) : Comp (outcome c) (printed c) = c.
Proof. now destruct c. Qed.

Lemma comp_bind_ret {A} (c : comp A) : (a ← c; mret a) = c.
Proof.
  destruct c as [[a | e] d]; unfold mbind, comp_bind; cbn;
    rewrite ?app_nil_r; reflexivity.
Qed.

Lemma comp_bind_assoc {A B C} (c : comp A) (f : A -> comp B) (g : B -> comp C) :
  (b ← (a ← c; f a); g b) = (a ← c; b ← f a; g b).
Proof.
  destruct c as [[a | e] d]; unfold mbind, comp_bind; cbn; [| reflexivity].
  destruct (f a) as [[b | e] d']; cbn; [| reflexivity].
  now rewrite app_assoc.
Qed.

Lemma composite_app (st : editor) (acc : image) (cs1 cs2 : list circle) :
  composite fl st acc (cs1 ++ cs2)
  = (acc' ← composite fl st acc cs1; composite fl st acc' cs2).
Proof.
  revert acc. induction cs1 as [| c cs1 IH]; intros acc; cbn [composite app].
  - unfold mbind, comp_bind, mret, comp_ret. cbn. now rewrite comp_eq.
  - rewrite comp_bind_assoc.
    destruct (composite_step fl st acc c) as [[a | e] d];
      unfold mbind at 1 3, comp_bind; cbn; [| reflexivity].
    now rewrite IH.
Qed.

(** A region whose effect fails behind a good mask: the accumulator is
    returned as it was, with one diagnostic. *)
Lemma apply_effect_failed (st : editor) (acc : image) (r : circle)
    (mk : mask) (e : pyexn) :
  filled_circle_mask acc (center r) (radius r) = Ok mk ->
  masked_effect fl st acc mk (mode r) = Raise e ->
  _apply_effect fl st acc r = Comp (Ok acc) [EffectError (mode r) e].
Proof. intros Hm He. unfold _apply_effect. now rewrite Hm, He. Qed.

(** A region whose mask cannot be built: the handler raises in its turn
    and nothing is printed. *)
Lemma apply_effect_mask_failed (st : editor) (acc : image) (r : circle)
    (e : pyexn) :
  filled_circle_mask acc (center r) (radius r) = Raise e ->
  _apply_effect fl st acc r = Comp (Raise UnboundLocalError) [].
Proof. intros Hm. unfold _apply_effect. now rewrite Hm. Qed.

(** The calls of a mode's branch are what [effect_transform] runs. *)
Lemma mode_transform_runs (st : editor) (m : EditMode) (img t : image) :
  mode_transform fl st m img t -> effect_transform fl st m img = Ok (Some t).
Proof.
  destruct m; cbn [mode_transform effect_transform].
  - now intros ->.
  - now intros ->.
  - destruct (shape img) as [h w]. cbn [fst snd].
    intros (Hp & temp & Ht & Hr). unfold floordiv.
    destruct (Z.eqb_spec (pixelate_size st) 0) as [E | _]; [contradiction |].
    cbn. rewrite Ht. cbn. now rewrite Hr.
  - now intros ->.
  - intros (gray & Hg & Hr). rewrite Hg. cbn. now rewrite Hr.
  - now intros ->.
  - contradiction.
Qed.

(** C2.  The compositor takes the regions in store order, and each
    region's effect is computed from the accumulated image, not from the
    source.  Let the store hold the regions [earlier], then [r], then
    [later], and let [acc] be the image that compositing [earlier] on a
    copy of the source returns.  When the mask of [r] is built on [acc],
    the calls of the mode of [r] turn [acc] into [t], and the two are
    blended into [img], then [img] is what [_apply_effect] returns for
    [r]: inside the mask of [r] it shows the transform of [acc], outside
    it shows [acc], so where [r] overlaps an earlier region its effect
    lies on top of the earlier result.  The redraw goes on from [img] with
    the outline of [r]: its result is that of compositing [later] on the
    outlined image. *)
Theorem effects_compose_in_store_order `{!CvLaws cv}
    (st : editor) (scaled_image : image) (earlier later : list circle)
    (r : circle) (acc : image) (d0 : list diagnostic) (mk : mask)
    (t img out : image) :
  circles st = earlier ++ r :: later ->
  composite fl st (copy scaled_image) earlier = Comp (Ok acc) d0 ->
  filled_circle_mask acc (center r) (radius r) = Ok mk ->
  mode_transform fl st (mode r) acc t ->
  np_where mk t acc = Ok img ->
  cv2_circle img (center r) (radius r) (mode_colors (mode r)) 2 = Ok out ->
  _apply_effect fl st acc r = Comp (Ok img) [] /\
  (forall y x : Z,
     px img y x = if mask_at mk y x then px t y x else px acc y x) /\
  _apply_all_effects fl st scaled_image
  = Comp (outcome (composite fl st out later))
      (d0 ++ printed (composite fl st out later)).
Proof.
  intros Hcs Hacc Hm Ht Hw Ho.
  assert (Ha : _apply_effect fl st acc r = Comp (Ok img) []).
  { unfold _apply_effect, masked_effect.
    rewrite Hm, (mode_transform_runs _ _ _ _ Ht). cbn. now rewrite Hw. }
  split; [exact Ha |]. split; [intros y x; now apply np_where_px |].
  assert (Hs : composite_step fl st acc r = Comp (Ok out) []).
  { unfold composite_step. rewrite Ha. unfold mbind, comp_bind, lift. cbn.
    now rewrite Ho. }
  unfold _apply_all_effects. rewrite Hcs, composite_app, Hacc.
  unfold mbind at 1, comp_bind at 1. cbn [outcome printed composite].
  rewrite Hs. unfold mbind, comp_bind. cbn. reflexivity.
Qed.

(** A region whose mask cannot be built at its turn: the exception of the
    handler leaves [_apply_all_effects] with what the earlier regions
    printed, and the regions after it are not reached. *)
Lemma mask_failure_leaves_the_redraw (st : editor) (scaled_image : image)
    (earlier later : list circle) (r : circle) (acc : image)
    (d0 : list diagnostic) (e : pyexn) :
  circles st = earlier ++ r :: later ->
  composite fl st (copy scaled_image) earlier = Comp (Ok acc) d0 ->
  filled_circle_mask acc (center r) (radius r) = Raise e ->
  _apply_all_effects fl st scaled_image = Comp (Raise UnboundLocalError) d0.
Proof.
  intros Hcs Hacc Hm.
  unfold _apply_all_effects. rewrite Hcs, composite_app, Hacc.
  unfold mbind at 1, comp_bind at 1. cbn [outcome printed composite].
  unfold composite_step. rewrite (apply_effect_mask_failed st acc r e Hm).
  unfold mbind, comp_bind. cbn. now rewrite app_nil_r.
Qed.

End CompositorFacts.

Lemma effects_compose_in_store_order_witness :
  _apply_effect fl_exact overlap_editor after_left right_invert
  = Comp (Ok right_blended) [] /\
  (forall y x : Z,
     px right_blended y x
     = if mask_at right_mask y x
       then px after_left_inverted y x else px after_left y x) /\
  _apply_all_effects fl_exact overlap_editor sample_image
  = Comp (outcome (composite fl_exact overlap_editor after_right []))
      ([] ++ printed (composite fl_exact overlap_editor after_right [])).
Proof.
  apply (effects_compose_in_store_order fl_exact (cv := grid_cv)
           overlap_editor sample_image [left_invert] [] right_invert
           after_left [] right_mask after_left_inverted right_blended
           after_right);
    vm_compute; reflexivity.
Defined.

(** Two overlapping Invert regions on a uniform image: a pixel in the
    overlap is inverted twice and shows the source colour again, a pixel
    of the left region alone is inverted once.  Compositing each region on
    the source would invert both. *)
Example overlapping_inverts_stack :
  match outcome (_apply_all_effects fl_exact overlap_editor sample_image) with
  | Ok img =>
      px sample_image 7 8 = (10, 20, 30) /\
      px img 7 8 = (10, 20, 30) /\
      px img 7 3 = (245, 235, 225)
  | Raise _ => False
  end.
Proof. vm_compute. repeat split. Qed.

(** The same redraw stage by stage: the pixel of the overlap is inverted
    in the image after the left region, lies in the mask of the right
    region, and is inverted back by it; the pixel of the right region alone
    is inverted once. *)
Example overlap_stage_by_stage :
  px after_left 7 8 = (245, 235, 225) /\
  mask_at right_mask 7 8 = true /\
  px right_blended 7 8 = (10, 20, 30) /\
  px after_left 7 13 = (10, 20, 30) /\
  mask_at right_mask 7 13 = true /\
  px right_blended 7 13 = (245, 235, 225) /\
  outcome (_apply_all_effects fl_exact overlap_editor sample_image)
  = Ok after_right.
Proof. vm_compute. repeat split. Qed.

(** Compositing an empty store returns the source and prints nothing. *)
Example empty_store_identity :
  _apply_all_effects fl_exact init_editor sample_image
  = Comp (Ok sample_image) [].
Proof. reflexivity. Qed.

(** C4.  The code at a failing input.  A file of regions whose first
    record has a radius of -1 is restored as it is; in the redraw of that
    store [cv2.circle] rejects the radius while the mask of the first
    region is built, the handler of [_apply_effect] reads [mode], which is
    not yet bound, and raises in its turn.  Nothing is printed, the
    exception leaves [_apply_all_effects], and the second region is
    neither composited nor outlined: its redraw alone would return. *)
Theorem negative_radius_aborts_the_redraw :
  restore_circles file_with_negative_radius
  = (loaded_of_circle <$> circles negative_radius_editor, MsgRestored 2) /\
  filled_circle_mask sample_image (center negative_radius_region)
    (radius negative_radius_region) = Raise cv2_error /\
  _apply_effect fl_exact negative_radius_editor sample_image
    negative_radius_region = Comp (Raise UnboundLocalError) [] /\
  _apply_all_effects fl_exact negative_radius_editor sample_image
  = Comp (Raise UnboundLocalError) [] /\
  (exists img : grid,
     _apply_all_effects fl_exact (set_circles init_editor [left_invert])
       sample_image = Comp (Ok img) []).
Proof.
  split; [vm_compute; reflexivity |].
  split; [reflexivity |]. split; [reflexivity |]. split; [reflexivity |].
  eexists. vm_compute. reflexivity.
Qed.

(** ** Label layout *)

Lemma check_label_collision_false (r : rect) (existing : list rect) :
  _check_label_collision r existing = false <-> Forall (rects_apart r) existing.
Proof.
  destruct r as [[[x1 y1] x2] y2].
  induction existing as [| [[[ex1 ey1] ex2] ey2] existing IH].
  - split; [constructor | reflexivity].
  - cbn [_check_label_collision]. rewrite Forall_cons, <- IH.
    unfold rects_apart. rewrite !Z.gtb_ltb.
    destruct (x2 + 5 <? ex1) eqn:E1, (ex2 <? x1 - 5) eqn:E2,
      (y2 + 5 <? ey1) eqn:E3, (ey2 <? y1 - 5) eqn:E4; cbn;
      rewrite ?Z.ltb_lt, ?Z.ltb_ge in *; split;
      try (intros; split; [lia | tauto]); try tauto; try discriminate;
      intros [? ?]; lia.
Qed.

Section SearchFacts.

Variables (center : Z * Z) (radius text_w text_h baseline padding : Z).
Variable image_size : Z * Z.
Variable existing_rects : list rect.

Lemma search_position_sound (pos_x label_y : Z) (r : rect) :
  search_position center radius text_w text_h baseline padding image_size
    existing_rects = Some (pos_x, label_y, r) ->
  r = label_rect_at text_w text_h baseline padding pos_x label_y /\
  within_image padding image_size r = true /\
  _check_label_collision r existing_rects = false.
Proof.
  unfold search_position.
  destruct (List.find _ _) as [[px py] |] eqn:F; [| discriminate].
  intros [= <- <- <-]. apply find_some in F as [_ F].
  unfold candidate_fits in F. apply andb_true_iff in F as [F1 F2].
  apply negb_true_iff in F2. auto.
Qed.

Lemma find_position_of_search (found : Z * Z * rect) :
  search_position center radius text_w text_h baseline padding image_size
    existing_rects = Some found ->
  _find_non_overlapping_position center radius text_w text_h baseline padding
    image_size existing_rects = found.
Proof. unfold _find_non_overlapping_position. now intros ->. Qed.

End SearchFacts.

Section LayoutFacts.

Variable fl : Q -> Q.
Variable getTextSize : string -> Q -> Z -> (Z * Z) * Z.

Lemma nonempty_false (s : string) : nonempty s = false <-> s = "".
Proof. destruct s; cbn; split; congruence. Qed.

(** Every drawing made from position [idx] on belongs to a labelled region
    of the list, at the position that its number gives. *)
Lemma draw_labels_from_sound (cs : list circle) :
  forall (idx : nat) image_size scale thickness existing (d : label_drawing),
    d ∈ draw_labels_from fl getTextSize idx cs image_size scale thickness
          existing ->
    exists c : circle,
      (idx <= ld_index d)%nat /\
      cs !! (ld_index d - idx)%nat = Some c /\
      label c <> "" /\
      ld_text d = full_label_of (ld_index d) c /\
      snd (ld_line d) = center c /\
      ld_color d = mode_colors (mode c).
Proof.
  induction cs as [| c cs IH]; intros idx image_size scale thickness existing d;
    cbn [draw_labels_from].
  - intros H. inversion H.
  - destruct (nonempty (label c)) eqn:El; cbn [negb].
    + destruct (getTextSize _ _ _) as [[tw th] bl].
      destruct (_find_non_overlapping_position _ _ _ _ _ _ _ _) as [[lx ly] lr].
      intros H. apply elem_of_cons in H as [-> | H].
      * exists c. cbn. rewrite Nat.sub_diag. repeat split; try reflexivity; try lia.
        intros E. rewrite E in El. discriminate.
      * destruct (IH _ _ _ _ _ _ H) as (c' & Hle & Hl & Hn & Ht & Hc & Hk).
        exists c'. repeat split; try assumption; try lia.
        replace (ld_index d - idx)%nat with (S (ld_index d - S idx)) by lia.
        exact Hl.
    + intros H.
      destruct (IH _ _ _ _ _ _ H) as (c' & Hle & Hl & Hn & Ht & Hc & Hk).
      exists c'. repeat split; try assumption; try lia.
      replace (ld_index d - idx)%nat with (S (ld_index d - S idx)) by lia.
      exact Hl.
Qed.

(** Every labelled region of the list has its drawing, numbered by its
    position. *)
Lemma draw_labels_from_complete (cs : list circle) :
  forall (idx : nat) image_size scale thickness existing (n : nat) (c : circle),
    cs !! n = Some c -> label c <> "" ->
    exists d : label_drawing,
      d ∈ draw_labels_from fl getTextSize idx cs image_size scale thickness
            existing /\
      ld_index d = (idx + n)%nat /\
      ld_text d = full_label_of (idx + n) c.
Proof.
  induction cs as [| c0 cs IH]; intros idx image_size scale thickness existing n c Hn Hl.
  - discriminate.
  - cbn [draw_labels_from]. destruct n as [| n].
    + injection Hn as ->.
      destruct (nonempty (label c)) eqn:El.
      2:{ apply nonempty_false in El. contradiction. }
      cbn [negb]. destruct (getTextSize _ _ _) as [[tw th] bl].
      destruct (_find_non_overlapping_position _ _ _ _ _ _ _ _) as [[lx ly] lr].
      eexists. split; [apply list_elem_of_here |]. cbn.
      rewrite Nat.add_0_r. split; reflexivity.
    + cbn in Hn.
      destruct (nonempty (label c0)); cbn [negb].
      * destruct (getTextSize _ _ _) as [[tw th] bl].
        destruct (_find_non_overlapping_position _ _ _ _ _ _ _ _) as [[lx ly] lr].
        destruct (IH (S idx) image_size scale thickness (existing ++ [lr]) n c Hn Hl)
          as (d & Hd & Hi & Ht).
        exists d. split; [now apply list_elem_of_further |].
        replace (idx + S n)%nat with (S idx + n)%nat by lia. now split.
      * destruct (IH (S idx) image_size scale thickness existing n c Hn Hl)
          as (d & Hd & Hi & Ht).
        exists d. split; [assumption |].
        replace (idx + S n)%nat with (S idx + n)%nat by lia. now split.
Qed.

(** The drawings come in the order of the store: their numbers grow. *)
Lemma draw_labels_from_increasing (cs : list circle) :
  forall (idx : nat) image_size scale thickness existing
         (i j : nat) (di dj : label_drawing),
    (i < j)%nat ->
    draw_labels_from fl getTextSize idx cs image_size scale thickness existing
      !! i = Some di ->
    draw_labels_from fl getTextSize idx cs image_size scale thickness existing
      !! j = Some dj ->
    (ld_index di < ld_index dj)%nat.
Proof.
  induction cs as [| c cs IH];
    intros idx image_size scale thickness existing i j di dj Hlt;
    cbn [draw_labels_from].
  - discriminate.
  - destruct (nonempty (label c)); cbn [negb]; [| now apply IH].
    destruct (getTextSize _ _ _) as [[tw th] bl].
    destruct (_find_non_overlapping_position _ _ _ _ _ _ _ _) as [[lx ly] lr].
    destruct j as [| j]; [lia |]. destruct i as [| i]; cbn.
    + intros [= <-] Hj. cbn.
      assert (Hin : dj ∈ draw_labels_from fl getTextSize (S idx) cs image_size
                      scale thickness (existing ++ [lr])).
      { apply list_elem_of_lookup. now exists j. }
      destruct (draw_labels_from_sound _ _ _ _ _ _ _ Hin) as (_ & Hle & _).
      lia.
    + apply IH. lia.
Qed.

End LayoutFacts.

Section CollisionFacts.

Variable fl : Q -> Q.
Variable getTextSize : string -> Q -> Z -> (Z * Z) * Z.

(** A label whose position the loops found keeps clear of every rectangle
    present when it was placed and of every label drawn before it. *)
Lemma draw_labels_from_apart (cs : list circle) :
  forall (idx : nat) image_size scale thickness existing
         (j : nat) (dj : label_drawing),
    draw_labels_from fl getTextSize idx cs image_size scale thickness existing
      !! j = Some dj ->
    found_by_search_from fl getTextSize idx cs image_size scale thickness
      existing !! j = Some true ->
    Forall (rects_apart (ld_rect dj)) existing /\
    forall (i : nat) (di : label_drawing),
      (i < j)%nat ->
      draw_labels_from fl getTextSize idx cs image_size scale thickness
        existing !! i = Some di ->
      rects_apart (ld_rect dj) (ld_rect di).
Proof.
  induction cs as [| c cs IH]; intros idx image_size scale thickness existing j dj;
    cbn [draw_labels_from found_by_search_from].
  - discriminate.
  - destruct (nonempty (label c)); cbn [negb]; [| apply IH].
    destruct (getTextSize _ _ _) as [[tw th] bl].
    destruct (search_position _ _ _ _ _ _ _ _) as [[[sx sy] sr] |] eqn:Hs.
    + rewrite (find_position_of_search _ _ _ _ _ _ _ _ _ Hs).
      apply search_position_sound in Hs as (_ & _ & Hfree).
      apply check_label_collision_false in Hfree.
      destruct j as [| j]; cbn.
      * intros [= <-] _. cbn. split; [exact Hfree |]. intros i di Hi. lia.
      * intros Hj Hb. destruct (IH _ _ _ _ _ _ _ Hj Hb) as [Hex Hprev].
        apply Forall_app in Hex as [Hex Hlast].
        split; [exact Hex |]. intros [| i] di Hi; cbn.
        -- intros [= <-]. cbn. now inversion Hlast.
        -- apply Hprev. lia.
    + destruct (_find_non_overlapping_position _ _ _ _ _ _ _ _) as [[lx ly] lr].
      destruct j as [| j]; cbn.
      * intros _ [=].
      * intros Hj Hb. destruct (IH _ _ _ _ _ _ _ Hj Hb) as [Hex Hprev].
        apply Forall_app in Hex as [Hex Hlast].
        split; [exact Hex |]. intros [| i] di Hi; cbn.
        -- intros [= <-]. cbn. now inversion Hlast.
        -- apply Hprev. lia.
Qed.

Lemma rects_apart_not_overlap (a b : rect) :
  rects_apart a b -> ~ rects_overlap a b.
Proof.
  destruct a as [[[x1 y1] x2] y2], b as [[[ex1 ey1] ex2] ey2].
  unfold rects_apart, rects_overlap. lia.
Qed.

(** C6 as the code has it.  A label whose position the loops found passes
    the collision test against all the labels drawn before it in the
    redraw: it is more than the buffer of five pixels away from each of
    them on some axis, and overlaps none.  A label placed by the last
    resort is not tested. *)
Theorem searched_labels_do_not_collide (st : editor) (image_size : Z * Z)
    (j : nat) (dj : label_drawing) :
  let drawn := _draw_all_labels_smart fl getTextSize st image_size in
  drawn !! j = Some dj ->
  found_by_search fl getTextSize st image_size !! j = Some true ->
  _check_label_collision (ld_rect dj) (ld_rect <$> take j drawn) = false /\
  forall (i : nat) (di : label_drawing),
    (i < j)%nat -> drawn !! i = Some di ->
    rects_apart (ld_rect dj) (ld_rect di) /\
    ~ rects_overlap (ld_rect dj) (ld_rect di).
Proof.
  unfold _draw_all_labels_smart, found_by_search.
  destruct (show_labels st); cbn [negb]; [| discriminate].
  destruct (_get_dynamic_label_params fl image_size) as [scale thickness].
  cbn zeta. intros Hj Hb.
  destruct (draw_labels_from_apart _ _ _ _ _ _ _ _ Hj Hb) as [_ Hprev].
  assert (Hall : forall i di, (i < j)%nat ->
            draw_labels_from fl getTextSize 1 (circles st) image_size scale
              thickness [] !! i = Some di ->
            rects_apart (ld_rect dj) (ld_rect di)) by exact Hprev.
  split.
  - apply check_label_collision_false. apply Forall_forall.
    intros r Hr. apply list_elem_of_fmap in Hr as (di & -> & Hdi).
    apply list_elem_of_lookup in Hdi as [i Hi].
    apply lookup_take_Some in Hi as [Hi Hlt]. now apply (Hall i).
  - intros i di Hlt Hi. split; [now apply (Hall i) |].
    apply rects_apart_not_overlap. now apply (Hall i).
Qed.

(** C10.  Every label drawn belongs to a region with a non-empty label
    and carries the 1-based store position of that region in its text
    [#n [MOD] label], with the connector ending at the region's centre; a
    region with the empty label gets no drawing at all, connector
    included, and still counts in the numbering; with labels shown, every
    labelled region at position [n + 1] is drawn with the prefix of that
    number; and the drawings follow the order of the store, one for each
    number. *)
Theorem labels_numbered_by_store_position (st : editor) (image_size : Z * Z) :
  let drawn := _draw_all_labels_smart fl getTextSize st image_size in
  (forall d : label_drawing, d ∈ drawn ->
     exists c : circle,
       (1 <= ld_index d)%nat /\
       circles st !! (ld_index d - 1)%nat = Some c /\
       label c <> "" /\
       ld_text d
       = "#" +:+ str_of_nat (ld_index d) +:+ " [" +:+
         upper (first3 (value (mode c))) +:+ "] " +:+ label c /\
       snd (ld_line d) = center c) /\
  (forall (n : nat) (c : circle),
     circles st !! n = Some c -> label c = "" ->
     forall d : label_drawing, d ∈ drawn -> ld_index d <> S n) /\
  (show_labels st = true ->
   forall (n : nat) (c : circle),
     circles st !! n = Some c -> label c <> "" ->
     exists d : label_drawing,
       d ∈ drawn /\ ld_index d = S n /\
       ld_text d
       = "#" +:+ str_of_nat (S n) +:+ " [" +:+
         upper (first3 (value (mode c))) +:+ "] " +:+ label c) /\
  (forall (i j : nat) (di dj : label_drawing),
     (i < j)%nat -> drawn !! i = Some di -> drawn !! j = Some dj ->
     (ld_index di < ld_index dj)%nat).
Proof.
  cbn zeta. unfold _draw_all_labels_smart.
  destruct (show_labels st); cbn [negb].
  - destruct (_get_dynamic_label_params fl image_size) as [scale thickness].
    split; [| split; [| split]].
    + intros d Hd.
      destruct (draw_labels_from_sound fl getTextSize _ _ _ _ _ _ _ Hd)
        as (c & Hle & Hl & Hn & Ht & Hc & _).
      exists c. now repeat split.
    + intros n c Hn Hl d Hd E.
      destruct (draw_labels_from_sound fl getTextSize _ _ _ _ _ _ _ Hd)
        as (c' & Hle & Hl' & Hn' & _).
      rewrite E in Hl'. cbn in Hl'. rewrite Nat.sub_0_r in Hl'. congruence.
    + intros _ n c Hn Hl.
      destruct (draw_labels_from_complete fl getTextSize _ 1%nat image_size
                  scale thickness [] n c Hn Hl) as (d & Hd & Hi & Ht).
      exists d. now repeat split.
    + intros i j di dj.
      apply (draw_labels_from_increasing fl getTextSize).
  - split; [| split; [| split]].
    + intros d Hd. inversion Hd.
    + intros n c _ _ d Hd. inversion Hd.
    + discriminate.
    + discriminate.
Qed.

End CollisionFacts.

Example label_layout_of_three_regions :
  (fun d => (ld_index d, ld_text d, ld_rect d))
    <$> _draw_all_labels_smart fl_exact fixed_pitch labelled_editor working_size
  = [ (1%nat, "#1 [BLU] face", (246, 211, 384, 236));
      (3%nat, "#3 [INV] cat", (246, 381, 374, 406)) ] /\
  found_by_search fl_exact fixed_pitch labelled_editor working_size
  = [true; true].
Proof. split; vm_compute; reflexivity. Qed.

Lemma searched_labels_do_not_collide_witness :
  _check_label_collision (ld_rect cat_drawing)
    (ld_rect <$>
       take 1 (_draw_all_labels_smart fl_exact fixed_pitch labelled_editor
                 working_size)) = false /\
  forall (i : nat) (di : label_drawing),
    (i < 1)%nat ->
    _draw_all_labels_smart fl_exact fixed_pitch labelled_editor working_size
      !! i = Some di ->
    rects_apart (ld_rect cat_drawing) (ld_rect di) /\
    ~ rects_overlap (ld_rect cat_drawing) (ld_rect di).
Proof.
  apply (searched_labels_do_not_collide fl_exact fixed_pitch labelled_editor
           working_size 1 cat_drawing); vm_compute; reflexivity.
Defined.

(** The claim fails as stated: two short labels on a 1400 by 900 image,
    together under a hundredth of its area, both fall to the last resort
    and are drawn on the same rectangle. *)
Lemma last_resort_labels_overlap :
  exists d1 d2 : label_drawing,
    _draw_all_labels_smart fl_exact fixed_pitch oversized_editor working_size
    = [d1; d2] /\
    found_by_search fl_exact fixed_pitch oversized_editor working_size
    = [false; false] /\
    ld_rect d1 = (696, 0, 804, 25) /\
    ld_rect d2 = (696, 0, 804, 25) /\
    _check_label_collision (ld_rect d2) [ld_rect d1] = true /\
    rects_overlap (ld_rect d2) (ld_rect d1) /\
    (rect_area (ld_rect d1) + rect_area (ld_rect d2)) * 100
    <= fst working_size * snd working_size.
Proof.
  do 2 eexists. split; [vm_compute; reflexivity |].
  split; [vm_compute; reflexivity |]. cbn.
  repeat split; try reflexivity; try lia; discriminate.
Qed.

Lemma labels_numbered_by_store_position_witness :
  exists d : label_drawing,
    d ∈ _draw_all_labels_smart fl_exact fixed_pitch labelled_editor working_size
    /\ ld_index d = 3%nat /\
    ld_text d
    = "#" +:+ str_of_nat 3 +:+ " [" +:+ upper (first3 (value INVERT)) +:+ "] "
      +:+ "cat".
Proof.
  destruct (labels_numbered_by_store_position fl_exact fixed_pitch
              labelled_editor working_size) as (_ & _ & Hshown & _).
  exact (Hshown eq_refl 2%nat
           {| center := (310, 305); radius := 60; mode := INVERT;
              label := "cat" |}
           eq_refl ltac:(discriminate)).
Defined.

(** With the labels switched off nothing is drawn. *)
Example hidden_labels_draw_nothing :
  _draw_all_labels_smart fl_exact fixed_pitch
    (set_show_labels labelled_editor false) working_size = [].
Proof. reflexivity. Qed.

(** ** Region export and import *)

Lemma EditMode_of_value_value (m : EditMode) :
  EditMode_of_value (JStr (value m)) = Ok m.
Proof. destruct m; reflexivity. Qed.

Lemma EditMode_of_value_unknown (s : string) :
  (forall m : EditMode, value m <> s) ->
  EditMode_of_value (JStr s) = Raise ValueError.
Proof.
  intros H. unfold EditMode_of_value.
  destruct (List.find _ _) as [m |] eqn:F; [| reflexivity].
  apply find_some in F as [_ F]. apply String.eqb_eq in F.
  now destruct (H m).
Qed.

Lemma export_fields_lookup (idx : nat) (c : circle) :
  export_fields idx c !! "mode" = Some (JStr (value (mode c))) /\
  export_fields idx c !! "center"
    = Some (JList [JInt (fst (center c)); JInt (snd (center c))]) /\
  export_fields idx c !! "radius" = Some (JInt (radius c)) /\
  export_fields idx c !! "label" = Some (JStr (label c)).
Proof. unfold export_fields. repeat split; by simplify_map_eq. Qed.

Lemma load_export_record (idx : nat) (c : circle) :
  load_object (export_record idx c) = Ok (loaded_of_circle c).
Proof.
  destruct (export_fields_lookup idx c) as (Hm & Hc & Hr & Hl).
  unfold load_object, export_record, py_get, py_getitem. cbn [mbind res_bind].
  rewrite Hm, Hc, Hr, Hl. cbn -[EditMode_of_value].
  now rewrite EditMode_of_value_value.
Qed.

Lemma load_export_records (cs : list circle) (idx : nat) :
  load_objects (export_records_from idx cs) = Ok (loaded_of_circle <$> cs).
Proof.
  revert idx. induction cs as [| c cs IH]; intros idx;
    cbn [export_records_from load_objects fmap list_fmap]; [reflexivity |].
  rewrite load_export_record. cbn [mbind res_bind]. now rewrite IH.
Qed.

(** C3.  Loading the file that [save_current] writes for a store gives
    the regions of the store, in order, each with the centre, radius, mode
    and label it was saved with; the [id] of a record plays no part.  A
    record whose mode string is none of the seven values loads with mode
    Highlight. *)
Theorem export_import_roundtrip :
  (forall (source_image timestamp : string) (cs : list circle),
     restore_circles (labels_data source_image timestamp cs)
     = (loaded_of_circle <$> cs, MsgRestored (length cs))) /\
  (forall (idx : nat) (r : circle),
     exists l : loaded_circle,
       load_object (export_record idx r) = Ok l /\
       circle_of_loaded l = Some r) /\
  (forall (d : gmap string json) (s : string) (c r : json) (items : list json),
     d !! "mode" = Some (JStr s) ->
     (forall m : EditMode, value m <> s) ->
     d !! "center" = Some c -> py_iter c = Ok items ->
     d !! "radius" = Some r ->
     load_object (JDict d)
     = Ok {| l_center := items; l_radius := r; l_mode := HIGHLIGHT;
             l_label := default (JStr "") (d !! "label") |}).
Proof.
  split; [| split].
  - intros source_image timestamp cs. unfold restore_circles, labels_data, py_get.
    cbn [mbind res_bind].
    replace (_ !! "objects") with (Some (JList (export_records_from 1 cs)))
      by (symmetry; by simplify_map_eq).
    cbn [default from_option id py_iter mbind res_bind].
    rewrite load_export_records.
    now rewrite length_fmap.
  - intros idx r. exists (loaded_of_circle r). split.
    + apply load_export_record.
    + destruct r as [[x y] rad m l]. reflexivity.
  - intros d s c r items Hm Hs Hc Hi Hr.
    unfold load_object, py_get, py_getitem. cbn [mbind res_bind].
    rewrite Hm, Hc. cbn -[EditMode_of_value]. rewrite Hi.
    cbn -[EditMode_of_value]. rewrite Hr. cbn -[EditMode_of_value].
    now rewrite (EditMode_of_value_unknown s Hs).
Qed.





Lemma export_import_roundtrip_witness :
  restore_circles (labels_data "a.png" "2024-01-01T00:00:00" [face_region])
  = ([loaded_of_circle face_region], MsgRestored 1) /\
  load_object (JDict record_with_odd_mode)
  = Ok {| l_center := [JInt 5; JInt 6]; l_radius := JInt 7;
          l_mode := HIGHLIGHT; l_label := JStr "" |}.
Proof.
  destruct export_import_roundtrip as (Hfile & _ & Hmode).
  split.
  - exact (Hfile "a.png" "2024-01-01T00:00:00" [face_region]).
  - apply (Hmode record_with_odd_mode "sepia" (JList [JInt 5; JInt 6])
             (JInt 7) [JInt 5; JInt 6]); try reflexivity.
    intros m; destruct m; discriminate.
Defined.

(** The export record of the scenario of the specification. *)
Example export_record_of_face :
  export_fields 1 face_region
  = <["id" := JInt 1]>
      (<["label" := JStr "face"]>
      (<["mode" := JStr "blur"]>
      (<["center" := JList [JInt 100; JInt 100]]>
      (<["radius" := JInt 50]> ∅)))).
Proof. reflexivity. Qed.

Lemma has_geometry_face : has_geometry (export_fields 1 face_region).
Proof.
  exists (JList [JInt 100; JInt 100]), (JInt 50), [JInt 100; JInt 100].
  repeat split.
Qed.

Lemma has_geometry_odd_mode : has_geometry record_with_odd_mode.
Proof.
  exists (JList [JInt 5; JInt 6]), (JInt 7), [JInt 5; JInt 6]. repeat split.
Qed.


(** The file of the witness, loaded: the second region has mode Highlight
    and the empty label. *)
Example odd_mode_file_loads :
  restore_circles (JDict file_with_odd_mode)
  = ([ loaded_of_circle face_region;
       {| l_center := [JInt 5; JInt 6]; l_radius := JInt 7;
          l_mode := HIGHLIGHT; l_label := JStr "" |} ],
     MsgRestored 2).
Proof. vm_compute. reflexivity. Qed.


(** * Part III: further properties *)

(** Case analysis on the tests of a handler. *)
Ltac split_ifs :=
  repeat match goal with
    | |- context [if ?b then _ else _] =>
        let E := fresh "E" in destruct b eqn:E
    end.

Ltac split_tests :=
  repeat match goal with
    | |- context [if ?b then _ else _] =>
        let E := fresh "E" in destruct b eqn:E
    | |- context [match self_center ?s with _ => _ end] =>
        let E := fresh "E" in destruct (self_center s) as [[? ?] |] eqn:E
    | |- context [int_sqrt ?n] =>
        let E := fresh "E" in destruct (int_sqrt n) eqn:E
    end.

(** ** Pointer events *)

Section PointerFacts.

Variable fl : Q -> Q.

(** X1.  No pointer event touches the region store, the effect mode, the
    effect parameters, the label switch or the zoom limits: whatever the
    event, these are after the callback what they were before. *)
Theorem pointer_events_keep_the_store (st st' : editor) (now : Q)
    (ev : mouse_event) (x y flags : Z) (acts : list ui_action) :
  _mouse_callback fl st now ev x y flags = Ok (st', acts) ->
  circles st' = circles st /\
  current_mode st' = current_mode st /\
  _blur_kernel st' = _blur_kernel st /\
  _pixelate_size st' = _pixelate_size st /\
  highlight_alpha st' = highlight_alpha st /\
  show_labels st' = show_labels st /\
  min_zoom st' = min_zoom st /\ max_zoom st' = max_zoom st.
Proof.
  unfold _mouse_callback, _screen_to_image_coords, fdiv, _enter_label_input_mode.
  destruct ev;
    repeat match goal with
      | |- context [if ?b then _ else _] => destruct b
      | |- context [match self_center ?s with _ => _ end] =>
          destruct (self_center s) as [[? ?] |]
      end;
    cbn;
    repeat match goal with
      | |- context [int_sqrt ?n] => destruct (int_sqrt n)
      end;
    cbn; intros H; try discriminate; injection H as <- _; cbn;
    repeat split.
Qed.

(** X2.  A pan gesture: pressing the secondary button at [(x0, y0)],
    moving to [(x1, y1)] and releasing moves the pan offset by exactly the
    displacement of the pointer, whatever the zoom, and changes neither the
    zoom nor the store. *)
Theorem pan_gesture_follows_pointer (st : editor) (t0 t1 t2 : Q)
    (x0 y0 x1 y1 x2 y2 f0 f1 f2 : Z) :
  exists st1 st2 st3 : editor,
    _mouse_callback fl st t0 EVENT_RBUTTONDOWN x0 y0 f0 = Ok (st1, []) /\
    _mouse_callback fl st1 t1 EVENT_MOUSEMOVE x1 y1 f1
      = Ok (st2, [UpdateDisplay]) /\
    _mouse_callback fl st2 t2 EVENT_RBUTTONUP x2 y2 f2 = Ok (st3, []) /\
    is_panning st1 = true /\ is_panning st3 = false /\
    pan_x st3 = pan_x st + (x1 - x0) /\
    pan_y st3 = pan_y st + (y1 - y0) /\
    zoom_level st3 = zoom_level st /\
    circles st3 = circles st.
Proof.
  do 3 eexists. cbn. repeat split;
    unfold set_is_panning, set_pan, set_pan_start; cbn; lia.
Qed.

End PointerFacts.

(** ** The label buffer under typing *)

Lemma string_app_nil_r (s : string) : s +:+ "" = s.
Proof.
  induction s as [| c s IH]; [reflexivity |].
  exact (f_equal (String c) IH).
Qed.

Lemma string_app_assoc (a b c : string) : (a +:+ b) +:+ c = a +:+ (b +:+ c).
Proof.
  induction a as [| x a IH]; [reflexivity |].
  exact (f_equal (String x) IH).
Qed.

Lemma drop_last_snoc (s : string) (c : ascii) :
  drop_last (s +:+ String c "") = s.
Proof.
  induction s as [| x s IH]; [reflexivity |].
  change (drop_last (String x (s +:+ String c "")) = String x s).
  cbn [drop_last]. destruct (s +:+ String c "") eqn:E.
  - destruct s; discriminate.
  - now rewrite IH.
Qed.

Lemma printable_app (a b : string) :
  printable (a +:+ b) = printable a && printable b.
Proof.
  induction a as [| c a IH]; [reflexivity |].
  change (printable (String c a +:+ b))
    with (printable_char c && printable (a +:+ b)).
  cbn [printable]. now rewrite IH, andb_assoc.
Qed.

Lemma printable_drop_last (s : string) :
  printable s = true -> printable (drop_last s) = true.
Proof.
  induction s as [| c s IH]; [reflexivity |]. cbn [printable drop_last].
  intros H. apply andb_true_iff in H as [Hc Hs].
  destruct s; [reflexivity |]. cbn [printable]. rewrite Hc. now apply IH.
Qed.

Lemma printable_lstrip (s : string) :
  printable s = true -> printable (lstrip s) = true.
Proof.
  induction s as [| c s IH]; [reflexivity |]. cbn [printable lstrip].
  intros H. destruct (isspace c); [| exact H].
  apply andb_true_iff in H as [_ Hs]. now apply IH.
Qed.

Lemma printable_rstrip (s : string) :
  printable s = true -> printable (rstrip s) = true.
Proof.
  induction s as [| c s IH]; [reflexivity |]. cbn [printable rstrip].
  intros H. apply andb_true_iff in H as [Hc Hs]. specialize (IH Hs).
  destruct (rstrip s).
  - destruct (isspace c); [reflexivity |]. cbn [printable]. now rewrite Hc.
  - cbn [printable] in *. now rewrite Hc, IH.
Qed.

Lemma printable_strip (s : string) :
  printable s = true -> printable (strip s) = true.
Proof. intros H. now apply printable_rstrip, printable_lstrip. Qed.

Lemma stripped_strip (s : string) : stripped (strip s).
Proof.
  destruct (strip_spec s) as (_ & _ & _ & _ & _ & Hf & Hl & _).
  now split.
Qed.

Lemma ord_chr (key : Z) : 0 <= key < 256 -> ord (chr key) = key.
Proof.
  intros H. unfold ord, chr. rewrite N_ascii_embedding by lia. lia.
Qed.

Lemma printable_key_char (key : Z) :
  printable_key key = true -> printable_char (chr key) = true.
Proof.
  unfold printable_key, printable_char. intros H.
  rewrite ord_chr; [exact H |]. lia.
Qed.

Lemma printable_text_of_keys (keys : list Z) :
  forallb printable_key keys = true -> printable (text_of_keys keys) = true.
Proof.
  induction keys as [| key keys IH]; [reflexivity |]. cbn.
  intros H. apply andb_true_iff in H as [Hk Hks].
  now rewrite printable_key_char, IH.
Qed.

(** A printable key in label input is appended to the buffer. *)
Lemma run_key_printable (st : editor) (key : Z) (sub : list Z) :
  label_input_mode st = true -> printable_key key = true ->
  run_key st key sub
  = Handled (set_current_label st (current_label st +:+ String (chr key) ""))
      [UpdateDisplayWithInput].
Proof.
  unfold printable_key, run_key, key_command. intros -> H.
  destruct (key =? 27) eqn:E1; [lia |].
  destruct (key =? 13) eqn:E2; [lia |].
  destruct (key =? 8) eqn:E3; [lia |].
  now rewrite H.
Qed.

Lemma run_keys_printable (keys : list Z) :
  forall st : editor,
    label_input_mode st = true -> forallb printable_key keys = true ->
    exists acts : list ui_action,
      run_keys st keys
      = Handled
          (set_current_label st (current_label st +:+ text_of_keys keys)) acts.
Proof.
  induction keys as [| key keys IH]; intros st Hmode Hkeys.
  - exists []. cbn [run_keys text_of_keys]. rewrite string_app_nil_r.
    now destruct st.
  - cbn [forallb] in Hkeys. apply andb_true_iff in Hkeys as [Hk Hks].
    cbn [run_keys text_of_keys]. rewrite (run_key_printable st key [] Hmode Hk).
    destruct (IH (set_current_label st
                    (current_label st +:+ String (chr key) "")))
      as [acts E]; [exact Hmode | exact Hks |].
    rewrite E. eexists. f_equal. cbn [current_label set_current_label].
    now rewrite string_app_assoc.
Qed.

Lemma run_keys_app (a b : list Z) (st : editor) :
  run_keys st (a ++ b)
  = match run_keys st a with
    | Handled st1 acts1 =>
        match run_keys st1 b with
        | Handled st2 acts2 => Handled st2 (acts1 ++ acts2)
        | other => other
        end
    | other => other
    end.
Proof.
  revert st. induction a as [| key a IH]; intros st; cbn [run_keys app].
  - now destruct (run_keys st b).
  - destruct (run_key st key []) as [st1 acts1 | | |]; try reflexivity.
    rewrite IH. destruct (run_keys st1 a) as [st2 acts2 | | |]; try reflexivity.
    destruct (run_keys st2 b); try reflexivity. now rewrite app_assoc.
Qed.

(** X3.  Label entry: in label input, with the centre of the drag on
    record, typing printable keys and then Enter appends exactly one
    region, whose label is the old buffer followed by the typed text,
    stripped; its centre, radius and mode are those of the drag, the regions
    already stored are untouched, and label input is over with an empty
    buffer. *)
Theorem typed_label_is_committed (st : editor) (c : Z * Z) (keys : list Z) :
  label_input_mode st = true ->
  self_center st = Some c ->
  forallb printable_key keys = true ->
  exists (st' : editor) (acts : list ui_action),
    run_keys st (keys ++ [13]) = Handled st' acts /\
    circles st'
    = circles st ++
      [{| center := c; radius := current_radius st; mode := current_mode st;
          label := strip (current_label st +:+ text_of_keys keys) |}] /\
    label_input_mode st' = false /\ current_label st' = "".
Proof.
  intros Hmode Hc Hkeys. rewrite run_keys_app.
  destruct (run_keys_printable keys st Hmode Hkeys) as [acts ->].
  cbn [run_keys]. unfold run_key, key_command.
  cbn [label_input_mode set_current_label]. rewrite Hmode.
  cbn [Z.eqb Pos.eqb]. unfold _exit_label_input_mode. cbn. rewrite Hc. cbn.
  do 2 eexists. repeat split.
Qed.

(** X4.  Backspace takes back the last keystroke: in label input, a
    printable key followed by the backspace key leaves the buffer, and the
    whole editor state with it, as before the two keys. *)
Theorem backspace_reverts_keystroke (st : editor) (key : Z) :
  label_input_mode st = true ->
  printable_key key = true ->
  exists acts : list ui_action, run_keys st [key; 8] = Handled st acts.
Proof.
  intros Hmode Hkey. cbn [run_keys].
  rewrite (run_key_printable st key [] Hmode Hkey).
  unfold run_key, key_command. cbn [label_input_mode set_current_label].
  rewrite Hmode. cbn [Z.eqb Pos.eqb current_label set_current_label].
  rewrite drop_last_snoc. eexists. f_equal. now destruct st.
Qed.

(** X5.  Undo reverts a commit: Enter in label input followed by the undo
    key leaves the region store as it was before the Enter, whatever the
    buffer held. *)
Theorem undo_reverts_commit (st : editor) (c : Z * Z) :
  label_input_mode st = true ->
  self_center st = Some c ->
  exists (st' : editor) (acts : list ui_action),
    run_keys st [13; ord "u"] = Handled st' acts /\
    circles st' = circles st /\
    PrintMsg (MsgRemoved (strip (current_label st))) ∈ acts /\
    label_input_mode st' = false /\
    current_mode st' = current_mode st /\
    zoom_level st' = zoom_level st /\
    (pan_x st', pan_y st') = (pan_x st, pan_y st).
Proof.
  intros Hmode Hc. cbn [run_keys]. unfold run_key at 1, key_command.
  rewrite Hmode. cbn [Z.eqb Pos.eqb]. unfold _exit_label_input_mode.
  cbn -[reverse run_key]. rewrite Hc. cbn -[reverse run_key strip].
  unfold run_key. cbn -[reverse strip].
  rewrite reverse_snoc, reverse_involutive.
  do 2 eexists. split; [reflexivity |]. cbn -[strip]. repeat split.
  set_solver.
Qed.

(** ** Relabelling the last region *)

Lemma set_last_label_snoc (cs : list circle) (c : circle) (l : string) :
  set_last_label (cs ++ [c]) l
  = cs ++ [{| center := center c; radius := radius c; mode := mode c;
              label := l |}].
Proof.
  unfold set_last_label. now rewrite reverse_snoc, reverse_involutive.
Qed.

Lemma set_last_label_nil (l : string) : set_last_label [] l = [].
Proof. reflexivity. Qed.

Lemma last_Some_snoc {A} (l : list A) (x : A) :
  last l = Some x -> exists l', l = l' ++ [x].
Proof.
  intros H. destruct l as [| y l] using rev_ind; [discriminate |].
  rewrite last_snoc in H. injection H as ->. now exists l.
Qed.

(** What the nested loop returns: the editor with label input over, the
    buffer empty, and the store either as it was (Escape) or with the last
    label replaced by a stripped buffer (Enter); nothing else differs. *)
Lemma edit_loop_result (keys : list Z) :
  forall (st : editor) (acts : list ui_action) (st' : editor)
         (acts' : list ui_action),
    edit_loop st acts keys = Some (st', acts') ->
    exists cs' : list circle,
      st' = set_current_label
              (set_label_input_mode (set_circles st cs') false) "" /\
      (cs' = circles st \/
       exists buf : string,
         cs' = set_last_label (circles st) (strip buf) /\
         (printable (current_label st) = true -> printable buf = true)).
Proof.
  induction keys as [| key keys IH]; intros st acts st' acts'; cbn [edit_loop].
  - discriminate.
  - destruct (key =? 27).
    { intros [= <- <-]. exists (circles st). split; [now destruct st | now left]. }
    destruct (key =? 13).
    { intros [= <- <-]. eexists. split; [reflexivity |]. right.
      exists (current_label st). split; [reflexivity | auto]. }
    destruct (key =? 8).
    { intros H. destruct (IH _ _ _ _ H) as (cs' & -> & Hcs). exists cs'.
      split; [reflexivity |]. destruct Hcs as [-> | (buf & -> & Hbuf)].
      - now left.
      - right. exists buf. split; [reflexivity |]. intros Hp. apply Hbuf.
        now apply printable_drop_last. }
    destruct ((32 <=? key) && (key <=? 126)) eqn:Hk.
    { intros H. destruct (IH _ _ _ _ H) as (cs' & -> & Hcs). exists cs'.
      split; [reflexivity |]. destruct Hcs as [-> | (buf & -> & Hbuf)].
      - now left.
      - right. exists buf. split; [reflexivity |]. intros Hp. apply Hbuf.
        cbn [current_label set_current_label]. rewrite printable_app, Hp.
        cbn. now rewrite (printable_key_char key Hk). }
    apply IH.
Qed.

Lemma edit_loop_typed (keys : list Z) :
  forall (st : editor) (acts : list ui_action) (rest : list Z),
    forallb printable_key keys = true ->
    exists acts' : list ui_action,
      edit_loop st acts (keys ++ rest)
      = edit_loop
          (set_current_label st (current_label st +:+ text_of_keys keys))
          acts' rest.
Proof.
  induction keys as [| key keys IH]; intros st acts rest Hkeys.
  - exists acts. cbn [app text_of_keys]. rewrite string_app_nil_r.
    now destruct st.
  - cbn [forallb] in Hkeys. apply andb_true_iff in Hkeys as [Hk Hks].
    cbn [app edit_loop]. pose proof Hk as Hk'. unfold printable_key in Hk'.
    destruct (key =? 27) eqn:E1; [lia |].
    destruct (key =? 13) eqn:E2; [lia |].
    destruct (key =? 8) eqn:E3; [lia |]. rewrite Hk'.
    destruct (IH (set_current_label st
                    (current_label st +:+ String (chr key) ""))
                 (acts ++ [UpdateDisplayWithInput]) rest Hks) as [acts' ->].
    exists acts'. cbn [current_label set_current_label text_of_keys].
    now rewrite string_app_assoc.
Qed.

Section RelabelFacts.

Variable fl : Q -> Q.

(** The loop on keys alone is the loop of [_edit_last_label]. *)
Lemma edit_loop_with_keys (keys : list Z) :
  forall (st : editor) (acts : list ui_action),
    edit_loop_with fl st acts (EditKey <$> keys) = Ok <$> edit_loop st acts keys.
Proof.
  induction keys as [| key keys IH]; intros st acts; [reflexivity |].
  cbn [fmap list_fmap edit_loop_with edit_step edit_loop]. unfold edit_key.
  destruct (key =? 27); [reflexivity |].
  destruct (key =? 13); [reflexivity |].
  destruct (key =? 8); [apply IH |].
  destruct ((32 <=? key) && (key <=? 126)); [apply IH |].
  rewrite app_nil_r. apply IH.
Qed.

Lemma edit_last_label_with_keys (st : editor) (keys : list Z) :
  _edit_last_label_with fl st (EditKey <$> keys) = _edit_last_label st keys.
Proof.
  unfold _edit_last_label_with, _edit_last_label.
  destruct (last (circles st)); [| reflexivity].
  destruct (self_center _); [apply edit_loop_with_keys | reflexivity].
Qed.

(** With no centre on record a label edit of a store that is not empty
    raises before it reads a key. *)
Lemma edit_last_label_without_centre (st : editor)
    (inputs : list edit_input) :
  circles st <> [] -> self_center st = None ->
  _edit_last_label_with fl st inputs = Some (Raise TypeError).
Proof.
  intros Hcs Hc. unfold _edit_last_label_with.
  destruct (last (circles st)) as [c |] eqn:El.
  - cbn [self_center set_label_input_mode set_current_label]. now rewrite Hc.
  - apply last_None in El. contradiction.
Qed.

(** A pointer event during label input changes the view at most. *)
Lemma pointer_in_label_input (st st' : editor) (now : Q) (ev : mouse_event)
    (x y flags : Z) (acts : list ui_action) :
  label_input_mode st = true ->
  _mouse_callback fl st now ev x y flags = Ok (st', acts) ->
  same_but_view st st'.
Proof.
  intros Hm. unfold _mouse_callback, _screen_to_image_coords, fdiv.
  rewrite Hm. cbn [orb]. destruct ev; split_ifs.
  all: cbn; intros H; try discriminate; injection H as <- _.
  all: unfold same_but_view; cbn; repeat split.
Qed.

Lemma py_max_lower (a b : Q) : (a <= py_max a b)%Q.
Proof.
  unfold py_max, Qltb. destruct (Qle_bool b a) eqn:E; cbn [negb]; [lra |].
  apply not_true_iff_false in E. rewrite Qle_bool_iff in E.
  apply Qnot_le_lt in E. lra.
Qed.

(** It returns as long as the zoom is not zero, and it leaves a zoom that
    is not zero when the lower limit of the zoom is positive. *)
Lemma pointer_in_label_input_returns (st : editor) (now : Q)
    (ev : mouse_event) (x y flags : Z) :
  label_input_mode st = true ->
  (0 < min_zoom st)%Q -> (0 < zoom_level st)%Q ->
  exists (st' : editor) (acts : list ui_action),
    _mouse_callback fl st now ev x y flags = Ok (st', acts) /\
    (0 < zoom_level st')%Q.
Proof.
  intros Hm Hmin Hz.
  assert (Hz0 : Qeq_bool (zoom_level st) 0 = false).
  { apply not_true_is_false. intros E. apply Qeq_bool_iff in E.
    rewrite E in Hz. lra. }
  unfold _mouse_callback, _screen_to_image_coords, fdiv.
  rewrite Hm. cbn [zoom_level set_last_zoom_time orb]. rewrite Hz0.
  destruct ev; split_ifs.
  all: cbn; do 2 eexists; (split; [reflexivity |]); cbn; try assumption.
  all: eapply Qlt_le_trans; [exact Hmin | apply py_max_lower].
Qed.

(** What the loop returns, whatever arrives: the store as it was or with
    the last label replaced by a stripped buffer, label input over, the
    buffer empty; the drag is as it was, and so is the view when no
    pointer event arrived. *)
Lemma edit_loop_with_result (inputs : list edit_input) :
  forall (st : editor) (acts : list ui_action) (st' : editor)
         (acts' : list ui_action),
    label_input_mode st = true ->
    edit_loop_with fl st acts inputs = Some (Ok (st', acts')) ->
    (circles st' = circles st \/
     exists buf : string,
       circles st' = set_last_label (circles st) (strip buf)) /\
    drawing st' = drawing st /\ self_center st' = self_center st /\
    current_radius st' = current_radius st /\
    current_mode st' = current_mode st /\
    label_input_mode st' = false /\ current_label st' = "" /\
    (forallb is_edit_key inputs = true ->
     is_panning st' = is_panning st /\ zoom_level st' = zoom_level st /\
     pan_x st' = pan_x st /\ pan_y st' = pan_y st).
Proof.
  induction inputs as [| i inputs IH]; intros st acts st' acts' Hm;
    cbn [edit_loop_with]; [discriminate |].
  destruct i as [key | now ev x y flags]; cbn [edit_step].
  - unfold edit_key.
    destruct (key =? 27).
    { intros [= <- <-]. cbn. repeat split. now left. }
    destruct (key =? 13).
    { intros [= <- <-]. cbn. repeat split. right. now eexists. }
    destruct (key =? 8).
    { intros H. apply IH in H; [exact H | exact Hm]. }
    destruct ((32 <=? key) && (key <=? 126)).
    { intros H. apply IH in H; [exact H | exact Hm]. }
    intros H. apply IH in H; [exact H | exact Hm].
  - destruct (_mouse_callback fl st now ev x y flags) as [[st1 acts1] | e]
      eqn:E; [| discriminate].
    destruct (pointer_in_label_input _ _ _ _ _ _ _ _ Hm E)
      as (Hc & Hd & Hce & Hr & _ & Hl & _ & _ & Hmo & _).
    intros H. apply IH in H; [| congruence].
    destruct H as (Hcs & Hd' & Hce' & Hr' & Hmo' & Hl' & Hb' & _).
    rewrite <- Hc, <- Hd, <- Hce, <- Hr, <- Hmo.
    do 7 (split; [assumption |]). discriminate.
Qed.

(** X6.  Relabelling ([e]) changes one label and nothing else, whatever
    keys and pointer events arrive while its loop waits.  When it returns,
    the store keeps its length, every region keeps its centre, radius and
    mode, every region but the last keeps its label, and the new label of
    the last one has no whitespace at either end; the drawing flag, the
    mode, and the centre and radius on record are as before.  On a store
    that is not empty it returns only if a centre is on record, and then
    label input is over and the buffer is empty.  When keys alone arrive,
    the panning flag, the zoom and the pan are as before too; nothing is
    said of them when a pointer event arrives. *)
Theorem edit_last_label_changes_one_label (st st' : editor)
    (inputs : list edit_input) (acts : list ui_action) :
  _edit_last_label_with fl st inputs = Some (Ok (st', acts)) ->
  geometry <$> circles st' = geometry <$> circles st /\
  removelast (circles st') = removelast (circles st) /\
  (forall c', last (circles st') = Some c' ->
     (exists c, last (circles st) = Some c /\ label c' = label c) \/
     stripped (label c')) /\
  drawing st' = drawing st /\ current_mode st' = current_mode st /\
  self_center st' = self_center st /\
  current_radius st' = current_radius st /\
  (circles st <> [] ->
   (exists ctr, self_center st = Some ctr) /\
   label_input_mode st' = false /\ current_label st' = "") /\
  (forallb is_edit_key inputs = true ->
   is_panning st' = is_panning st /\ zoom_level st' = zoom_level st /\
   (pan_x st', pan_y st') = (pan_x st, pan_y st)).
Proof.
  unfold _edit_last_label_with. destruct (last (circles st)) as [c |] eqn:El.
  - cbn [self_center set_label_input_mode set_current_label].
    destruct (self_center st) as [ctr |] eqn:Ec; [| discriminate].
    intros H. apply edit_loop_with_result in H; [| reflexivity].
    cbn in H.
    destruct H as (Hcs & Hd & Hce & Hr & Hmo & Hl & Hb & Hview).
    assert (Hstore :
      geometry <$> circles st' = geometry <$> circles st /\
      removelast (circles st') = removelast (circles st) /\
      (forall c', last (circles st') = Some c' ->
         (exists c, last (circles st) = Some c /\ label c' = label c) \/
         stripped (label c'))).
    { destruct Hcs as [-> | (buf & ->)].
      - repeat split. intros c' Hc'. left. exists c'. split; [| reflexivity].
        congruence.
      - apply last_Some_snoc in El as [cs ->].
        rewrite set_last_label_snoc, !fmap_app, !removelast_last, last_snoc.
        repeat split. intros c' [= <-]. right. apply stripped_strip. }
    destruct Hstore as (Hg & Hrl & Hlast).
    do 2 (split; [assumption |]). split; [now rewrite <- El |].
    do 4 (split; [congruence |]). split.
    + intros _. split; [now exists ctr | now split].
    + intros H. destruct (Hview H) as (-> & -> & -> & ->). now repeat split.
  - intros [= <- <-]. apply last_None in El.
    do 2 (split; [reflexivity |]). split.
    { intros c' Hc'. rewrite El in Hc'. discriminate. }
    do 4 (split; [reflexivity |]). split; [contradiction |].
    intros _. now repeat split.
Qed.

(** Printable keys, with pointer events in between, grow the buffer by
    the text of the keys and leave the store alone. *)
Lemma edit_loop_with_typed (inputs : list edit_input) :
  forall (st : editor) (acts : list ui_action) (rest : list edit_input),
    label_input_mode st = true ->
    (0 < min_zoom st)%Q -> (0 < zoom_level st)%Q ->
    forallb printable_key (keys_of inputs) = true ->
    exists (st1 : editor) (acts1 : list ui_action),
      edit_loop_with fl st acts (inputs ++ rest)
      = edit_loop_with fl st1 acts1 rest /\
      circles st1 = circles st /\
      current_label st1 = current_label st +:+ text_of_keys (keys_of inputs).
Proof.
  induction inputs as [| i inputs IH]; intros st acts rest Hm Hmin Hz Hkeys.
  - exists st, acts. cbn [app keys_of text_of_keys].
    now rewrite string_app_nil_r.
  - destruct i as [key | now ev x y flags];
      cbn [app keys_of edit_loop_with edit_step].
    + cbn [forallb] in Hkeys. apply andb_true_iff in Hkeys as [Hk Hks].
      pose proof Hk as Hk'. unfold printable_key in Hk'. unfold edit_key.
      destruct (key =? 27) eqn:E1; [lia |].
      destruct (key =? 13) eqn:E2; [lia |].
      destruct (key =? 8) eqn:E3; [lia |]. rewrite Hk'.
      destruct (IH (set_current_label st
                      (current_label st +:+ String (chr key) ""))
                   (acts ++ [UpdateDisplayWithInput]) rest Hm Hmin Hz Hks)
        as (st1 & acts1 & -> & Hc & Hb).
      exists st1, acts1. split; [reflexivity |]. split; [exact Hc |].
      rewrite Hb. cbn [current_label set_current_label text_of_keys].
      now rewrite string_app_assoc.
    + destruct (pointer_in_label_input_returns st now ev x y flags Hm Hmin Hz)
        as (st0 & acts0 & E & Hz0).
      rewrite E.
      destruct (pointer_in_label_input _ _ _ _ _ _ _ _ Hm E)
        as (Hc & _ & _ & _ & Hb & Hl & Hmz & _).
      destruct (IH st0 (acts ++ acts0) rest) as (st1 & acts1 & -> & Hc1 & Hb1);
        [congruence | now rewrite Hmz | exact Hz0 | exact Hkeys |].
      exists st1, acts1. split; [reflexivity |]. split; congruence.
Qed.

(** X7.  Relabelling with typed text.  On a store ending in region [c],
    with a centre on record and a zoom and a lower zoom limit above zero
    (as in every session), [e] followed by printable keys and Enter
    replaces the label of [c] by its old label followed by the typed text,
    stripped; followed by Escape instead of Enter, it leaves the store as
    it was.  Pointer events that arrive between the keys change neither. *)
Theorem edit_last_label_typed (st : editor) (cs : list circle) (c : circle)
    (ctr : Z * Z) (inputs rest : list edit_input) :
  circles st = cs ++ [c] ->
  self_center st = Some ctr ->
  (0 < min_zoom st)%Q -> (0 < zoom_level st)%Q ->
  forallb printable_key (keys_of inputs) = true ->
  (exists st' acts,
     _edit_last_label_with fl st (inputs ++ EditKey 13 :: rest)
     = Some (Ok (st', acts)) /\
     circles st'
     = cs ++ [{| center := center c; radius := radius c; mode := mode c;
                 label := strip (label c +:+ text_of_keys (keys_of inputs)) |}]
     /\ label_input_mode st' = false) /\
  (exists st' acts,
     _edit_last_label_with fl st (inputs ++ EditKey 27 :: rest)
     = Some (Ok (st', acts)) /\
     circles st' = circles st /\ label_input_mode st' = false).
Proof.
  intros Hcs Hc Hmin Hz Hkeys. unfold _edit_last_label_with.
  rewrite Hcs, last_snoc.
  cbn [self_center set_label_input_mode set_current_label]. rewrite Hc.
  split.
  - edestruct edit_loop_with_typed as (st1 & acts1 & -> & Hc1 & Hb1);
      [| | | exact Hkeys |]; [reflexivity | exact Hmin | exact Hz |].
    cbn in Hc1, Hb1. cbn. do 2 eexists. split; [reflexivity |]. cbn.
    rewrite Hc1, Hb1, Hcs, set_last_label_snoc. now split.
  - edestruct edit_loop_with_typed as (st1 & acts1 & -> & Hc1 & Hb1);
      [| | | exact Hkeys |]; [reflexivity | exact Hmin | exact Hz |].
    cbn in Hc1. cbn. do 2 eexists. split; [reflexivity |]. cbn.
    split; [congruence | reflexivity].
Qed.

End RelabelFacts.

(** ** What holds throughout a session *)

Lemma py_max_min_between (lo hi q : Q) :
  (lo <= hi)%Q ->
  (lo <= py_max lo (py_min hi q))%Q /\ (py_max lo (py_min hi q) <= hi)%Q.
Proof.
  intros H. unfold py_min, Qltb.
  destruct (Qle_bool hi q) eqn:E1; cbn [negb]; unfold py_max, Qltb.
  - destruct (Qle_bool hi lo) eqn:E2; cbn [negb]; split; lra.
  - apply not_true_iff_false in E1. rewrite Qle_bool_iff in E1.
    apply Qnot_le_lt in E1.
    destruct (Qle_bool q lo) eqn:E2; cbn [negb].
    + split; lra.
    + apply not_true_iff_false in E2. rewrite Qle_bool_iff in E2.
      apply Qnot_le_lt in E2. split; lra.
Qed.

Lemma init_flags : flags_invariant init_editor.
Proof.
  split; try reflexivity; try discriminate. split; discriminate.
Qed.

Lemma init_store : store_invariant init_editor.
Proof. split; [reflexivity | constructor | intros H; now contradiction H]. Qed.

Lemma load_editor_flags (st : editor) (regions : list circle) :
  flags_invariant st -> flags_invariant (load_editor st regions).
Proof.
  intros [Hmin Hmax _ _ _]. split; cbn; try assumption; try discriminate.
  split; discriminate.
Qed.

Lemma set_last_label_Forall (P : circle -> Prop) (cs : list circle)
    (l : string) :
  Forall P cs ->
  (forall c, P c ->
     P {| center := center c; radius := radius c; mode := mode c;
          label := l |}) ->
  Forall P (set_last_label cs l).
Proof.
  intros Hcs Hl. destruct cs as [| c cs _] using rev_ind; [constructor |].
  rewrite set_last_label_snoc. apply Forall_app in Hcs as [Hcs Hc].
  apply Forall_app. split; [exact Hcs |]. constructor; [| constructor].
  apply Hl. now inversion Hc.
Qed.




Lemma sum_of_squares_nonneg (a b : Z) : 0 <= a ^ 2 + b ^ 2.
Proof. nia. Qed.

Section SessionFacts.

Variable fl : Q -> Q.

Lemma screen_to_image_returns (st : editor) (x y : Z) :
  flags_invariant st ->
  exists p : Z * Z, _screen_to_image_coords fl st x y = Ok p.
Proof.
  intros [_ _ [Hlo _] _ _]. unfold _screen_to_image_coords, fdiv.
  assert (Hz : Qeq_bool (zoom_level st) 0 = false).
  { apply not_true_is_false. intros E. apply Qeq_bool_iff in E.
    rewrite E in Hlo. lra. }
  rewrite Hz. cbn. eauto.
Qed.

Lemma mouse_callback_flags (st st' : editor) (now : Q) (ev : mouse_event)
    (x y flags : Z) (acts : list ui_action) :
  flags_invariant st ->
  _mouse_callback fl st now ev x y flags = Ok (st', acts) ->
  flags_invariant st'.
Proof.
  intros Hinv. pose proof Hinv as [Hmin Hmax Hz Hd Hl].
  destruct (screen_to_image_returns st x y Hinv) as [[ix iy] Hs].
  assert (Hs' : exists p,
             _screen_to_image_coords fl (set_last_zoom_time st now) x y
             = Ok p).
  { apply screen_to_image_returns. now split. }
  destruct Hs' as [[ix' iy'] Hs'].
  unfold _mouse_callback. rewrite Hs, Hs'. cbn [mbind res_bind].
  destruct ev; split_tests; cbn; split_tests.
  all: cbn; intros H; try discriminate; injection H as <- _.
  all: try exact Hinv.
  all: split; cbn; try assumption; try discriminate; auto.
  all: try (rewrite Hmin, Hmax; apply py_max_min_between; lra).
  all: intros Hm;
    repeat match goal with
      | H : (5 <? _) = true |- _ => apply Z.ltb_lt in H
      | H : _ || _ = false |- _ => apply orb_false_iff in H as [? ?]
      end;
    try congruence;
    try (destruct (Hl Hm) as (? & ? & ?); repeat split; auto; congruence).
  all: repeat split; auto; congruence.
Qed.

(** The zoom stays within the limits whatever the flags are. *)
Lemma mouse_callback_zoom (st st' : editor) (now : Q) (ev : mouse_event)
    (x y flags : Z) (acts : list ui_action) :
  min_zoom st = 1 # 2 -> max_zoom st = 10 # 1 ->
  ((1 # 2) <= zoom_level st)%Q /\ (zoom_level st <= 10 # 1)%Q ->
  _mouse_callback fl st now ev x y flags = Ok (st', acts) ->
  ((1 # 2) <= zoom_level st')%Q /\ (zoom_level st' <= 10 # 1)%Q.
Proof.
  intros Hmin Hmax Hz.
  unfold _mouse_callback, _screen_to_image_coords, fdiv,
    _enter_label_input_mode.
  destruct ev; split_tests; cbn; split_tests.
  all: cbn; intros H; try discriminate; injection H as <- _.
  all: cbn; try assumption.
  all: rewrite Hmin, Hmax; apply py_max_min_between; lra.
Qed.

Lemma mouse_callback_store (st st' : editor) (now : Q) (ev : mouse_event)
    (x y flags : Z) (acts : list ui_action) :
  store_invariant st ->
  _mouse_callback fl st now ev x y flags = Ok (st', acts) ->
  store_invariant st'.
Proof.
  intros [Hb Hr Hc].
  unfold _mouse_callback, _screen_to_image_coords, fdiv,
    _enter_label_input_mode.
  destruct ev; split_tests; cbn; split_tests.
  all: cbn; intros H; try discriminate; injection H as <- _.
  all: split; cbn; try assumption; try reflexivity; try discriminate.
  all: intros _; congruence.
Qed.

Lemma drag_distance2_nonneg (st : editor) (x y d : Z) :
  drag_distance2 fl st x y = Some d -> 0 <= d.
Proof.
  unfold drag_distance2.
  destruct (_screen_to_image_coords fl st x y) as [[ix iy] |];
    [| discriminate].
  destruct (self_center st) as [[cx cy] |]; [| discriminate].
  intros [= <-]. apply sum_of_squares_nonneg.
Qed.



Lemma edit_last_label_flags (st st' : editor) (keys : list Z)
    (acts : list ui_action) :
  flags_invariant st ->
  label_input_mode st = false ->
  _edit_last_label st keys = Some (Ok (st', acts)) ->
  flags_invariant st'.
Proof.
  intros Hinv Hmode. pose proof Hinv as [Hmin Hmax Hz Hd Hl].
  intros H.
  apply edit_last_label_returned in H
    as [(_ & -> & _) | (c & ctr & _ & Ec & H)]; [exact Hinv |].
  apply edit_loop_result in H as (cs' & -> & _).
  split; cbn; try assumption; discriminate.
Qed.

Lemma edit_last_label_store (st st' : editor) (keys : list Z)
    (acts : list ui_action) :
  store_invariant st ->
  _edit_last_label st keys = Some (Ok (st', acts)) ->
  store_invariant st'.
Proof.
  intros Hinv. pose proof Hinv as [Hb Hr Hc]. intros H.
  apply edit_last_label_returned in H
    as [(_ & -> & _) | (c & ctr & El & Ec & H)]; [exact Hinv |].
  apply edit_loop_result in H as (cs' & -> & Hcs).
  split; cbn; [reflexivity | | intros _; congruence].
  destruct Hcs as [-> | (buf & -> & Hbuf)]; [exact Hr |].
  cbn in *. apply set_last_label_Forall; [exact Hr |].
  intros c0 (Hrad & _ & _). split; [exact Hrad |].
  split; [| apply stripped_strip].
  apply printable_strip, Hbuf.
  apply last_Some_snoc in El as [cs E]. rewrite E in Hr.
  apply Forall_app in Hr as [_ Hc']. inversion Hc' as [| ? ? (_ & Hp & _) _].
  exact Hp.
Qed.

Lemma run_key_flags (st st' : editor) (key : Z) (sub : list Z)
    (acts : list ui_action) :
  flags_invariant st ->
  run_key st key sub = Handled st' acts ->
  flags_invariant st'.
Proof.
  intros Hinv. pose proof Hinv as [Hmin Hmax Hz Hd Hl].
  destruct (label_input_mode st) eqn:Hmode.
  - destruct (Hl eq_refl) as (Hdr & Hrad & Hc).
    destruct (self_center st) as [c |] eqn:Ec; [| congruence].
    unfold run_key, key_command, _exit_label_input_mode. rewrite Hmode.
    split_tests.
    all: cbn -[strip]; rewrite ?Ec; cbn -[strip]; intros [= <- _].
    all: split; cbn -[strip]; try assumption; try discriminate;
      try reflexivity.
    all: rewrite Ec; auto.
  - unfold run_key, key_command. rewrite Hmode. split_tests.
    all: try discriminate.
    all: try (intros [= <- _]; split; cbn; try assumption;
              try discriminate; try (split; discriminate);
              try (intros ?; congruence); fail).
    + destruct (reverse (circles st)) as [| removed rest] eqn:Erev;
        intros [= <- _]; [exact Hinv |].
      split; cbn; try assumption; intros ?; congruence.
    + destruct (_edit_last_label st sub) as [[[st1 acts1] | e] |] eqn:Ee;
        try discriminate.
      intros [= <- _]. now apply (edit_last_label_flags st st1 sub acts1).
    + destruct (EditMode_members !! Z.to_nat (key - ord "1")); [| discriminate].
      intros [= <- _]. split; cbn; try assumption. intros ?; congruence.
Qed.

Lemma run_key_store (st st' : editor) (key : Z) (sub : list Z)
    (acts : list ui_action) :
  flags_invariant st -> store_invariant st ->
  run_key st key sub = Handled st' acts ->
  store_invariant st'.
Proof.
  intros [_ _ _ _ Hl] Hinv. pose proof Hinv as [Hb Hr Hce].
  destruct (label_input_mode st) eqn:Hmode.
  - destruct (Hl eq_refl) as (Hdr & Hrad & Hc).
    destruct (self_center st) as [c |] eqn:Ec; [| congruence].
    unfold run_key, key_command, _exit_label_input_mode. rewrite Hmode.
    split_tests.
    all: cbn -[strip]; rewrite ?Ec; cbn -[strip]; intros [= <- _].
    all: split; cbn -[strip]; try assumption; try reflexivity;
      try (intros _; congruence).
    all: first
      [ apply Forall_app; split; [exact Hr |]; constructor; [| constructor];
        split; [exact Hrad |]; split; [| apply stripped_strip];
        now apply printable_strip
      | now apply printable_drop_last
      | rewrite printable_app, Hb; cbn; now rewrite (printable_key_char key) ].
  - unfold run_key, key_command. rewrite Hmode. split_tests.
    all: try discriminate.
    all: try (intros [= <- _]; split; cbn; try assumption;
              try apply Forall_nil; try exact I; try contradiction; fail).
    + destruct (reverse (circles st)) as [| removed rest] eqn:Erev;
        intros [= <- _]; [exact Hinv |].
      apply (f_equal reverse) in Erev. rewrite reverse_involutive in Erev.
      split; cbn; [assumption | |].
      * rewrite Erev, reverse_cons in Hr. now apply Forall_app in Hr as [Hr _].
      * intros _. apply Hce. rewrite Erev, reverse_cons.
        intros Enil. now apply app_eq_nil in Enil as [_ Enil].
    + destruct (_edit_last_label st sub) as [[[st1 acts1] | e] |] eqn:Ee;
        try discriminate.
      intros [= <- _]. now apply (edit_last_label_store st st1 sub acts1).
    + destruct (EditMode_members !! Z.to_nat (key - ord "1")); [| discriminate].
      intros [= <- _]. now split.
Qed.


Lemma reachable_invariant (st : editor) :
  reachable fl st -> flags_invariant st /\ store_invariant st.
Proof.
  induction 1 as [| st now ev x y flags st' acts _ [IHf IHs] H
                  | st key sub st' acts _ [IHf IHs] H].
  - split; [exact init_flags | exact init_store].
  - split.
    + exact (mouse_callback_flags st st' now ev x y flags acts IHf H).
    + exact (mouse_callback_store st st' now ev x y flags acts IHs H).
  - split.
    + exact (run_key_flags st st' key sub acts IHf H).
    + exact (run_key_store st st' key sub acts IHf IHs H).
Qed.

Lemma session_flags (st : editor) : session fl st -> flags_invariant st.
Proof.
  induction 1 as [| st now ev x y flags st' acts _ IH H
                  | st key sub st' acts _ IH H
                  | st regions _ IH].
  - exact init_flags.
  - exact (mouse_callback_flags st st' now ev x y flags acts IH H).
  - exact (run_key_flags st st' key sub acts IH H).
  - now apply load_editor_flags.
Qed.

Lemma reachable_session (st : editor) : reachable fl st -> session fl st.
Proof.
  induction 1 as [| st now ev x y flags st' acts _ IH H
                  | st key sub st' acts _ IH H].
  - apply session_init.
  - exact (session_mouse fl st now ev x y flags st' acts IH H).
  - exact (session_key fl st key sub st' acts IH H).
Qed.

(** *** The session event by event *)

Lemma edit_opens_invariant (st : editor) (c : circle) :
  flags_invariant st -> last (circles st) = Some c -> self_center st <> None ->
  edit_invariant
    (set_label_input_mode (set_current_label st (label c)) true).
Proof.
  intros [Hmin Hmax Hz _ _] El Hc. split; cbn; try assumption;
    try reflexivity.
  intros E. now rewrite E in El.
Qed.

Lemma edit_pointer_invariant (st st' : editor) (now : Q) (ev : mouse_event)
    (x y flags : Z) (acts : list ui_action) :
  edit_invariant st ->
  _mouse_callback fl st now ev x y flags = Ok (st', acts) ->
  edit_invariant st'.
Proof.
  intros [Hmin Hmax Hz Hl Hc Hs] H.
  destruct (pointer_in_label_input fl _ _ _ _ _ _ _ _ Hl H)
    as (Ecs & _ & Ece & _ & _ & El & Emin & Emax & _).
  split; try congruence.
  apply (mouse_callback_zoom st st' now ev x y flags acts Hmin Hmax Hz H).
Qed.

Lemma edit_goes_on_invariant (st st' : editor) (key : Z)
    (acts : list ui_action) :
  edit_invariant st -> edit_key st key = EditGoesOn st' acts ->
  edit_invariant st'.
Proof.
  intros [Hmin Hmax Hz Hl Hc Hs]. unfold edit_key. split_ifs.
  all: intros [= <- _]; split; cbn; assumption.
Qed.

Lemma edit_returns_invariant (st st' : editor) (key : Z)
    (acts : list ui_action) :
  edit_invariant st -> edit_key st key = EditReturns st' acts ->
  flags_invariant st'.
Proof.
  intros [Hmin Hmax Hz Hl Hc Hs]. unfold edit_key. split_ifs.
  all: intros [= <- _]; split; cbn; try assumption; try discriminate.
  all: intros _; assumption.
Qed.

Lemma session_at_invariant (w : wait) (st : editor) :
  session_at fl w st ->
  match w with
  | InRun => flags_invariant st
  | InEdit => edit_invariant st
  end.
Proof.
  induction 1 as [| st regions _ IH
                  | w st now ev x y flags st' acts _ IH H
                  | st key st' acts _ IH H
                  | st key c _ IH Hk El Hc
                  | st key st' acts _ IH H
                  | st key st' acts _ IH H].
  - exact init_flags.
  - now apply load_editor_flags.
  - destruct w.
    + exact (mouse_callback_flags st st' now ev x y flags acts IH H).
    + exact (edit_pointer_invariant st st' now ev x y flags acts IH H).
  - exact (run_key_flags st st' key [] acts IH H).
  - now apply edit_opens_invariant.
  - exact (edit_goes_on_invariant st st' key acts IH H).
  - exact (edit_returns_invariant st st' key acts IH H).
Qed.

(** The loop on keys alone, pass by pass. *)
Lemma edit_loop_session (keys : list Z) :
  forall (st : editor) (acts : list ui_action) (st' : editor)
         (acts' : list ui_action),
    session_at fl InEdit st ->
    edit_loop st acts keys = Some (st', acts') ->
    session_at fl InRun st'.
Proof.
  induction keys as [| key keys IH]; intros st acts st' acts' Hst;
    cbn [edit_loop]; [discriminate |].
  pose proof (at_edit_goes_on fl st key) as Hon.
  pose proof (at_edit_returns fl st key) as Hret.
  unfold edit_key in Hon, Hret.
  destruct (key =? 27).
  { intros [= <- <-]. now eapply Hret. }
  destruct (key =? 13).
  { intros [= <- <-]. now eapply Hret. }
  destruct (key =? 8).
  { apply IH. now eapply Hon. }
  destruct ((32 <=? key) && (key <=? 126)).
  { apply IH. now eapply Hon. }
  apply IH. now eapply Hon.
Qed.

Lemma run_key_without_edit (st : editor) (key : Z) (sub : list Z) :
  key_command st key <> CmdEditLast -> run_key st key sub = run_key st key [].
Proof.
  unfold run_key. now destruct (key_command st key).
Qed.

(** A state in which the loop of [run] waits with a label edit taken as
    one key is such a state of the session event by event. *)
Lemma session_in_run (st : editor) :
  session fl st -> session_at fl InRun st.
Proof.
  induction 1 as [| st now ev x y flags st' acts _ IH H
                  | st key sub st' acts Hs IH H
                  | st regions _ IH].
  - apply at_init.
  - exact (at_pointer fl InRun st now ev x y flags st' acts IH H).
  - assert (Hcases : key_command st key = CmdEditLast \/
                     key_command st key <> CmdEditLast)
      by (destruct (key_command st key); (now left) || (now right)).
    destruct Hcases as [Hk | Hk].
    + pose proof H as H'. unfold run_key in H'. rewrite Hk in H'.
      destruct (_edit_last_label st sub) as [[[st1 acts1] | e] |] eqn:Ee;
        try discriminate.
      injection H' as -> ->.
      apply edit_last_label_returned in Ee
        as [(El & -> & _) | (c & ctr & El & Ec & Eloop)].
      * exact IH.
      * eapply edit_loop_session; [| exact Eloop].
        apply (at_edit_opens fl st key c IH Hk El). congruence.
    + rewrite run_key_without_edit in H by exact Hk.
      exact (at_key fl st key st' acts IH H).
  - now apply at_load.
Qed.

End SessionFacts.

Section SessionTheorems.

Variable fl : Q -> Q.

(** X8.  As long as no image is loaded, every region in the store has a
    radius above five pixels and a label of printable characters with no
    whitespace at either end: pointer events and handled keys, relabelling
    included, keep the store that way. *)
Theorem session_regions_are_well_formed (st : editor) :
  reachable fl st ->
  Forall (fun c => 5 < radius c /\ printable (label c) = true /\
                   stripped (label c)) (circles st).
Proof. intros H. now destruct (reachable_invariant fl st H) as [_ [_ Hr _]]. Qed.

(** X9.  Throughout a session, image loads included, the zoom stays
    within its limits, which stay 0.5 and 10, however the float operations
    are rounded. *)
Theorem session_zoom_within_limits (st : editor) :
  session fl st ->
  min_zoom st = 1 # 2 /\ max_zoom st = 10 # 1 /\
  (min_zoom st <= zoom_level st)%Q /\ (zoom_level st <= max_zoom st)%Q.
Proof.
  intros H. destruct (session_flags fl st H) as [-> -> [? ?] _ _]. auto.
Qed.


(** X11.  Label input follows a drag wherever the loop of [run] waits for
    a key, image loads and label edits included, with the pointer events
    that arrive inside a label edit: while [label_input_mode] is set there,
    no drag is in progress, the pending radius is above five pixels and
    the centre of the drag is on record.  Inside the loop of
    [_edit_last_label], [label_input_mode] is set, the store is not empty
    and a centre is on record; nothing is said there of the drawing flag
    and of the radius on record. *)
Theorem label_input_follows_a_drag (w : wait) (st : editor) :
  session_at fl w st ->
  match w with
  | InRun =>
      label_input_mode st = true ->
      drawing st = false /\ 5 < current_radius st /\
      exists c, self_center st = Some c
  | InEdit =>
      label_input_mode st = true /\ circles st <> [] /\
      exists c, self_center st = Some c
  end.
Proof.
  intros H. apply session_at_invariant in H. destruct w.
  - destruct H as [_ _ _ _ Hl]. intros Hm.
    destruct (Hl Hm) as (? & ? & Hc). repeat split; auto.
    destruct (self_center st); [eauto | congruence].
  - destruct H as [_ _ _ Hl Hc Hs]. repeat split; auto.
    destruct (self_center st); [eauto | congruence].
Qed.

End SessionTheorems.

(** ** Effect compositor: confinement and robustness *)

Section CompositorRobustness.

Variable fl : Q -> Q.
Context {cv : Cv}.

(** X12.  An effect never leaves the disc of its region.  Once the mask
    of a region is built, [_apply_effect] returns an image, prints at most
    one diagnostic, and every pixel outside the mask is the pixel of the
    image it was given, whatever the mode and whether its transform
    succeeds or raises. *)
Theorem effect_is_confined_to_mask `{!CvLaws cv}
    (st : editor) (acc : image) (r : circle) (mk : mask) :
  filled_circle_mask acc (center r) (radius r) = Ok mk ->
  exists (img : image) (d : list diagnostic),
    _apply_effect fl st acc r = Comp (Ok img) d /\
    (length d <= 1)%nat /\
    forall y x : Z, mask_at mk y x = false -> px img y x = px acc y x.
Proof.
  intros Hm. unfold _apply_effect. rewrite Hm.
  destruct (masked_effect fl st acc mk (mode r)) as [img |e] eqn:He.
  - exists img, []. split; [reflexivity |]. split; [cbn; lia |].
    intros y x Hout. unfold masked_effect in He.
    destruct (effect_transform fl st (mode r) acc) as [[t |] | e];
      cbn in He; try discriminate.
    + rewrite (np_where_px mk t acc img y x He). now rewrite Hout.
    + now injection He as <-.
  - exists acc, [EffectError (mode r) e]. repeat split. cbn. lia.
Qed.

(** Masks and outlines are made for every radius that is not negative. *)
Hypothesis mask_total : forall (img : image) (c : Z * Z) (r : Z),
  0 <= r -> exists m : mask, filled_circle_mask img c r = Ok m.
Hypothesis circle_total : forall (img : image) (c : Z * Z) (r : Z) (col : color),
  0 <= r -> exists out : image, cv2_circle img c r col 2 = Ok out.

Lemma composite_returns (st : editor) (cs : list circle) :
  Forall (fun c => 0 <= radius c) cs ->
  forall acc : image,
    exists out : image,
      outcome (composite fl st acc cs) = Ok out /\
      (length (printed (composite fl st acc cs)) <= length cs)%nat /\
      Forall (fun d => exists c e, c ∈ cs /\ d = EffectError (mode c) e)
        (printed (composite fl st acc cs)).
Proof.
  induction 1 as [| c cs Hc Hcs IH]; intros acc; cbn [composite].
  - exists acc. repeat split; [cbn; lia | constructor].
  - unfold composite_step, _apply_effect.
    destruct (mask_total acc (center c) (radius c) Hc) as [mk ->].
    destruct (masked_effect fl st acc mk (mode c)) as [img | e].
    + destruct (circle_total img (center c) (radius c) (mode_colors (mode c))
                  Hc) as [outlined Ho].
      unfold mbind, comp_bind, lift. cbn. rewrite Ho. cbn.
      destruct (IH outlined) as (out & Hout & Hlen & Hall).
      rewrite Hout. exists out. split; [reflexivity |]. cbn.
      split; [lia |].
      eapply Forall_impl; [exact Hall |]. intros d (c' & e' & Hin & ->).
      exists c', e'. split; [now apply list_elem_of_further | reflexivity].
    + destruct (circle_total acc (center c) (radius c) (mode_colors (mode c))
                  Hc) as [outlined Ho].
      unfold mbind, comp_bind, lift. cbn. rewrite Ho. cbn.
      destruct (IH outlined) as (out & Hout & Hlen & Hall).
      rewrite Hout. exists out. split; [reflexivity |]. cbn.
      split; [lia |]. constructor.
      * exists c, e. split; [apply list_elem_of_here | reflexivity].
      * eapply Forall_impl; [exact Hall |]. intros d (c' & e' & Hin & ->).
        exists c', e'. split; [now apply list_elem_of_further | reflexivity].
Qed.

(** X13.  A redraw survives failing effects.  When masks and outlines
    can be made for every non-negative radius and no stored radius is
    negative, [_apply_all_effects] returns an image whatever the effect
    parameters are; it prints at most one diagnostic for each region, each
    naming the mode of a stored region. *)
Theorem redraw_survives_failing_effects (st : editor) (scaled_image : image) :
  Forall (fun c => 0 <= radius c) (circles st) ->
  exists out : image,
    outcome (_apply_all_effects fl st scaled_image) = Ok out /\
    (length (printed (_apply_all_effects fl st scaled_image))
     <= length (circles st))%nat /\
    Forall (fun d => exists c e, c ∈ circles st /\ d = EffectError (mode c) e)
      (printed (_apply_all_effects fl st scaled_image)).
Proof. intros H. now apply composite_returns. Qed.

End CompositorRobustness.

(** ** Label layout: where a label lies *)

Section PositionFacts.

Variables (center : Z * Z) (radius text_w text_h baseline padding : Z).
Variable image_size : Z * Z.
Variable existing_rects : list rect.

(** The position that [_find_non_overlapping_position] returns: a
    candidate inside the image, or the last resort at the top edge. *)
Lemma find_position_geometry (lx ly : Z) (lr : rect) :
  _find_non_overlapping_position center radius text_w text_h baseline padding
    image_size existing_rects = (lx, ly, lr) ->
  lr = label_rect_at text_w text_h baseline padding lx ly /\
  (within_image padding image_size lr = true \/
   (ly = padding + text_h /\ padding <= lx)).
Proof.
  unfold _find_non_overlapping_position.
  destruct (search_position center radius text_w text_h baseline padding
              image_size existing_rects) as [[[sx sy] sr] |] eqn:Hs.
  - intros [= <- <- <-].
    apply search_position_sound in Hs as (Hr & Hin & _). auto.
  - unfold last_resort. destruct image_size as [img_h img_w].
    intros [= <- <- <-]. split; [reflexivity |]. right. lia.
Qed.

(** X14.  The first label of a redraw goes above its circle when there
    is room: if the rectangle at the first anchor, flush with the left
    edge of the circle and ten pixels above it, is inside the image and
    clear of the rectangles placed so far, that position is the one
    chosen. *)
Theorem label_prefers_position_above :
  let pos_x := fst center - radius in
  let pos_y :=
    snd center - radius
    - total_height text_h baseline padding - 10 in
  candidate_fits text_w text_h baseline padding image_size existing_rects
    (pos_x, pos_y) = true ->
  _find_non_overlapping_position center radius text_w text_h baseline padding
    image_size existing_rects
  = (pos_x, pos_y + text_h,
     label_rect_at text_w text_h baseline padding pos_x (pos_y + text_h)).
Proof.
  cbn zeta. intros Hfit.
  unfold _find_non_overlapping_position, search_position, candidate_positions,
    attempts.
  destruct center as [cx cy]. cbn [fst snd] in *.
  cbn [mbind list_bind mapM foldr app List.find].
  rewrite !Z.add_0_r.
  cbn [List.find]. now rewrite Hfit.
Qed.

End PositionFacts.

Section DrawnLabelFacts.

Variable fl : Q -> Q.
Variable getTextSize : string -> Q -> Z -> (Z * Z) * Z.

Lemma label_padding_ge (scale : Q) : 2 <= label_padding fl scale.
Proof. unfold label_padding. lia. Qed.

Lemma draw_labels_from_geometry (cs : list circle) :
  forall (idx : nat) image_size scale thickness existing (d : label_drawing),
    d ∈ draw_labels_from fl getTextSize idx cs image_size scale thickness
          existing ->
    let '((text_w, text_h), baseline) :=
      getTextSize (ld_text d) scale thickness in
    let padding := label_padding fl scale in
    let '(lx, ly) := ld_origin d in
    ld_rect d = label_rect_at text_w text_h baseline padding lx ly /\
    fst (ld_line d) = (lx + text_w / 2, ly + baseline + padding) /\
    (within_image padding image_size (ld_rect d) = true \/
     (ly = padding + text_h /\ padding <= lx)).
Proof.
  induction cs as [| c cs IH]; intros idx image_size scale thickness existing d;
    cbn [draw_labels_from].
  - intros H. inversion H.
  - destruct (nonempty (label c)); cbn [negb]; [| apply IH].
    destruct (getTextSize (full_label_of idx c) scale thickness)
      as [[tw th] bl] eqn:Eg.
    destruct (_find_non_overlapping_position _ _ _ _ _ _ _ _)
      as [[lx ly] lr] eqn:Ef.
    intros H. apply elem_of_cons in H as [-> | H];
      [| exact (IH _ _ _ _ _ d H)].
    cbn [ld_text ld_origin ld_rect ld_line fst]. rewrite Eg.
    apply find_position_geometry in Ef as [Hr Hw]. auto.
Qed.

(** X15.  Every label that a redraw draws starts inside the image.  Its
    rectangle is the text box grown by the padding, which is at least 2;
    the connector leaves the middle of its bottom edge; its left and top
    edges are never negative; and it either lies inside the image with the
    padding as margin on all four sides, or it was placed by the last
    resort and touches the top edge of the image. *)
Theorem drawn_labels_start_inside_image (st : editor) (image_size : Z * Z)
    (d : label_drawing) :
  d ∈ _draw_all_labels_smart fl getTextSize st image_size ->
  let '(img_h, img_w) := image_size in
  let '(label_scale, label_thickness) :=
    _get_dynamic_label_params fl image_size in
  let '((text_w, text_h), baseline) :=
    getTextSize (ld_text d) label_scale label_thickness in
  let padding := label_padding fl label_scale in
  let '(x1, y1, x2, y2) := ld_rect d in
  2 <= padding /\
  (x1, y1) = (fst (ld_origin d) - padding,
              snd (ld_origin d) - text_h - padding) /\
  x2 - x1 = text_w + 2 * padding /\
  y2 - y1 = text_h + baseline + 2 * padding /\
  fst (ld_line d) = (fst (ld_origin d) + text_w / 2, y2) /\
  0 <= x1 /\ 0 <= y1 /\
  ((padding <= x1 /\ padding <= y1 /\
    x2 <= img_w - padding /\ y2 <= img_h - padding) \/
   y1 = 0).
Proof.
  unfold _draw_all_labels_smart.
  destruct (show_labels st); cbn [negb]; [| intros H; inversion H].
  destruct image_size as [img_h img_w] eqn:Es. rewrite <- Es.
  destruct (_get_dynamic_label_params fl image_size) as [scale thickness].
  intros Hd.
  apply (draw_labels_from_geometry _ 1%nat image_size scale thickness [])
    in Hd.
  destruct (getTextSize (ld_text d) scale thickness) as [[tw th] bl].
  destruct (ld_origin d) as [lx ly]. cbn zeta in Hd.
  destruct Hd as (Hr & Hl & Hw).
  pose proof (label_padding_ge scale) as Hp.
  set (padding := label_padding fl scale) in *.
  rewrite Hr, Hl. unfold label_rect_at. cbn [fst snd].
  rewrite Hr in Hw. unfold within_image, label_rect_at in Hw. rewrite Es in Hw.
  rewrite !andb_true_iff, !Z.leb_le in Hw.
  repeat split; try lia; try (f_equal; lia).
Qed.

End DrawnLabelFacts.

(** ** Loading: all or nothing *)

Lemma load_objects_all (objs : list json) :
  Forall (fun o => exists l, load_object o = Ok l) objs ->
  exists ls : list loaded_circle,
    load_objects objs = Ok ls /\
    Forall2 (fun o l => load_object o = Ok l) objs ls.
Proof.
  induction 1 as [| o objs [l Hl] _ (ls & Hls & Hall)]; cbn [load_objects].
  - exists []. split; [reflexivity | constructor].
  - rewrite Hl, Hls. exists (l :: ls). split; [reflexivity |].
    now constructor.
Qed.

Lemma load_objects_some_fail (objs : list json) :
  Exists (fun o => exists e, load_object o = Raise e) objs ->
  exists e, load_objects objs = Raise e.
Proof.
  induction 1 as [o objs [e He] | o objs _ [e He]]; cbn [load_objects].
  - rewrite He. now exists e.
  - destruct (load_object o) as [l | e']; cbn; [| now exists e'].
    rewrite He. now exists e.
Qed.

(** X16.  Loading is all or nothing.  For a file whose ['objects'] is a
    list: if every record loads, the store gets one region for each
    record, in order, and the count is reported; if any record fails,
    wherever it stands in the list, the store is left empty and an error is
    reported, the well-formed records before and after it notwithstanding. *)
Theorem load_is_all_or_nothing (d : gmap string json) (objs : list json) :
  d !! "objects" = Some (JList objs) ->
  (Forall (fun o => exists l, load_object o = Ok l) objs ->
   exists ls : list loaded_circle,
     restore_circles (JDict d) = (ls, MsgRestored (length objs)) /\
     Forall2 (fun o l => load_object o = Ok l) objs ls) /\
  (Exists (fun o => exists e, load_object o = Raise e) objs ->
   exists e, restore_circles (JDict d) = ([], MsgJsonError e)).
Proof.
  intros Hd. unfold restore_circles, py_get. rewrite Hd.
  cbn [default from_option id mbind res_bind py_iter]. split.
  - intros Hall. destruct (load_objects_all objs Hall) as (ls & -> & H2).
    exists ls. split; [| exact H2].
    now rewrite (Forall2_length _ _ _ H2).
  - intros Hex. destruct (load_objects_some_fail objs Hex) as [e ->].
    now exists e.
Qed.

(** ** The cache of region stores *)

Lemma filter_ne_absent (x : string) (l : list string) :
  x ∉ l -> filter (fun y => y <> x) l = l.
Proof.
  induction l as [| z l IH]; [reflexivity |]. intros Hx.
  rewrite filter_cons_True.
  - f_equal. apply IH. intros Hin. apply Hx. now apply list_elem_of_further.
  - intros ->. apply Hx. apply list_elem_of_here.
Qed.

Lemma list_remove_filter (x : string) (l : list string) :
  NoDup l -> list_remove x l = filter (fun y => y <> x) l.
Proof.
  induction 1 as [| y l Hy Hl IH]; [reflexivity |].
  cbn [list_remove]. destruct (bool_decide_reflect (y = x)) as [-> | Hne].
  - rewrite filter_cons_False by tauto. now rewrite filter_ne_absent.
  - rewrite filter_cons_True by exact Hne. now rewrite IH.
Qed.

(** The access order after a use of [filename], when no name was listed
    twice before. *)
Lemma update_state_access_order (c : state_cache) (filename : string) :
  NoDup (state_access_order c) ->
  state_access_order (_update_state_access c filename)
  = filter (fun y => y <> filename) (state_access_order c) ++ [filename].
Proof.
  intros Hnd. unfold _update_state_access. cbn [state_access_order].
  destruct (bool_decide_reflect (filename ∈ state_access_order c)) as [Hin | Hin].
  - now rewrite list_remove_filter.
  - now rewrite filter_ne_absent.
Qed.

Lemma delete_states_lookup (removed : list string) :
  forall (states : gmap string (list circle)) (f : string),
    delete_states states removed !! f
    = if bool_decide (f ∈ removed) then None else states !! f.
Proof.
  induction removed as [| g removed IH]; intros states f;
    cbn [delete_states].
  - reflexivity.
  - rewrite IH.
    assert (E : (if bool_decide (is_Some (states !! g))
                 then delete g states else states) = delete g states).
    { destruct (bool_decide_reflect (is_Some (states !! g))) as [_ | Hn];
        [reflexivity |].
      symmetry. apply delete_id. now apply eq_None_not_Some. }
    rewrite E.
    destruct (bool_decide_reflect (f ∈ removed)) as [Hin | Hin].
    + rewrite bool_decide_eq_true_2; [reflexivity |].
      now apply list_elem_of_further.
    + destruct (decide (f = g)) as [-> | Hne].
      * rewrite lookup_delete_eq, bool_decide_eq_true_2; [reflexivity |].
        apply list_elem_of_here.
      * rewrite lookup_delete_ne by congruence.
        rewrite bool_decide_eq_false_2; [reflexivity |].
        intros H. apply elem_of_cons in H as [? | ?]; contradiction.
Qed.

Lemma update_state_access_NoDup (c : state_cache) (filename : string) :
  NoDup (state_access_order c) ->
  NoDup (state_access_order (_update_state_access c filename)).
Proof.
  intros Hnd. rewrite update_state_access_order by exact Hnd.
  apply NoDup_app. split; [now apply NoDup_filter |]. split.
  - intros x Hx Hx'. apply list_elem_of_filter in Hx as [Hne _].
    apply list_elem_of_singleton in Hx'. contradiction.
  - apply NoDup_singleton.
Qed.

Lemma update_state_access_invariant (c : state_cache) (filename : string) :
  cache_invariant c -> cache_invariant (_update_state_access c filename).
Proof.
  intros [Hnd Hdom]. split; [now apply update_state_access_NoDup |].
  - intros f Hf. rewrite update_state_access_order by exact Hnd.
    cbn [_update_state_access image_states] in Hf.
    apply elem_of_app. destruct (decide (f = filename)) as [-> | Hne].
    + right. apply list_elem_of_singleton. reflexivity.
    + left. apply list_elem_of_filter. auto.
Qed.

Lemma cleanup_old_states_invariant (c : state_cache) :
  cache_invariant c -> cache_invariant (_cleanup_old_states c).
Proof.
  intros [Hnd Hdom]. unfold _cleanup_old_states. cbn [negb MEMORY_EFFICIENT_MODE].
  destruct (MAX_CACHED_STATES <? length (state_access_order c))%nat;
    [| now split].
  set (n := (length (state_access_order c) - MAX_CACHED_STATES)%nat).
  pose proof (take_drop n (state_access_order c)) as E.
  rewrite <- E in Hnd. apply NoDup_app in Hnd as (_ & _ & Hdrop).
  split; cbn [state_access_order image_states]; [exact Hdrop |].
  intros f Hf. rewrite delete_states_lookup in Hf.
  destruct (bool_decide_reflect (f ∈ take n (state_access_order c)))
    as [Hin | Hin]; [now destruct Hf |].
  apply Hdom in Hf. rewrite <- E in Hf.
  apply elem_of_app in Hf as [? | ?]; [contradiction | assumption].
Qed.

Lemma cache_size_bound (c : state_cache) :
  cache_invariant c ->
  (size (image_states c) <= length (state_access_order c))%nat.
Proof.
  intros [Hnd Hdom]. rewrite <- size_dom.
  rewrite <- (size_list_to_set (C := gset string) (state_access_order c))
    by exact Hnd.
  apply subseteq_size. intros f Hf. apply elem_of_dom in Hf.
  apply elem_of_list_to_set. auto.
Qed.

Lemma cache_step_invariant (c : state_cache) (e : cache_event) :
  cache_invariant c -> cache_invariant (cache_step c e).
Proof.
  intros Hinv. destruct e as [name regions written | name];
    cbn [cache_step]; [| now apply update_state_access_invariant].
  unfold save_current_cache.
  assert (H1 : cache_invariant
                 (_update_state_access
                    (StateCache (<[name := regions]> (image_states c))
                       (state_access_order c)) name)).
  { destruct Hinv as [Hnd Hdom]. split.
    - now apply update_state_access_NoDup.
    - intros f Hf. rewrite update_state_access_order by exact Hnd.
      cbn [_update_state_access image_states state_access_order] in *.
      apply elem_of_app. destruct (decide (f = name)) as [-> | Hne].
      + right. now apply list_elem_of_singleton.
      + left. apply list_elem_of_filter. split; [exact Hne |].
        apply Hdom. now rewrite lookup_insert_ne in Hf by congruence. }
  destruct written; [now apply cleanup_old_states_invariant | exact H1].
Qed.

Lemma cache_run_invariant (events : list cache_event) :
  cache_invariant (cache_run events).
Proof.
  unfold cache_run.
  assert (H : cache_invariant empty_cache).
  { split; [constructor |]. intros f [x Hx]. cbn in Hx.
    now rewrite lookup_empty in Hx. }
  revert H. generalize empty_cache.
  induction events as [| e events IH]; intros c Hc; cbn [foldl];
    [exact Hc |].
  apply IH. now apply cache_step_invariant.
Qed.

Lemma cache_run_snoc (events : list cache_event) (e : cache_event) :
  cache_run (events ++ [e]) = cache_step (cache_run events) e.
Proof. unfold cache_run. now rewrite foldl_app. Qed.

(** X17.  The access order is a least-recently-used list: when no name
    is listed twice, a use of [filename] moves it to the most recent end
    (or adds it there), keeps the other names in their order, lists no name
    twice, and leaves the cached states alone. *)
Theorem update_state_access_moves_to_end (c : state_cache)
    (filename : string) :
  NoDup (state_access_order c) ->
  let c' := _update_state_access c filename in
  state_access_order c'
  = filter (fun y => y <> filename) (state_access_order c) ++ [filename] /\
  NoDup (state_access_order c') /\
  image_states c' = image_states c.
Proof.
  intros Hnd. split; [now apply update_state_access_order |].
  split; [now apply update_state_access_NoDup | reflexivity].
Qed.

(** Eviction keeps a suffix of the access order, of at most five names,
    and the states of the names it keeps. *)
Lemma cleanup_old_states_kept (c : state_cache) :
  NoDup (state_access_order c) ->
  exists evicted : list string,
    state_access_order c
    = evicted ++ state_access_order (_cleanup_old_states c) /\
    (length (state_access_order (_cleanup_old_states c))
     <= MAX_CACHED_STATES)%nat /\
    (state_access_order c <> [] ->
     state_access_order (_cleanup_old_states c) <> []) /\
    forall f, f ∈ state_access_order (_cleanup_old_states c) ->
      image_states (_cleanup_old_states c) !! f = image_states c !! f.
Proof.
  intros Hnd. unfold _cleanup_old_states. cbn [negb MEMORY_EFFICIENT_MODE].
  destruct (Nat.ltb_spec MAX_CACHED_STATES (length (state_access_order c)))
    as [Hlt | Hge].
  - set (n := (length (state_access_order c) - MAX_CACHED_STATES)%nat).
    pose proof (take_drop n (state_access_order c)) as E.
    exists (take n (state_access_order c)).
    cbn [state_access_order image_states].
    rewrite <- E in Hnd. apply NoDup_app in Hnd as (_ & Hdisj & _).
    split; [now rewrite E |]. split; [rewrite length_drop; lia |].
    split.
    + intros _ Hnil. apply (f_equal length) in Hnil.
      rewrite length_drop in Hnil. cbn in Hnil. unfold MAX_CACHED_STATES in *.
      lia.
    + intros f Hf. rewrite delete_states_lookup.
      rewrite bool_decide_eq_false_2; [reflexivity |].
      intros Hin. now apply (Hdisj f).
  - exists []. split; [reflexivity |]. split; [lia |]. now split.
Qed.

(** X18.  Eviction keeps the five most recently used names and their
    states: the access order splits into the evicted names and the kept
    ones, at most five; the state of a kept name is untouched, an evicted
    name has no state left, and a state under a name outside the order is
    untouched. *)
Theorem cleanup_keeps_most_recent (c : state_cache) :
  NoDup (state_access_order c) ->
  let c' := _cleanup_old_states c in
  exists evicted : list string,
    state_access_order c = evicted ++ state_access_order c' /\
    length (state_access_order c')
    = Nat.min MAX_CACHED_STATES (length (state_access_order c)) /\
    (forall f, f ∈ state_access_order c' ->
       image_states c' !! f = image_states c !! f) /\
    (forall f, f ∈ evicted -> image_states c' !! f = None) /\
    (forall f, f ∉ state_access_order c ->
       image_states c' !! f = image_states c !! f).
Proof.
  intros Hnd. unfold _cleanup_old_states. cbn [negb MEMORY_EFFICIENT_MODE].
  destruct (Nat.ltb_spec MAX_CACHED_STATES (length (state_access_order c)))
    as [Hlt | Hge].
  - set (n := (length (state_access_order c) - MAX_CACHED_STATES)%nat).
    pose proof (take_drop n (state_access_order c)) as E.
    exists (take n (state_access_order c)).
    cbn [state_access_order image_states].
    rewrite <- E in Hnd. apply NoDup_app in Hnd as (_ & Hdisj & _).
    split; [now rewrite E |]. split; [rewrite length_drop; lia |].
    split; [| split].
    + intros f Hf. rewrite delete_states_lookup.
      rewrite bool_decide_eq_false_2; [reflexivity |].
      intros Hin. now apply (Hdisj f).
    + intros f Hf. rewrite delete_states_lookup.
      now rewrite bool_decide_eq_true_2.
    + intros f Hf. rewrite delete_states_lookup.
      rewrite bool_decide_eq_false_2; [reflexivity |].
      intros Hin. apply Hf. rewrite <- E. apply elem_of_app. now left.
  - exists []. cbn zeta. split; [reflexivity |]. split; [lia |].
    split; [reflexivity |]. split; [| reflexivity].
    intros f Hf. inversion Hf.
Qed.

(** X19.  The cache after a save that got to the end of its [try]
    block, whatever saves and loads came before in the session: the saved
    store is in the cache under its file name, that name is the most
    recently used, and the cache holds at most five states under at most
    five names. *)
Theorem cache_bounded_after_save (events : list cache_event) (name : string)
    (regions : list circle) :
  let c := cache_run (events ++ [CacheSave name regions true]) in
  image_states c !! name = Some regions /\
  last (state_access_order c) = Some name /\
  (length (state_access_order c) <= MAX_CACHED_STATES)%nat /\
  (size (image_states c) <= MAX_CACHED_STATES)%nat.
Proof.
  cbn zeta.
  pose proof (cache_run_invariant (events ++ [CacheSave name regions true]))
    as Hinv.
  rewrite cache_run_snoc in *. cbn [cache_step] in *.
  pose proof (cache_run_invariant events) as [Hnd0 _].
  set (c0 := cache_run events) in *.
  unfold save_current_cache in *.
  set (c1 := _update_state_access
               (StateCache (<[name := regions]> (image_states c0))
                  (state_access_order c0)) name) in *.
  assert (Hnd1 : NoDup (state_access_order c1))
    by now apply update_state_access_NoDup.
  assert (Hlast : last (state_access_order c1) = Some name).
  { unfold c1. rewrite update_state_access_order by exact Hnd0.
    apply last_snoc. }
  assert (Hst : image_states c1 !! name = Some regions).
  { unfold c1. cbn. apply lookup_insert_eq. }
  destruct (cleanup_old_states_kept c1 Hnd1)
    as (evicted & Eord & Hlen & Hne & Hkept).
  assert (Hlast' : last (state_access_order (_cleanup_old_states c1))
                   = Some name).
  { destruct (state_access_order (_cleanup_old_states c1)) as [| x l] eqn:El
      using rev_ind.
    - exfalso. apply Hne; [| reflexivity]. intros E. now rewrite E in Hlast.
    - rewrite Eord, app_assoc, last_snoc in Hlast. now rewrite last_snoc. }
  assert (Hin : name ∈ state_access_order (_cleanup_old_states c1)).
  { destruct (last_Some_snoc _ _ Hlast') as [l El]. rewrite El.
    apply elem_of_app. right. apply list_elem_of_here. }
  split; [| split; [exact Hlast' | split]].
  - now rewrite Hkept.
  - lia.
  - etransitivity; [apply cache_size_bound, Hinv |]. lia.
Qed.

(** ** Display geometry *)

Lemma py_int_ge (q : Q) (k : Z) : (inject_Z k <= q)%Q -> 0 <= k -> k <= py_int q.
Proof.
  intros H Hk. pose proof (py_int_floor_ceiling q) as [Hf _].
  apply Qfloor_resp_le in H. rewrite Qfloor_Z in H. lia.
Qed.

Lemma py_int_le (q : Q) (k : Z) : (q <= inject_Z k)%Q -> py_int q <= k.
Proof.
  intros H. pose proof (py_int_floor_ceiling q) as [_ Hc].
  apply Qceiling_resp_le in H. rewrite Qceiling_Z in H. lia.
Qed.

(** X20.  The status bar is between 1 and 100 pixels high, whatever the
    height of the display and however the float product is rounded; the
    two branches of the function come to the same: the height is 15
    percent of the display height, truncated, cut to at most 100 and at
    least 1. *)
Theorem ui_height_between_1_and_100 (fl : Q -> Q) (image_height : Z) :
  1 <= _get_dynamic_ui_height fl image_height <= 100 /\
  _get_dynamic_ui_height fl image_height
  = Z.max 1
      (Z.min 100
         (py_int (fmul fl (float_of_int fl image_height) (fl (15 # 100))))).
Proof.
  unfold _get_dynamic_ui_height.
  set (x := fmul fl (float_of_int fl image_height) (fl (15 # 100))).
  destruct (Qle_bool (inject_Z 30) x) eqn:E.
  - apply Qle_bool_iff in E. pose proof (py_int_ge x 30 E). lia.
  - apply not_true_iff_false in E. rewrite Qle_bool_iff in E.
    apply Qnot_le_lt in E. pose proof (py_int_le x 30 (Qlt_le_weak _ _ E)).
    lia.
Qed.

Lemma length_substring_0 (n : nat) (s : string) :
  String.length (substring 0 n s) = Nat.min n (String.length s).
Proof.
  revert n. induction s as [| c s IH]; intros [| n]; cbn; auto.
Qed.

Lemma length_string_app (a b : string) :
  String.length (a +:+ b) = (String.length a + String.length b)%nat.
Proof.
  induction a as [| c a IH]; [reflexivity |].
  change (S (String.length (a +:+ b)) = S (String.length a + String.length b)).
  now rewrite IH.
Qed.

(** X21.  The file name in the status bar takes at most [max_chars]
    characters, a number that is at least 20: a name within that length
    is shown whole, a longer one is cut to its first [max_chars - 3]
    characters followed by three dots, which makes [max_chars] characters
    exactly. *)
Theorem shown_filename_fits (fl : Q -> Q) (w : Z) (filename : string) :
  let shown := shown_filename fl w filename in
  20 <= max_chars fl w /\
  Z.of_nat (String.length shown) <= max_chars fl w /\
  (Z.of_nat (String.length filename) <= max_chars fl w -> shown = filename) /\
  (max_chars fl w < Z.of_nat (String.length filename) ->
   shown = substring 0 (Z.to_nat (max_chars fl w - 3)) filename +:+ "..." /\
   Z.of_nat (String.length shown) = max_chars fl w).
Proof.
  cbn zeta. unfold shown_filename.
  assert (Hm : 20 <= max_chars fl w) by (unfold max_chars; lia).
  split; [exact Hm |].
  destruct (Z.ltb_spec (max_chars fl w) (Z.of_nat (String.length filename)))
    as [Hlt | Hge].
  - rewrite length_string_app, length_substring_0. cbn [String.length].
    repeat split; lia.
  - repeat split; try lia.
Qed.

(** ** The label under the pointer while it is typed *)

Section TypingLabelFacts.

Variable fl : Q -> Q.
Variable getTextSize : string -> Q -> Z -> (Z * Z) * Z.

(** X22.  The label drawn while typing is clamped into the image: its
    rectangle is the text box grown by a padding of at least 4 on every
    side, its left and top edges are never negative, and when the image is
    wide (high) enough for the rectangle, the rectangle ends inside the
    image on the right (at the bottom), wherever the circle is.  When the
    image is wider than the rectangle by twice the padding, that much is
    left free on the right. *)
Theorem typing_label_is_clamped (image_size center : Z * Z) (radius : Z)
    (label : string) (mode : EditMode) :
  let d := _draw_typing_label fl getTextSize image_size center radius label
             mode in
  let '(img_h, img_w) := image_size in
  let '(label_scale, label_thickness) :=
    _get_dynamic_label_params fl image_size in
  let '((text_w, text_h), baseline) :=
    getTextSize (td_text d) (fadd fl label_scale (fl (1 # 10)))
      (label_thickness + 1) in
  let padding := typing_padding fl label_scale in
  let '(x1, y1, x2, y2) := td_rect d in
  td_text d = "[" +:+ upper (first3 (value mode)) +:+ "] " +:+ label +:+ "_" /\
  4 <= padding /\
  (x1, y1) = (fst (td_origin d) - padding, snd (td_origin d) - text_h - padding) /\
  x2 - x1 = text_w + 2 * padding /\
  y2 - y1 = text_h + baseline + 2 * padding /\
  0 <= x1 /\ 0 <= y1 /\
  (text_w + 2 * padding <= img_w -> x2 <= img_w) /\
  (text_h + baseline + 2 * padding <= img_h -> y2 <= img_h) /\
  (text_w + 4 * padding <= img_w -> x2 <= img_w - 2 * padding) /\
  snd (td_line d) = center.
Proof.
  destruct image_size as [img_h img_w]. unfold _draw_typing_label.
  destruct (_get_dynamic_label_params fl (img_h, img_w))
    as [label_scale label_thickness].
  set (text := "[" +:+ upper (first3 (value mode)) +:+ "] " +:+ label +:+ "_").
  destruct (getTextSize text (fadd fl label_scale (fl (1 # 10)))
              (label_thickness + 1)) as [[text_w text_h] baseline] eqn:Eg.
  set (padding := typing_padding fl label_scale).
  assert (Hp : 4 <= padding) by (unfold padding, typing_padding; lia).
  match goal with
  | |- context [List.find ?f ?l] => destruct (List.find f l) as [[px py] |]
  end; cbn [td_text td_rect td_origin td_line fst snd]; rewrite Eg;
    repeat split; lia.
Qed.

End TypingLabelFacts.

(** ** The zoomed view *)

(** One axis of the arithmetic of [_get_zoomed_view]: [n] is the extent
    of the view, [new_n] that of the zoomed image. *)
Lemma view_paste_axis (n new_n pan s e t c : Z) :
  s = Z.max 0 (- pan) ->
  e = Z.min new_n (n - pan) ->
  t = Z.max 0 pan ->
  c = Z.min (Z.min e new_n - s) (Z.min (t + (e - s)) n - t) ->
  (s < e ->
   t < n /\ 0 < c /\ 0 <= t /\ t + c <= n /\ 0 <= s /\ s + c <= new_n /\
   s - t = - pan /\
   forall y, t <= y < t + c <-> (0 <= y < n /\ 0 <= y - pan < new_n)) /\
  (s < e -> t < n -> 0 < c) /\
  (~ (s < e /\ t < n) -> forall y, ~ (0 <= y < n /\ 0 <= y - pan < new_n)).
Proof. intros -> -> -> ->. repeat split; intros; lia. Qed.

(** The paste of [_get_zoomed_view] covers exactly the points of the view
    whose preimage under the pan lies in the zoomed image, and takes each
    from its preimage; both slices lie within their arrays. *)
Lemma view_paste_some (h w new_h new_w pan_x pan_y : Z) (p : paste) :
  view_paste h w new_h new_w pan_x pan_y = Some p ->
  paste_in_range p (h, w) (new_h, new_w) /\
  start_y p - target_y p = - pan_y /\ start_x p - target_x p = - pan_x /\
  forall y x,
    (target_y p <=? y) && (y <? target_y p + copy_h p)
    && (target_x p <=? x) && (x <? target_x p + copy_w p)
    = (0 <=? y) && (y <? h) && (0 <=? x) && (x <? w)
      && (0 <=? y - pan_y) && (y - pan_y <? new_h)
      && (0 <=? x - pan_x) && (x - pan_x <? new_w).
Proof.
  unfold view_paste.
  remember (Z.max 0 (- pan_x)) as sx eqn:Esx.
  remember (Z.max 0 (- pan_y)) as sy eqn:Esy.
  remember (Z.min new_w (w - pan_x)) as ex eqn:Eex.
  remember (Z.min new_h (h - pan_y)) as ey eqn:Eey.
  remember (Z.max 0 pan_x) as tx eqn:Etx.
  remember (Z.max 0 pan_y) as ty eqn:Ety.
  remember (Z.min (Z.min ex new_w - sx) (Z.min (tx + (ex - sx)) w - tx))
    as cw eqn:Ecw.
  remember (Z.min (Z.min ey new_h - sy) (Z.min (ty + (ey - sy)) h - ty))
    as ch eqn:Ech.
  destruct (view_paste_axis w new_w pan_x sx ex tx cw Esx Eex Etx Ecw)
    as (Hx & _ & _).
  destruct (view_paste_axis h new_h pan_y sy ey ty ch Esy Eey Ety Ech)
    as (Hy & _ & _).
  clear Esx Esy Eex Eey Etx Ety Ecw Ech.
  destruct ((sx <? ex) && (sy <? ey) && (tx <? w) && (ty <? h)) eqn:E1;
    [| discriminate].
  destruct ((0 <? cw) && (0 <? ch)) eqn:E2; [| discriminate].
  intros [= <-]. unfold paste_in_range.
  cbn [target_y target_x start_y start_x copy_h copy_w fst snd].
  rewrite !andb_true_iff, !Z.ltb_lt in E1.
  destruct E1 as [[[E1x E1y] _] _].
  destruct (Hx E1x) as (? & ? & ? & ? & ? & ? & ? & Hxs).
  destruct (Hy E1y) as (? & ? & ? & ? & ? & ? & ? & Hys).
  split; [repeat split; lia |]. split; [lia |]. split; [lia |].
  intros y x. specialize (Hxs x). specialize (Hys y).
  apply eq_true_iff_eq. rewrite !andb_true_iff, !Z.leb_le, !Z.ltb_lt. lia.
Qed.

Lemma view_paste_none (h w new_h new_w pan_x pan_y : Z) :
  view_paste h w new_h new_w pan_x pan_y = None ->
  forall y x,
    (0 <=? y) && (y <? h) && (0 <=? x) && (x <? w)
    && (0 <=? y - pan_y) && (y - pan_y <? new_h)
    && (0 <=? x - pan_x) && (x - pan_x <? new_w) = false.
Proof.
  unfold view_paste.
  remember (Z.max 0 (- pan_x)) as sx eqn:Esx.
  remember (Z.max 0 (- pan_y)) as sy eqn:Esy.
  remember (Z.min new_w (w - pan_x)) as ex eqn:Eex.
  remember (Z.min new_h (h - pan_y)) as ey eqn:Eey.
  remember (Z.max 0 pan_x) as tx eqn:Etx.
  remember (Z.max 0 pan_y) as ty eqn:Ety.
  remember (Z.min (Z.min ex new_w - sx) (Z.min (tx + (ex - sx)) w - tx))
    as cw eqn:Ecw.
  remember (Z.min (Z.min ey new_h - sy) (Z.min (ty + (ey - sy)) h - ty))
    as ch eqn:Ech.
  destruct (view_paste_axis w new_w pan_x sx ex tx cw Esx Eex Etx Ecw)
    as (_ & Hxc & Hxn).
  destruct (view_paste_axis h new_h pan_y sy ey ty ch Esy Eey Ety Ech)
    as (_ & Hyc & Hyn).
  clear Esx Esy Eex Eey Etx Ety Ecw Ech.
  intros H y x.
  apply not_true_iff_false. rewrite !andb_true_iff, !Z.leb_le, !Z.ltb_lt.
  intros Hin.
  destruct ((sx <? ex) && (sy <? ey) && (tx <? w) && (ty <? h)) eqn:E1.
  - rewrite !andb_true_iff, !Z.ltb_lt in E1.
    destruct ((0 <? cw) && (0 <? ch)) eqn:E2; [discriminate |].
    apply not_true_iff_false in E2. rewrite !andb_true_iff, !Z.ltb_lt in E2.
    apply E2. split; [apply Hxc | apply Hyc]; tauto.
  - apply not_true_iff_false in E1. rewrite !andb_true_iff, !Z.ltb_lt in E1.
    destruct (Z.lt_ge_cases sx ex) as [Hsx | Hsx];
      [destruct (Z.lt_ge_cases tx w) as [Htx | Htx] |].
    + destruct (Z.lt_ge_cases sy ey) as [Hsy | Hsy];
        [destruct (Z.lt_ge_cases ty h) as [Hty | Hty] |].
      * tauto.
      * apply (Hyn ltac:(lia) y). lia.
      * apply (Hyn ltac:(lia) y). lia.
    + apply (Hxn ltac:(lia) x). lia.
    + apply (Hxn ltac:(lia) x). lia.
Qed.

Section UnitZoom.

Variable fl : Q -> Q.
Variable B : Z.
Hypothesis fl_mono : forall a b : Q, (a <= b)%Q -> (fl a <= fl b)%Q.
Hypothesis fl_int :
  forall z : Z, Z.abs z <= B -> (fl (inject_Z z) == inject_Z z)%Q.

Lemma py_int_of_int (q : Q) (z : Z) : (q == inject_Z z)%Q -> py_int q = z.
Proof.
  intros E. assert (z <= py_int q <= z); [| lia].
  apply py_int_between; rewrite E; apply Qle_refl.
Qed.

Lemma fl_of_int (q : Q) (z : Z) :
  Z.abs z <= B -> (q == inject_Z z)%Q -> (fl q == inject_Z z)%Q.
Proof.
  intros Hz E. rewrite (fl_proper fl fl_mono _ _ E). now apply fl_int.
Qed.

(** At zoom 1.0 the size computed for the zoomed image is the size of the
    image. *)
Lemma unit_zoom_size (zoom : Q) (n : Z) :
  (zoom == 1)%Q -> Z.abs n <= B ->
  py_int (fmul fl (float_of_int fl n) zoom) = n.
Proof.
  intros Hz Hn. apply py_int_of_int. apply fl_of_int; [exact Hn |].
  unfold float_of_int. rewrite fl_int by exact Hn. rewrite Hz. ring.
Qed.

(** X23.  At zoom 1.0 the two coordinate maps are exact translations by
    the pan offset and undo each other: the screen point [(x, y)] is the
    image point [(x - pan_x, y - pan_y)], which is drawn at [(x, y)].
    The coordinates are in the range where integers convert to floats
    exactly. *)
Theorem unit_zoom_maps_are_translations (st : editor) (x y : Z) :
  (zoom_level st == 1)%Q ->
  Z.abs x <= B -> Z.abs y <= B ->
  Z.abs (pan_x st) <= B -> Z.abs (pan_y st) <= B ->
  Z.abs (x - pan_x st) <= B -> Z.abs (y - pan_y st) <= B ->
  _screen_to_image_coords fl st x y = Ok (x - pan_x st, y - pan_y st) /\
  _image_to_screen_coords fl st (x - pan_x st) (y - pan_y st) = (x, y).
Proof.
  intros Hz Hx Hy Hpx Hpy Hdx Hdy.
  assert (Hz0 : Qeq_bool (zoom_level st) 0 = false).
  { apply not_true_is_false. intros E. apply Qeq_bool_iff in E.
    rewrite E in Hz. discriminate. }
  split.
  - unfold _screen_to_image_coords, fdiv. rewrite Hz0. cbn [mbind res_bind].
    f_equal. f_equal; apply py_int_of_int; (apply fl_of_int; [assumption |]);
      unfold float_of_int; rewrite fl_int by assumption; rewrite Hz; field.
  - unfold _image_to_screen_coords, fadd.
    f_equal; apply py_int_of_int; (apply fl_of_int; [assumption |]);
      unfold float_of_int, fmul.
    + rewrite (fl_int (pan_x st)) by assumption.
      rewrite (fl_of_int _ (x - pan_x st)) by
        (try assumption; rewrite fl_int by assumption; rewrite Hz; ring).
      unfold Z.sub. rewrite inject_Z_plus, inject_Z_opp. ring.
    + rewrite (fl_int (pan_y st)) by assumption.
      rewrite (fl_of_int _ (y - pan_y st)) by
        (try assumption; rewrite fl_int by assumption; rewrite Hz; ring).
      unfold Z.sub. rewrite inject_Z_plus, inject_Z_opp. ring.
Qed.

Context {cv : Cv} {ops : ViewOps cv} {laws : ViewLaws cv ops}.

Lemma zoomed_image_size (st : editor) (img zoomed : image) (h w : Z) :
  shape img = (h, w) -> Z.abs h <= B -> Z.abs w <= B ->
  zoomed_image fl st img = Ok zoomed ->
  shape zoomed
  = (py_int (fmul fl (float_of_int fl h) (zoom_level st)),
     py_int (fmul fl (float_of_int fl w) (zoom_level st))).
Proof.
  intros Hshape Hh Hw. unfold zoomed_image. rewrite Hshape.
  destruct (Qeq_bool (zoom_level st) (1 # 1)) eqn:Hz; cbn [negb].
  - apply Qeq_bool_iff in Hz. intros [= <-].
    rewrite copy_shape, Hshape, !unit_zoom_size by assumption. reflexivity.
  - apply cv2_resize_shape.
Qed.

(** X24.  The view is the zoomed image moved by the pan on a black
    canvas.  Whenever the zoomed image can be made, the function returns,
    whatever the pan: the slice assignment has both slices within their
    arrays.  The pixel of the view at [(y, x)] is the pixel of the zoomed
    image at [(y - pan_y, x - pan_x)] where [(y, x)] is in the view and
    that point is in the zoomed image, and the pixel of [np.zeros]
    elsewhere. *)
Theorem zoomed_view_is_translation (st : editor) (img zoomed : image)
    (h w : Z) :
  shape img = (h, w) -> 0 < h <= B -> 0 < w <= B ->
  zoomed_image fl st img = Ok zoomed ->
  exists (view : image) (new_h new_w : Z),
    shape zoomed = (new_h, new_w) /\
    _get_zoomed_view fl st img = Ok view /\
    forall y x : Z,
      px view y x
      = if (0 <=? y) && (y <? h) && (0 <=? x) && (x <? w)
           && (0 <=? y - pan_y st) && (y - pan_y st <? new_h)
           && (0 <=? x - pan_x st) && (x - pan_x st <? new_w)
        then px zoomed (y - pan_y st) (x - pan_x st)
        else zero_pixel.
Proof.
  intros Hshape Hh Hw Hz.
  pose proof (zoomed_image_size st img zoomed h w Hshape ltac:(lia) ltac:(lia)
                Hz) as Hzs.
  set (new_w := py_int (fmul fl (float_of_int fl w) (zoom_level st))) in *.
  set (new_h := py_int (fmul fl (float_of_int fl h) (zoom_level st))) in *.
  unfold _get_zoomed_view. rewrite Hshape, Hz. cbn [mbind res_bind].
  fold new_w new_h.
  destruct (view_paste h w new_h new_w (pan_x st) (pan_y st)) as [p |] eqn:Ep.
  - destruct (view_paste_some _ _ _ _ _ _ _ Ep) as (Hr & Ey & Ex & Hin).
    destruct (assign_slice_px h w zoomed p ltac:(lia) ltac:(lia))
      as (view & -> & Hpx).
    { now rewrite Hzs. }
    exists view, new_h, new_w. split; [exact Hzs |].
    split; [reflexivity |]. intros y x.
    rewrite Hpx, Hin.
    replace (start_y p + (y - target_y p)) with (y - pan_y st) by lia.
    replace (start_x p + (x - target_x p)) with (x - pan_x st) by lia.
    reflexivity.
  - exists (np_zeros h w), new_h, new_w. split; [exact Hzs |].
    split; [reflexivity |]. intros y x.
    now rewrite np_zeros_px, (view_paste_none _ _ _ _ _ _ Ep).
Qed.

End UnitZoom.

(** ** Scaling to the working size *)

Lemma py_int_nonneg (q : Q) :
  (0 <= q)%Q -> (inject_Z (py_int q) <= q)%Q /\ 0 <= py_int q.
Proof.
  intros H. assert (E : py_int q = Qfloor q).
  { destruct q as [n d]. unfold py_int, Qfloor. cbn [Qnum Qden].
    apply Z.quot_div_nonneg; [| lia].
    unfold Qle in H. cbn in H. lia. }
  rewrite E. split; [apply Qfloor_le |].
  change 0%Q with (inject_Z 0) in H.
  apply Qfloor_resp_le in H. now rewrite Qfloor_Z in H.
Qed.

(** A product of two factors carrying a relative error [e], rounded once
    more, stays within one of the exact product [L = r * N]. *)
Lemma rounded_product_upper (N r L e f s p : Q) :
  (0 < N -> r * N == L -> 0 < L -> L <= 1400 -> 0 <= e -> e <= 1 # 10000 ->
   N * (1 - e) <= f -> f <= N * (1 + e) ->
   0 <= s -> s <= r * (1 + e) ->
   p <= (f * s) * (1 + e) ->
   0 <= f * s /\ p < L + 1)%Q.
Proof.
  intros HN Hr HL HL' He He' Hf1 Hf2 Hs1 Hs2 Hp2.
  assert (Hr0 : (0 <= r)%Q) by nra.
  assert (A1 : (f * s <= L * ((1 + e) * (1 + e)))%Q).
  { assert (f * s <= (N * (1 + e)) * s)%Q by nra.
    assert ((N * (1 + e)) * s <= (N * (1 + e)) * (r * (1 + e)))%Q by nra.
    assert ((N * (1 + e)) * (r * (1 + e)) == L * ((1 + e) * (1 + e)))%Q.
    { rewrite <- Hr. ring. }
    lra. }
  assert (A2 : ((1 + e) * (1 + e) <= 1 + 3 * e)%Q) by nra.
  assert (A3 : (0 <= f * s)%Q).
  { assert (0 <= N * (1 - e))%Q by nra. assert (0 <= f)%Q by lra.
    now apply Qmult_le_0_compat. }
  assert (A4 : (p <= L * ((1 + 3 * e) * (1 + e)))%Q).
  { assert (f * s * (1 + e) <= L * ((1 + e) * (1 + e)) * (1 + e))%Q by nra.
    assert (L * ((1 + e) * (1 + e)) <= L * (1 + 3 * e))%Q by nra.
    assert (L * ((1 + e) * (1 + e)) * (1 + e) <= L * (1 + 3 * e) * (1 + e))%Q
      by nra.
    lra. }
  assert (A5 : ((1 + 3 * e) * (1 + e) <= 1 + 5 * e)%Q) by nra.
  assert (A6 : (L * ((1 + 3 * e) * (1 + e)) <= L * (1 + 5 * e))%Q) by nra.
  assert (A7 : (L * (5 * e) <= 7 # 10)%Q) by nra.
  split; lra.
Qed.

Lemma rounded_product_lower (N r L e f s p : Q) :
  (0 < N -> r * N == L -> 0 < L -> L <= 1400 -> 0 <= e -> e <= 1 # 10000 ->
   N * (1 - e) <= f -> f <= N * (1 + e) ->
   r * (1 - e) <= s ->
   (f * s) * (1 - e) <= p ->
   L - 1 < p)%Q.
Proof.
  intros HN Hr HL HL' He He' Hf1 Hf2 Hs1 Hp1.
  assert (Hr0 : (0 <= r)%Q) by nra.
  assert (Hn0 : (0 <= N * (1 - e))%Q) by nra.
  assert (Hs0 : (0 <= s)%Q) by nra.
  assert (A1 : (L * ((1 - e) * (1 - e)) <= f * s)%Q).
  { assert ((N * (1 - e)) * (r * (1 - e)) <= (N * (1 - e)) * s)%Q by nra.
    assert ((N * (1 - e)) * s <= f * s)%Q by nra.
    assert ((N * (1 - e)) * (r * (1 - e)) == L * ((1 - e) * (1 - e)))%Q.
    { rewrite <- Hr. ring. }
    lra. }
  assert (A2 : (1 - 2 * e <= (1 - e) * (1 - e))%Q) by nra.
  assert (A3 : (L * (1 - 2 * e) <= f * s)%Q).
  { assert (L * (1 - 2 * e) <= L * ((1 - e) * (1 - e)))%Q by nra. lra. }
  assert (A4 : (L * (1 - 2 * e) * (1 - e) <= f * s * (1 - e))%Q) by nra.
  assert (A5 : (1 - 3 * e <= (1 - 2 * e) * (1 - e))%Q) by nra.
  assert (A6 : (L * (1 - 3 * e) <= L * ((1 - 2 * e) * (1 - e)))%Q) by nra.
  assert (A7 : (L * (3 * e) <= 1 # 2)%Q) by nra.
  lra.
Qed.

Section ScaleFacts.

Variable fl : Q -> Q.
Context {cv : Cv}.

(** The relative error of a float operation with a non-negative exact
    result is at most [eps] (2^-53 for binary64). *)
Variable eps : Q.
Hypothesis eps_small : (0 <= eps)%Q /\ (eps <= 1 # 10000)%Q.
Hypothesis fl_rel :
  forall q : Q,
    (0 <= q)%Q -> (q * (1 - eps) <= fl q)%Q /\ (fl q <= q * (1 + eps))%Q.

(** The extent [int(n * scale)] for a scale close to [limit / n]. *)
Lemma scaled_extent (n limit : Z) (scale : Q) :
  0 < n -> 0 < limit <= 1400 ->
  (0 <= scale)%Q ->
  (scale <= inject_Z limit / inject_Z n * (1 + eps))%Q ->
  let extent := py_int (fmul fl (float_of_int fl n) scale) in
  0 <= extent <= limit /\
  ((inject_Z limit / inject_Z n * (1 - eps) <= scale)%Q ->
   limit - 1 <= extent).
Proof.
  intros Hn [Hl Hl'] Hs Hsu. cbn zeta. unfold fmul, float_of_int.
  destruct eps_small as [He He'].
  assert (HN : (0 < inject_Z n)%Q).
  { change 0%Q with (inject_Z 0). rewrite <- Zlt_Qlt. lia. }
  assert (HL : (0 < inject_Z limit)%Q).
  { change 0%Q with (inject_Z 0). rewrite <- Zlt_Qlt. lia. }
  assert (HL' : (inject_Z limit <= 1400)%Q).
  { change 1400%Q with (inject_Z 1400). rewrite <- Zle_Qle. lia. }
  assert (Hr : (inject_Z limit / inject_Z n * inject_Z n == inject_Z limit)%Q).
  { field. lra. }
  destruct (fl_rel (inject_Z n) (Qlt_le_weak _ _ HN)) as [Hf1 Hf2].
  set (f := fl (inject_Z n)) in *.
  assert (Hfs : (0 <= f * scale)%Q).
  { assert (0 <= inject_Z n * (1 - eps))%Q by nra. assert (0 <= f)%Q by lra.
    now apply Qmult_le_0_compat. }
  destruct (fl_rel (f * scale) Hfs) as [Hp1 Hp2].
  set (p := fl (f * scale)) in *.
  destruct (rounded_product_upper _ _ _ _ _ _ p HN Hr HL HL' He He' Hf1 Hf2
              Hs Hsu Hp2) as [_ Hup].
  assert (Hp0 : (0 <= p)%Q).
  { assert (0 <= f * scale * (1 - eps))%Q by (apply Qmult_le_0_compat; lra).
    lra. }
  destruct (py_int_nonneg p Hp0) as [Hle H0].
  split.
  - split; [exact H0 |].
    assert (H : (inject_Z (py_int p) < inject_Z (limit + 1))%Q).
    { rewrite inject_Z_plus. change (inject_Z 1) with 1%Q. lra. }
    rewrite <- Zlt_Qlt in H. lia.
  - intros Hsl.
    pose proof (rounded_product_lower _ _ _ _ _ _ p HN Hr HL HL' He He' Hf1
                  Hf2 Hsl Hp1) as Hlo.
    pose proof (py_int_lower p) as Hpl.
    assert (H : (inject_Z (limit - 2) < inject_Z (py_int p))%Q).
    { unfold Z.sub. rewrite inject_Z_plus.
      change (inject_Z (- (2))) with (- (2))%Q. lra. }
    rewrite <- Zlt_Qlt in H. lia.
Qed.

(** X25.  The working image fits 1400 by 900.  An image within that size
    is copied and the scale factor is 1.0.  A larger one is resized with a
    scale factor strictly between 0 and 1, to a width of at most 1400 and a
    height of at most 900, and one of the two is within a pixel of its
    limit. *)
Theorem scale_image_fits_working_size (original_image : image)
    (height width : Z) :
  shape original_image = (height, width) -> 0 < height -> 0 < width ->
  (height <= 900 /\ width <= 1400 ->
   _scale_image fl original_image = Ok (1 # 1, copy original_image)) /\
  (900 < height \/ 1400 < width ->
   exists (scale_factor : Q) (new_width new_height : Z),
     _scale_image fl original_image
     = (scaled ← cv2_resize original_image (new_width, new_height) INTER_AREA;
        Ok (scale_factor, scaled)) /\
     (0 < scale_factor)%Q /\ (scale_factor < 1)%Q /\
     0 <= new_width <= 1400 /\ 0 <= new_height <= 900 /\
     (1399 <= new_width \/ 899 <= new_height)).
Proof.
  intros Hshape Hh Hw. unfold _scale_image. rewrite Hshape.
  destruct eps_small as [He He'].
  split.
  - intros [H1 H2].
    destruct (Z.ltb_spec 900 height); [lia |].
    destruct (Z.ltb_spec 1400 width); [lia |]. reflexivity.
  - intros Hbig.
    assert (Hc : (900 <? height) || (1400 <? width) = true).
    { apply orb_true_iff. rewrite !Z.ltb_lt. exact Hbig. }
    rewrite Hc. unfold fdiv.
    assert (HH : (0 < inject_Z height)%Q).
    { change 0%Q with (inject_Z 0). rewrite <- Zlt_Qlt. lia. }
    assert (HW : (0 < inject_Z width)%Q).
    { change 0%Q with (inject_Z 0). rewrite <- Zlt_Qlt. lia. }
    assert (Hh0 : Qeq_bool (inject_Z height) 0 = false).
    { apply not_true_is_false. intros E. apply Qeq_bool_iff in E. lra. }
    assert (Hw0 : Qeq_bool (inject_Z width) 0 = false).
    { apply not_true_is_false. intros E. apply Qeq_bool_iff in E. lra. }
    rewrite Hh0, Hw0. cbn [mbind res_bind].
    set (rh := (inject_Z 900 / inject_Z height)%Q).
    set (rw := (inject_Z 1400 / inject_Z width)%Q).
    assert (Hrh : (rh * inject_Z height == 900)%Q) by (unfold rh; field; lra).
    assert (Hrw : (rw * inject_Z width == 1400)%Q) by (unfold rw; field; lra).
    assert (Hrh0 : (0 < rh)%Q) by nra.
    assert (Hrw0 : (0 < rw)%Q) by nra.
    destruct (fl_rel rh (Qlt_le_weak _ _ Hrh0)) as [Hsh1 Hsh2].
    destruct (fl_rel rw (Qlt_le_weak _ _ Hrw0)) as [Hsw1 Hsw2].
    set (scale_h := fl rh) in *. set (scale_w := fl rw) in *.
    assert (Hsh0 : (0 < scale_h)%Q) by nra.
    assert (Hsw0 : (0 < scale_w)%Q) by nra.
    set (scale := py_min scale_h scale_w).
    assert (Hmin : (scale <= scale_h)%Q /\ (scale <= scale_w)%Q /\
                   (scale == scale_h \/ scale == scale_w)%Q).
    { unfold scale, py_min, Qltb.
      destruct (Qle_bool scale_h scale_w) eqn:E; cbn [negb].
      - apply Qle_bool_iff in E. repeat split; lra.
      - apply not_true_iff_false in E. rewrite Qle_bool_iff in E.
        apply Qnot_le_lt in E. repeat split; lra. }
    destruct Hmin as (Hm1 & Hm2 & Hm3).
    assert (Hs0 : (0 < scale)%Q) by (destruct Hm3 as [-> | ->]; assumption).
    exists scale, (py_int (fmul fl (float_of_int fl width) scale)),
      (py_int (fmul fl (float_of_int fl height) scale)).
    split; [reflexivity |]. split; [exact Hs0 |].
    destruct (scaled_extent width 1400 scale Hw ltac:(lia)
                (Qlt_le_weak _ _ Hs0)) as [Hwb Hwl].
    { fold rw. lra. }
    destruct (scaled_extent height 900 scale Hh ltac:(lia)
                (Qlt_le_weak _ _ Hs0)) as [Hhb Hhl].
    { fold rh. lra. }
    cbn zeta in *. split; [| split; [exact Hwb | split; [exact Hhb |]]].
    + destruct Hbig as [Hb | Hb].
      * assert (inject_Z 901 <= inject_Z height)%Q by (rewrite <- Zle_Qle; lia).
        change (inject_Z 901) with 901%Q in *.
        assert (rh * 901 <= 900)%Q by nra.
        assert (scale_h < 1)%Q by nra. lra.
      * assert (inject_Z 1401 <= inject_Z width)%Q by (rewrite <- Zle_Qle; lia).
        change (inject_Z 1401) with 1401%Q in *.
        assert (rw * 1401 <= 1400)%Q by nra.
        assert (scale_w < 1)%Q by nra. lra.
    + destruct Hm3 as [E | E].
      * right. apply Hhl. fold rh. lra.
      * left. apply Hwl. fold rw. lra.
Qed.

End ScaleFacts.

(** ** Navigation between images *)

Section NavigationFacts.

Context {file : Type}.
Variable loads : file -> bool.

Lemma load_first_spec (files : list file) :
  forall (idx : nat) (ok : bool) (j : nat),
    load_first loads files idx = (ok, j) ->
    (idx <= j)%nat /\
    (files <> [] -> (j < idx + length files)%nat) /\
    (forall i f, (idx <= i < j)%nat -> files !! (i - idx)%nat = Some f ->
       loads f = false) /\
    (ok = true -> exists f, files !! (j - idx)%nat = Some f /\ loads f = true) /\
    (ok = false -> files <> [] ->
     j = (idx + length files - 1)%nat /\
     forall f, files !! (j - idx)%nat = Some f -> loads f = false).
Proof.
  induction files as [| f rest IH]; intros idx ok j; cbn [load_first].
  - intros [= <- <-]. repeat split; try lia; congruence.
  - destruct (loads f) eqn:Ef.
    + intros [= <- <-]. repeat split; try lia; try discriminate.
      * cbn. lia.
      * exists f. rewrite Nat.sub_diag. auto.
    + destruct rest as [| g rest].
      * intros [= <- <-]. repeat split; try lia; try discriminate.
        -- cbn. lia.
        -- cbn. lia.
        -- rewrite Nat.sub_diag. cbn. now intros ? [= <-].
      * intros H. destruct (IH _ _ _ H) as (Hle & Hlt & Hskip & Hok & Hno).
        specialize (Hlt ltac:(discriminate)). cbn [length] in *.
        split; [lia |]. split; [intros _; lia |]. split; [| split].
        -- intros i f' Hi. destruct (decide (i = idx)) as [-> | Hne].
           ++ rewrite Nat.sub_diag. cbn. now intros [= <-].
           ++ replace (i - idx)%nat with (S (i - S idx)) by lia. cbn.
              apply Hskip. lia.
        -- intros Hk. destruct (Hok Hk) as (f' & Hf' & Hl).
           exists f'. split; [| exact Hl].
           replace (j - idx)%nat with (S (j - S idx)) by lia. exact Hf'.
        -- intros Hk _. destruct (Hno Hk ltac:(discriminate)) as [Hj Hl].
           split; [lia |]. intros f'.
           replace (j - idx)%nat with (S (j - S idx)) by lia. apply Hl.
Qed.

Lemma load_current_image_spec (image_files : list file) (idx : nat)
    (ok : bool) (j : nat) :
  (idx < length image_files)%nat ->
  _load_current_image loads image_files idx = (ok, j) ->
  (idx <= j < length image_files)%nat /\
  (forall i f, (idx <= i < j)%nat -> image_files !! i = Some f ->
     loads f = false) /\
  (ok = true -> exists f, image_files !! j = Some f /\ loads f = true) /\
  (ok = false ->
   j = (length image_files - 1)%nat /\
   forall f, image_files !! j = Some f -> loads f = false).
Proof.
  intros Hidx H. unfold _load_current_image in H.
  assert (Hne : drop idx image_files <> []).
  { intros E. apply (f_equal length) in E. rewrite length_drop in E.
    cbn in E. lia. }
  destruct (load_first_spec _ _ _ _ H) as (Hle & Hlt & Hskip & Hok & Hno).
  specialize (Hlt Hne). rewrite length_drop in Hlt.
  split; [lia |]. split; [| split].
  - intros i f Hi Hf. apply (Hskip i f Hi). rewrite lookup_drop.
    now replace (idx + (i - idx))%nat with i by lia.
  - intros Hk. destruct (Hok Hk) as (f & Hf & Hl). exists f.
    split; [| exact Hl]. rewrite lookup_drop in Hf.
    now replace (idx + (j - idx))%nat with j in Hf by lia.
  - intros Hk. destruct (Hno Hk Hne) as [Hj Hl]. rewrite length_drop in Hj.
    split; [lia |]. intros f Hf. apply Hl. rewrite lookup_drop.
    now replace (idx + (j - idx))%nat with j by lia.
Qed.

(** X26.  A load skips forward to the first file that loads.  From a
    valid index, [_load_current_image] ends on an index of the batch that
    is not before the one it started from; every file it passed failed to
    load; if it returns [True] the file it ends on loaded; if it returns
    [False] it ends on the last file, which failed as well.  The index
    never moves backward and never leaves the batch. *)
Theorem load_skips_forward (image_files : list file) (current_index : nat) :
  (current_index < length image_files)%nat ->
  exists (ok : bool) (j : nat),
    _load_current_image loads image_files current_index = (ok, j) /\
    (current_index <= j < length image_files)%nat /\
    (forall i f, (current_index <= i < j)%nat -> image_files !! i = Some f ->
       loads f = false) /\
    (ok = true -> exists f, image_files !! j = Some f /\ loads f = true) /\
    (ok = false ->
     j = (length image_files - 1)%nat /\
     forall f, image_files !! j = Some f -> loads f = false).
Proof.
  intros Hidx.
  destruct (_load_current_image loads image_files current_index) as [ok j]
    eqn:E.
  exists ok, j. split; [reflexivity |].
  now apply load_current_image_spec.
Qed.

(** X27.  Navigation stays in the batch and waits for the gesture.  The
    index after [_next_image] or [_previous_image] is an index of the
    batch; while a drag or a label input is under way it is the index
    before; [_next_image] never moves backward, and [_previous_image] goes
    back by one at most.  From an index that is not the first,
    [_previous_image] lands on the index before exactly when no drag or
    label input is under way and the file there loads; otherwise it lands
    on the current index or after it. *)
Theorem navigation_stays_in_batch (st : editor) (image_files : list file)
    (current_index : nat) :
  (current_index < length image_files)%nat ->
  let next := _next_image loads st image_files current_index in
  let previous := _previous_image loads st image_files current_index in
  (next < length image_files)%nat /\
  (previous < length image_files)%nat /\
  (current_index <= next)%nat /\
  (current_index - 1 <= previous)%nat /\
  (drawing st || label_input_mode st = true ->
   next = current_index /\ previous = current_index) /\
  ((0 < current_index)%nat ->
   previous = (current_index - 1)%nat <->
   drawing st || label_input_mode st = false /\
   exists f, image_files !! (current_index - 1)%nat = Some f /\
             loads f = true).
Proof.
  intros Hidx. cbn zeta. unfold _next_image, _previous_image.
  destruct (drawing st || label_input_mode st).
  { repeat split; lia. }
  assert (Hnext :
    (current_index
     <= (if (current_index <? length image_files - 1)%nat
         then snd (_load_current_image loads image_files (current_index + 1))
         else current_index)
     < length image_files)%nat).
  { destruct (Nat.ltb_spec current_index (length image_files - 1)); [| lia].
    destruct (_load_current_image loads image_files (current_index + 1))
      as [ok j] eqn:E.
    apply load_current_image_spec in E as [Hj _]; [cbn; lia | lia]. }
  destruct (Nat.ltb_spec 0 current_index) as [Hpos | Hzero].
  - destruct (_load_current_image loads image_files (current_index - 1))
      as [ok j] eqn:E.
    apply load_current_image_spec in E as (Hj & Hskip & Hok & Hno); [| lia].
    cbn [snd]. do 4 (split; [lia |]). split; [discriminate |].
    intros _. split.
    + intros ->. split; [reflexivity |]. destruct ok.
      * now apply Hok.
      * destruct (Hno eq_refl) as [Hlast _]. lia.
    + intros [_ (f & Hf & Hl)].
      destruct (decide (j = current_index - 1)%nat) as [-> | Hne];
        [reflexivity |].
      rewrite (Hskip (current_index - 1)%nat f ltac:(lia) Hf) in Hl.
      discriminate.
  - do 4 (split; [lia |]). split; [discriminate | lia].
Qed.

End NavigationFacts.

(** ** The raster instance satisfies the laws of the view *)

Lemma grid_px_lookup (g : grid) (y x : Z) (row : list color) (p : color) :
  0 <= y -> 0 <= x ->
  g !! Z.to_nat y = Some row -> row !! Z.to_nat x = Some p ->
  grid_px g y x = p.
Proof.
  intros Hy Hx Hr Hp. unfold grid_px.
  destruct (Z.ltb_spec y 0); [lia |]. destruct (Z.ltb_spec x 0); [lia |].
  cbn. now rewrite Hr; cbn; rewrite Hp.
Qed.

Lemma grid_px_outside (g : grid) (y x : Z) :
  (y < 0 \/ x < 0 \/ g !! Z.to_nat y = None \/
   exists row, g !! Z.to_nat y = Some row /\ row !! Z.to_nat x = None) ->
  grid_px g y x = black.
Proof.
  intros H. unfold grid_px.
  destruct (Z.ltb_spec y 0); [reflexivity |].
  destruct (Z.ltb_spec x 0); [reflexivity |]. cbn.
  destruct H as [? | [? | [-> | (row & -> & Hx)]]]; try lia; [reflexivity |].
  cbn. now rewrite Hx.
Qed.

Lemma grid_zeros_shape (h w : Z) :
  0 < h -> 0 <= w -> grid_shape (grid_zeros h w) = (h, w).
Proof.
  intros Hh Hw. unfold grid_shape, grid_zeros.
  rewrite length_replicate.
  destruct (Z.to_nat h) as [| n] eqn:E; [lia |]. cbn [replicate head default
    from_option id]. rewrite length_replicate. f_equal; lia.
Qed.

Lemma grid_px_uniform (g : grid) (y x : Z) :
  (forall row p, row ∈ g -> p ∈ row -> p = black) -> grid_px g y x = black.
Proof.
  intros H. unfold grid_px.
  destruct ((y <? 0) || (x <? 0)); [reflexivity |].
  destruct (g !! Z.to_nat y) as [row |] eqn:Er; [| reflexivity]. cbn.
  destruct (row !! Z.to_nat x) as [p |] eqn:Ep; [| reflexivity]. cbn.
  apply (H row p); apply list_elem_of_lookup; eauto.
Qed.

Lemma grid_zeros_px (h w y x : Z) : grid_px (grid_zeros h w) y x = black.
Proof.
  apply grid_px_uniform. intros row p Hr Hp. unfold grid_zeros in Hr.
  apply elem_of_replicate in Hr as [-> _].
  now apply elem_of_replicate in Hp as [-> _].
Qed.

Lemma grid_resize_shape (g : grid) (new_w new_h : Z) (i : interpolation)
    (r : grid) :
  grid_resize g (new_w, new_h) i = Ok r -> grid_shape r = (new_h, new_w).
Proof.
  unfold grid_resize. destruct (grid_shape g) as [h w].
  destruct ((new_w <=? 0) || (new_h <=? 0) || (h <=? 0) || (w <=? 0)) eqn:E;
    [discriminate |].
  rewrite !orb_false_iff, !Z.leb_gt in E. destruct E as [[[Hw Hh] _] _].
  intros [= <-]. unfold grid_shape.
  rewrite length_fmap, length_seqZ.
  rewrite (seqZ_cons 0 new_h) by lia. rewrite fmap_cons.
  cbn [head default from_option id].
  rewrite length_fmap, length_seqZ. f_equal; lia.
Qed.

Lemma paste_in_range_dec_true (p : paste) (cs zs : Z * Z) :
  paste_in_range p cs zs -> paste_in_range_dec p cs zs = true.
Proof.
  unfold paste_in_range, paste_in_range_dec. intros H.
  rewrite !andb_true_iff, !Z.ltb_lt, !Z.leb_le. tauto.
Qed.

Lemma grid_px_imap (f : Z -> Z -> color -> color) (g : grid) (y x : Z) :
  0 <= y -> 0 <= x ->
  grid_px (grid_imap f g) y x
  = match g !! Z.to_nat y with
    | Some row =>
        match row !! Z.to_nat x with
        | Some p => f y x p
        | None => black
        end
    | None => black
    end.
Proof.
  intros Hy Hx. unfold grid_px, grid_imap.
  destruct (Z.ltb_spec y 0); [lia |]. destruct (Z.ltb_spec x 0); [lia |].
  cbn [orb]. unfold grid in *. rewrite list_lookup_imap.
  destruct (g !! Z.to_nat y) as [row |]; [| reflexivity]. cbn.
  rewrite list_lookup_imap.
  destruct (row !! Z.to_nat x) as [p |]; [| reflexivity]. cbn.
  now rewrite !Z2Nat.id by lia.
Qed.

Lemma grid_assign_slice_px (h w : Z) (zoomed : grid) (p : paste) :
  0 < h -> 0 < w ->
  paste_in_range p (h, w) (grid_shape zoomed) ->
  exists r : grid,
    grid_assign_slice (grid_zeros h w) zoomed p = Ok r /\
    forall y x : Z,
      grid_px r y x
      = if in_target p y x
        then grid_px zoomed (start_y p + (y - target_y p))
               (start_x p + (x - target_x p))
        else black.
Proof.
  intros Hh Hw Hr. unfold grid_assign_slice.
  rewrite grid_zeros_shape by lia.
  rewrite (paste_in_range_dec_true _ _ _ Hr). eexists. split; [reflexivity |].
  intros y x.
  destruct (decide (0 <= y < h /\ 0 <= x < w)) as [[Hy Hx] | Hout].
  - rewrite grid_px_imap by lia. unfold grid_zeros, grid.
    now rewrite !lookup_replicate_2 by lia.
  - assert (Hin : in_target p y x = false).
    { unfold in_target. apply not_true_iff_false.
      rewrite !andb_true_iff, !Z.leb_le, !Z.ltb_lt.
      unfold paste_in_range in Hr. cbn [fst snd] in Hr. lia. }
    rewrite Hin.
    destruct (Z.lt_ge_cases y 0) as [? | Hy0];
      [apply grid_px_outside; now left |].
    destruct (Z.lt_ge_cases x 0) as [? | Hx0];
      [apply grid_px_outside; now right; left |].
    rewrite grid_px_imap by lia. unfold grid_zeros, grid.
    destruct (Z.lt_ge_cases y h) as [Hyh | Hyh].
    + rewrite lookup_replicate_2 by lia.
      now rewrite (proj1 (lookup_replicate_None _ _ _)) by lia.
    + now rewrite (proj1 (lookup_replicate_None _ _ _)) by lia.
Qed.

Lemma grid_view_laws : ViewLaws grid_cv grid_view.
Proof.
  split.
  - reflexivity.
  - exact grid_resize_shape.
  - intros h w y x. apply grid_zeros_px.
  - intros h w zoomed p Hh Hw Hr.
    destruct (grid_assign_slice_px h w zoomed p Hh Hw Hr) as (r & E & Hpx).
    exists r. split; [exact E |]. exact Hpx.
Qed.

(** ** Runs and instances of the further properties *)

Lemma pointer_events_keep_the_store_witness :
  circles (set_drawing busy_editor false) = circles busy_editor /\
  current_mode (set_drawing busy_editor false) = current_mode busy_editor /\
  _blur_kernel (set_drawing busy_editor false) = _blur_kernel busy_editor /\
  _pixelate_size (set_drawing busy_editor false)
  = _pixelate_size busy_editor /\
  highlight_alpha (set_drawing busy_editor false)
  = highlight_alpha busy_editor /\
  show_labels (set_drawing busy_editor false) = show_labels busy_editor /\
  min_zoom (set_drawing busy_editor false) = min_zoom busy_editor /\
  max_zoom (set_drawing busy_editor false) = max_zoom busy_editor.
Proof.
  apply (pointer_events_keep_the_store fl_exact busy_editor
           (set_drawing busy_editor false) (0 # 1) EVENT_LBUTTONUP 10 10 0 []).
  reflexivity.
Defined.

(** A pan by [(30, -20)] at zoom 2. *)
Example pan_gesture_at_zoom_2 :
  ('(s1, _) ← _mouse_callback fl_exact (set_zoom_level init_editor (2 # 1))
                (0 # 1) EVENT_RBUTTONDOWN 100 100 0;
   '(s2, _) ← _mouse_callback fl_exact s1 (0 # 1) EVENT_MOUSEMOVE 130 80 0;
   '(s3, _) ← _mouse_callback fl_exact s2 (0 # 1) EVENT_RBUTTONUP 130 80 0;
   Ok (pan_x s3, pan_y s3, zoom_level s3, is_panning s3))
  = Ok (30, -20, 2 # 1, false).
Proof. reflexivity. Qed.

Lemma typed_label_is_committed_witness :
  exists (st' : editor) (acts : list ui_action),
    run_keys (typing_editor " ") ([ord "c"; ord "a"; ord "t"; 32] ++ [13])
    = Handled st' acts /\
    circles st'
    = circles (typing_editor " ") ++
      [{| center := (100, 100); radius := current_radius (typing_editor " ");
          mode := current_mode (typing_editor " ");
          label := strip (current_label (typing_editor " ") +:+
                          text_of_keys [ord "c"; ord "a"; ord "t"; 32]) |}] /\
    label_input_mode st' = false /\ current_label st' = "".
Proof.
  apply (typed_label_is_committed (typing_editor " ") (100, 100)
           [ord "c"; ord "a"; ord "t"; 32]); reflexivity.
Defined.

Example typed_label_run :
  match run_keys (typing_editor " ") [ord "c"; ord "a"; ord "t"; 32; 13] with
  | Handled st' _ => label <$> circles st' = ["cat"]
  | _ => False
  end.
Proof. vm_compute. reflexivity. Qed.

Lemma backspace_reverts_keystroke_witness :
  exists acts : list ui_action,
    run_keys (typing_editor "ca") [ord "t"; 8]
    = Handled (typing_editor "ca") acts.
Proof.
  apply (backspace_reverts_keystroke (typing_editor "ca") (ord "t"));
    reflexivity.
Defined.

Lemma undo_reverts_commit_witness :
  exists (st' : editor) (acts : list ui_action),
    run_keys (typing_editor "face") [13; ord "u"] = Handled st' acts /\
    circles st' = circles (typing_editor "face") /\
    PrintMsg (MsgRemoved (strip (current_label (typing_editor "face"))))
      ∈ acts /\
    label_input_mode st' = false /\
    current_mode st' = current_mode (typing_editor "face") /\
    zoom_level st' = zoom_level (typing_editor "face") /\
    (pan_x st', pan_y st')
    = (pan_x (typing_editor "face"), pan_y (typing_editor "face")).
Proof.
  apply (undo_reverts_commit (typing_editor "face") (100, 100)); reflexivity.
Defined.

Lemma edit_last_label_changes_one_label_witness :
  exists (st' : editor) (acts : list ui_action),
    _edit_last_label_with fl_exact relabel_editor relabel_inputs
    = Some (Ok (st', acts)) /\
    label <$> circles st' = ["face"; ""; "cow"] /\
    zoom_level st' = 11 # 10 /\
    geometry <$> circles st' = geometry <$> circles relabel_editor /\
    removelast (circles st') = removelast (circles relabel_editor) /\
    drawing st' = drawing relabel_editor.
Proof.
  do 2 eexists. split; [vm_compute; reflexivity |].
  split; [vm_compute; reflexivity |]. split; [vm_compute; reflexivity |].
  match goal with
  | |- geometry <$> circles ?st' = _ /\ _ =>
      edestruct (edit_last_label_changes_one_label fl_exact relabel_editor st'
                   relabel_inputs)
        as (Hg & Hr & _ & Hd & _)
  end; [vm_compute; reflexivity |].
  split; [exact Hg |]. split; [exact Hr | exact Hd].
Defined.

(** The same keys with no centre on record, as after a load of the three
    regions and no drag: the label edit raises before it reads the first
    of them, and so does the pass through the loop of [run]. *)
Example relabel_without_centre_raises :
  self_center labelled_editor = None /\
  _edit_last_label_with fl_exact labelled_editor relabel_inputs
  = Some (Raise TypeError) /\
  run_key (load_editor init_editor (circles labelled_editor)) (ord "e")
    [8; 8; ord "o"; ord "w"; ord " "; 13]
  = Raised TypeError.
Proof. repeat split. Qed.

Lemma edit_last_label_typed_witness :
  (exists st' acts,
     _edit_last_label_with fl_exact relabel_editor
       ([EditKey (ord "!");
         EditPointer (100 # 1) EVENT_MOUSEWHEEL 200 200 1; EditKey (ord "?")]
        ++ EditKey 13 :: [])
     = Some (Ok (st', acts)) /\
     circles st'
     = take 2 (circles relabel_editor) ++
       [{| center := (310, 305); radius := 60; mode := INVERT;
           label := strip ("cat" +:+ text_of_keys [ord "!"; ord "?"]) |}] /\
     label_input_mode st' = false) /\
  (exists st' acts,
     _edit_last_label_with fl_exact relabel_editor
       ([EditKey (ord "!");
         EditPointer (100 # 1) EVENT_MOUSEWHEEL 200 200 1; EditKey (ord "?")]
        ++ EditKey 27 :: [])
     = Some (Ok (st', acts)) /\
     circles st' = circles relabel_editor /\ label_input_mode st' = false).
Proof.
  apply (edit_last_label_typed fl_exact relabel_editor
           (take 2 (circles relabel_editor))
           {| center := (310, 305); radius := 60; mode := INVERT;
              label := "cat" |} (310, 305)
           [EditKey (ord "!");
            EditPointer (100 # 1) EVENT_MOUSEWHEEL 200 200 1;
            EditKey (ord "?")] []); reflexivity.
Defined.

(** With keys alone the loop is that of the key [e] in [run]. *)
Example relabel_by_the_key_e :
  match run_key relabel_editor (ord "e") [8; 8; ord "o"; ord "w"; 13] with
  | Handled st' _ =>
      label <$> circles st' = ["face"; ""; "cow"] /\
      zoom_level st' = zoom_level relabel_editor
  | _ => False
  end.
Proof. vm_compute. split; reflexivity. Qed.

Lemma busy_editor_reachable : reachable fl_exact busy_editor.
Proof.
  apply (play_reachable fl_exact face_then_press init_editor busy_editor
           (reach_init fl_exact)).
  vm_compute. reflexivity.
Qed.

Lemma typing_editor_reachable : reachable fl_exact (typing_editor "").
Proof.
  apply (play_reachable fl_exact (take 4 face_then_press) init_editor
           (typing_editor "") (reach_init fl_exact)).
  vm_compute. reflexivity.
Qed.

Lemma session_regions_are_well_formed_witness :
  Forall (fun c => 5 < radius c /\ printable (label c) = true /\
                   stripped (label c)) (circles busy_editor).
Proof.
  exact (session_regions_are_well_formed fl_exact busy_editor
           busy_editor_reachable).
Defined.

(** The session of [face_then_press], followed by a load of an image whose
    file holds one region. *)
Lemma reloaded_editor_in_session :
  session fl_exact (load_editor busy_editor [left_invert]).
Proof.
  apply session_load, reachable_session, busy_editor_reachable.
Qed.

Lemma session_zoom_within_limits_witness :
  min_zoom (load_editor busy_editor [left_invert]) = 1 # 2 /\
  max_zoom (load_editor busy_editor [left_invert]) = 10 # 1 /\
  (min_zoom (load_editor busy_editor [left_invert])
   <= zoom_level (load_editor busy_editor [left_invert]))%Q /\
  (zoom_level (load_editor busy_editor [left_invert])
   <= max_zoom (load_editor busy_editor [left_invert]))%Q.
Proof.
  exact (session_zoom_within_limits fl_exact
           (load_editor busy_editor [left_invert]) reloaded_editor_in_session).
Defined.


(** The root that a move takes: exact for the drag of the scenario, one
    above the integer root for a squared distance just below a square near
    2^52, and not taken at all from 2^64 on. *)
Example int_sqrt_values :
  int_sqrt 2500 = Ok 50 /\
  int_sqrt (67108869 ^ 2 - 1) = Ok 67108869 /\
  Z.sqrt (67108869 ^ 2 - 1) = 67108868 /\
  int_sqrt (2 ^ 64 - 1) = Ok (2 ^ 32) /\
  int_sqrt (2 ^ 64) = Raise TypeError.
Proof. repeat split. Qed.

(** During the drag of [busy_editor], whose centre is [(10, 10)], a move
    to a point 2^32 pixels to the right raises, and a move to the point
    before it returns. *)
Example far_move_raises :
  drag_distance2 fl_exact busy_editor (2 ^ 32 + 10) 10 = Some (2 ^ 64) /\
  _mouse_callback fl_exact busy_editor (0 # 1) EVENT_MOUSEMOVE
    (2 ^ 32 + 10) 10 0 = Raise TypeError /\
  _mouse_callback fl_exact busy_editor (0 # 1) EVENT_MOUSEMOVE
    (2 ^ 32 + 9) 10 0
  = Ok (set_current_radius busy_editor (2 ^ 32 - 1), [UpdateDisplay]).
Proof. repeat split. Qed.

Lemma label_input_follows_a_drag_witness :
  drawing (typing_editor "") = false /\
  5 < current_radius (typing_editor "") /\
  exists c, self_center (typing_editor "") = Some c.
Proof.
  apply (label_input_follows_a_drag fl_exact InRun (typing_editor "")
           (session_in_run fl_exact _
              (reachable_session fl_exact _ typing_editor_reachable))).
  reflexivity.
Defined.

(** The key [e] during the drag of [busy_editor]: inside the loop of the
    label edit the editor is in label input with the drag still in
    progress and a radius of 0 on record; Enter returns to the loop of
    [run] with the drag in progress as before. *)
Example relabel_during_a_drag :
  let st := set_label_input_mode (set_current_label busy_editor "face") true in
  session_at fl_exact InEdit st /\
  label_input_mode st = true /\ drawing st = true /\ current_radius st = 0 /\
  exists (st' : editor) (acts : list ui_action),
    edit_key st 13 = EditReturns st' acts /\
    session_at fl_exact InRun st' /\ drawing st' = true /\
    label_input_mode st' = false.
Proof.
  assert (Hst : session_at fl_exact InEdit
                  (set_label_input_mode (set_current_label busy_editor "face")
                     true)).
  { apply (at_edit_opens fl_exact busy_editor (ord "e") face_region).
    - apply session_in_run, reachable_session, busy_editor_reachable.
    - reflexivity.
    - reflexivity.
    - discriminate. }
  cbn zeta. split; [exact Hst |]. do 3 (split; [reflexivity |]).
  do 2 eexists. split; [reflexivity |]. split; [| split; reflexivity].
  eapply (at_edit_returns fl_exact _ 13); [exact Hst | reflexivity].
Qed.

(** Thirty wheel steps up from zoom 1.0 end at the upper limit. *)
Example zoom_stops_at_limit :
  match
    play fl_exact init_editor
      ((fun k => MouseEvent (inject_Z (100 * k)) EVENT_MOUSEWHEEL 50 50 1)
         <$> seqZ 1 30)
  with
  | Some st => zoom_level st = 10 # 1
  | None => False
  end.
Proof. vm_compute. reflexivity. Qed.

Lemma update_state_access_moves_to_end_witness :
  state_access_order
    (_update_state_access (StateCache ∅ ["a.png"; "b.png"; "c.png"]) "a.png")
  = filter (fun y => y <> "a.png") ["a.png"; "b.png"; "c.png"] ++ ["a.png"] /\
  NoDup (state_access_order
           (_update_state_access (StateCache ∅ ["a.png"; "b.png"; "c.png"])
              "a.png")) /\
  image_states
    (_update_state_access (StateCache ∅ ["a.png"; "b.png"; "c.png"]) "a.png")
  = ∅.
Proof.
  apply (update_state_access_moves_to_end
           (StateCache ∅ ["a.png"; "b.png"; "c.png"]) "a.png").
  apply (bool_decide_unpack _). vm_compute. exact I.
Defined.

Lemma cleanup_keeps_most_recent_witness :
  exists evicted : list string,
    state_access_order (cache_run (take 3 six_saves))
    = evicted ++
      state_access_order (_cleanup_old_states (cache_run (take 3 six_saves)))
    /\
    length
      (state_access_order
         (_cleanup_old_states (cache_run (take 3 six_saves))))
    = Nat.min MAX_CACHED_STATES
        (length (state_access_order (cache_run (take 3 six_saves)))) /\
    (forall f,
       f ∈ state_access_order
             (_cleanup_old_states (cache_run (take 3 six_saves))) ->
       image_states (_cleanup_old_states (cache_run (take 3 six_saves))) !! f
       = image_states (cache_run (take 3 six_saves)) !! f) /\
    (forall f, f ∈ evicted ->
       image_states (_cleanup_old_states (cache_run (take 3 six_saves))) !! f
       = None) /\
    (forall f, f ∉ state_access_order (cache_run (take 3 six_saves)) ->
       image_states (_cleanup_old_states (cache_run (take 3 six_saves))) !! f
       = image_states (cache_run (take 3 six_saves)) !! f).
Proof.
  apply (cleanup_keeps_most_recent (cache_run (take 3 six_saves))).
  apply (bool_decide_unpack _). vm_compute. exact I.
Defined.

(** The session [six_saves], run: the failed save of [c.png] leaves its
    state in the cache until the next successful save evicts the oldest
    name; at the end five names are listed, [b.png] the most recent, and
    [a.png] and its state are gone. *)
Example six_saves_run :
  state_access_order (cache_run six_saves)
  = ["c.png"; "d.png"; "e.png"; "f.png"; "b.png"] /\
  image_states (cache_run six_saves) !! "a.png" = None /\
  image_states (cache_run six_saves) !! "c.png" = Some [left_invert] /\
  size (image_states (cache_run six_saves)) = 5%nat.
Proof. repeat split; vm_compute; reflexivity. Qed.

Example ui_heights :
  _get_dynamic_ui_height fl_exact <$> [900; 400; 100; 3; 0]
  = [100; 60; 15; 1; 1].
Proof. reflexivity. Qed.

Example shown_filename_run :
  shown_filename fl_exact 300 "holiday_photograph_0001.png"
  = "holiday_photograp..." /\
  shown_filename fl_exact 300 "cat.png" = "cat.png" /\
  shown_filename fl_exact 1400 "holiday_photograph_0001.png"
  = "holiday_photograph_0001.png".
Proof. repeat split. Qed.

(** The label typed for a region at the left edge of a 900 by 1400 image
    is moved in from the edge. *)
Example typing_label_at_the_edge :
  let d := _draw_typing_label fl_exact fixed_pitch working_size (20, 450) 60
             "ca" BLUR in
  td_text d = "[BLU] ca_" /\ td_rect d = (0, 361, 104, 392).
Proof. vm_compute. split; reflexivity. Qed.

Lemma zoomed_view_is_translation_witness :
  exists (view : grid) (new_h new_w : Z),
    grid_shape chart = (new_h, new_w) /\
    _get_zoomed_view fl_exact panned_editor chart = Ok view /\
    forall y x : Z,
      grid_px view y x
      = if (0 <=? y) && (y <? 4) && (0 <=? x) && (x <? 6)
           && (0 <=? y - pan_y panned_editor)
           && (y - pan_y panned_editor <? new_h)
           && (0 <=? x - pan_x panned_editor)
           && (x - pan_x panned_editor <? new_w)
        then grid_px chart (y - pan_y panned_editor) (x - pan_x panned_editor)
        else black.
Proof.
  apply (zoomed_view_is_translation fl_exact (2 ^ 53) fl_exact_mono
           fl_exact_int (laws := grid_view_laws) panned_editor chart chart 4 6).
  - reflexivity.
  - lia.
  - lia.
  - reflexivity.
Defined.

(** The view of the witness, run: the chart moves two columns to the right
    and one row up, and black fills the rest. *)
Example panned_view_run :
  _get_zoomed_view fl_exact panned_editor chart
  = Ok [ [black; black; (1, 0, 0); (1, 1, 0); (1, 2, 0); (1, 3, 0)];
         [black; black; (2, 0, 0); (2, 1, 0); (2, 2, 0); (2, 3, 0)];
         [black; black; (3, 0, 0); (3, 1, 0); (3, 2, 0); (3, 3, 0)];
         [black; black; black; black; black; black] ].
Proof. vm_compute. reflexivity. Qed.

(** At zoom 2 the view has the size of the chart all the same: the chart
    is resized to twice its size and the upper left quarter of the result
    is what the view holds. *)
Example zoomed_view_run :
  match _get_zoomed_view fl_exact (set_zoom_level init_editor (2 # 1)) chart
  with
  | Ok view => shape view = shape chart
  | Raise _ => False
  end.
Proof. vm_compute. reflexivity. Qed.

Lemma unit_zoom_maps_are_translations_witness :
  _screen_to_image_coords fl_exact (set_pan init_editor 30 (-20)) 100 80
  = Ok (100 - 30, 80 - -20) /\
  _image_to_screen_coords fl_exact (set_pan init_editor 30 (-20))
    (100 - 30) (80 - -20) = (100, 80).
Proof.
  apply (unit_zoom_maps_are_translations fl_exact (2 ^ 53) fl_exact_mono
           fl_exact_int (set_pan init_editor 30 (-20)) 100 80);
    try reflexivity; cbn; lia.
Defined.

Lemma fl_exact_rel (q : Q) :
  (0 <= q)%Q -> (q * (1 - 0) <= fl_exact q)%Q /\ (fl_exact q <= q * (1 + 0))%Q.
Proof. intros _. unfold fl_exact. split; lra. Qed.

Lemma scale_image_fits_working_size_witness :
  (1800 <= 900 /\ 10 <= 1400 ->
   _scale_image fl_exact tall_image = Ok (1 # 1, tall_image)) /\
  (900 < 1800 \/ 1400 < 10 ->
   exists (scale_factor : Q) (new_width new_height : Z),
     _scale_image fl_exact tall_image
     = (scaled ← grid_resize tall_image (new_width, new_height) INTER_AREA;
        Ok (scale_factor, scaled)) /\
     (0 < scale_factor)%Q /\ (scale_factor < 1)%Q /\
     0 <= new_width <= 1400 /\ 0 <= new_height <= 900 /\
     (1399 <= new_width \/ 899 <= new_height)).
Proof.
  apply (scale_image_fits_working_size fl_exact (cv := grid_cv) 0
           ltac:(split; discriminate) fl_exact_rel tall_image 1800 10).
  - reflexivity.
  - lia.
  - lia.
Defined.

(** The tall image of the witness is halved to 900 rows of 5 columns. *)
Example tall_image_is_halved :
  match _scale_image fl_exact tall_image with
  | Ok (scale_factor, scaled) =>
      (scale_factor == 1 # 2)%Q /\ grid_shape scaled = (900, 5)
  | Raise _ => False
  end.
Proof. vm_compute. split; reflexivity. Qed.

Lemma effect_is_confined_to_mask_witness :
  exists (img : grid) (d : list diagnostic),
    _apply_effect fl_exact zero_block_editor sample_image pixelate_region
    = Comp (Ok img) d /\
    (length d <= 1)%nat /\
    forall y x : Z,
      bitmap_at disc_mask y x = false -> grid_px img y x = grid_px sample_image y x.
Proof.
  apply (effect_is_confined_to_mask fl_exact (cv := grid_cv)
           (CvLaws0 := grid_laws) zero_block_editor sample_image
           pixelate_region disc_mask).
  reflexivity.
Defined.

Lemma grid_mask_total (img : grid) (c : Z * Z) (r : Z) :
  0 <= r -> exists m : bitmap, grid_filled_circle_mask img c r = Ok m.
Proof.
  intros Hr. unfold grid_filled_circle_mask.
  destruct (Z.ltb_spec r 0); [lia | eauto].
Qed.

Lemma grid_circle_total (img : grid) (c : Z * Z) (r : Z) (col : color) :
  0 <= r -> exists out : grid, grid_circle img c r col 2 = Ok out.
Proof.
  intros Hr. unfold grid_circle.
  destruct (Z.ltb_spec r 0); [lia |]. cbn. eauto.
Qed.

Lemma redraw_survives_failing_effects_witness :
  exists out : grid,
    outcome (_apply_all_effects fl_exact zero_block_editor sample_image)
    = Ok out /\
    (length (printed (_apply_all_effects fl_exact zero_block_editor
                        sample_image))
     <= length (circles zero_block_editor))%nat /\
    Forall (fun d => exists c e,
              c ∈ circles zero_block_editor /\ d = EffectError (mode c) e)
      (printed (_apply_all_effects fl_exact zero_block_editor sample_image)).
Proof.
  apply (redraw_survives_failing_effects fl_exact (cv := grid_cv)
           grid_mask_total grid_circle_total zero_block_editor sample_image).
  repeat constructor; cbn; lia.
Defined.

Lemma label_prefers_position_above_witness :
  _find_non_overlapping_position (300, 300) 50 120 12 5 4 working_size []
  = (fst (300, 300) - 50,
     snd (300, 300) - 50 - total_height 12 5 4 - 10 + 12,
     label_rect_at 120 12 5 4 (fst (300, 300) - 50)
       (snd (300, 300) - 50 - total_height 12 5 4 - 10 + 12)).
Proof.
  apply (label_prefers_position_above (300, 300) 50 120 12 5 4 working_size []).
  reflexivity.
Defined.

Lemma drawn_labels_start_inside_image_witness :
  let '(img_h, img_w) := working_size in
  let '(label_scale, label_thickness) :=
    _get_dynamic_label_params fl_exact working_size in
  let '((text_w, text_h), baseline) :=
    fixed_pitch (ld_text cat_drawing) label_scale label_thickness in
  let '(x1, y1, x2, y2) := ld_rect cat_drawing in
  2 <= label_padding fl_exact label_scale /\
  (x1, y1) = (fst (ld_origin cat_drawing) - label_padding fl_exact label_scale,
              snd (ld_origin cat_drawing) - text_h
              - label_padding fl_exact label_scale) /\
  x2 - x1 = text_w + 2 * label_padding fl_exact label_scale /\
  y2 - y1 = text_h + baseline + 2 * label_padding fl_exact label_scale /\
  fst (ld_line cat_drawing) = (fst (ld_origin cat_drawing) + text_w / 2, y2) /\
  0 <= x1 /\ 0 <= y1 /\
  ((label_padding fl_exact label_scale <= x1 /\
    label_padding fl_exact label_scale <= y1 /\
    x2 <= img_w - label_padding fl_exact label_scale /\
    y2 <= img_h - label_padding fl_exact label_scale) \/
   y1 = 0).
Proof.
  apply (drawn_labels_start_inside_image fl_exact fixed_pitch labelled_editor
           working_size cat_drawing).
  apply list_elem_of_lookup. exists 1%nat. vm_compute. reflexivity.
Defined.

Lemma load_is_all_or_nothing_witness :
  (Forall (fun o => exists l, load_object o = Ok l)
     (JDict <$> [export_fields 1 face_region; record_without_radius]) ->
   exists ls : list loaded_circle,
     restore_circles (JDict file_without_radius)
     = (ls, MsgRestored
              (length (JDict <$> [export_fields 1 face_region;
                                  record_without_radius]))) /\
     Forall2 (fun o l => load_object o = Ok l)
       (JDict <$> [export_fields 1 face_region; record_without_radius]) ls) /\
  (Exists (fun o => exists e, load_object o = Raise e)
     (JDict <$> [export_fields 1 face_region; record_without_radius]) ->
   exists e, restore_circles (JDict file_without_radius)
             = ([], MsgJsonError e)).
Proof.
  apply (load_is_all_or_nothing file_without_radius
           (JDict <$> [export_fields 1 face_region; record_without_radius])).
  reflexivity.
Defined.

Lemma load_skips_forward_witness :
  exists (ok : bool) (j : nat),
    _load_current_image all_but_b batch 1 = (ok, j) /\
    (1 <= j < length batch)%nat /\
    (forall i f, (1 <= i < j)%nat -> batch !! i = Some f ->
       all_but_b f = false) /\
    (ok = true -> exists f, batch !! j = Some f /\ all_but_b f = true) /\
    (ok = false ->
     j = (length batch - 1)%nat /\
     forall f, batch !! j = Some f -> all_but_b f = false).
Proof.
  apply (load_skips_forward all_but_b batch 1). cbn. lia.
Defined.

Lemma navigation_stays_in_batch_witness :
  (_next_image all_but_b init_editor batch 2 < length batch)%nat /\
  (_previous_image all_but_b init_editor batch 2 < length batch)%nat /\
  (2 <= _next_image all_but_b init_editor batch 2)%nat /\
  (2 - 1 <= _previous_image all_but_b init_editor batch 2)%nat /\
  (drawing init_editor || label_input_mode init_editor = true ->
   _next_image all_but_b init_editor batch 2 = 2%nat /\
   _previous_image all_but_b init_editor batch 2 = 2%nat) /\
  ((0 < 2)%nat ->
   _previous_image all_but_b init_editor batch 2 = (2 - 1)%nat <->
   drawing init_editor || label_input_mode init_editor = false /\
   exists f, batch !! (2 - 1)%nat = Some f /\ all_but_b f = true).
Proof.
  apply (navigation_stays_in_batch all_but_b init_editor batch 2). cbn. lia.
Defined.

(** In the batch whose second file fails: a load at the second file ends on
    the third; going back from the third lands on the third again; going
    forward from the first skips the second; and nothing moves during a
    drag. *)
Example navigation_around_a_bad_file :
  _load_current_image all_but_b batch 1 = (true, 2%nat) /\
  _previous_image all_but_b init_editor batch 2 = 2%nat /\
  _next_image all_but_b init_editor batch 0 = 2%nat /\
  _next_image all_but_b init_editor batch 3 = 3%nat /\
  _next_image all_but_b drawing_editor batch 0 = 0%nat.
Proof. repeat split. Qed.
